(** * blossom: Bloom filters over a byte-backed bit field and the FNV hash

    A shallow embedding of [lib/fnv.js], [lib/bitfield.js] and
    [lib/bloom.js].

    Conventions of the embedding.
    - A JavaScript number that holds an integer (hash values, bit indices,
      sizes, counters) is a [Z].  The 32-bit conversions the bit operators
      perform ([ToInt32], [ToUint32]) are written out, and so is the
      rounding to a 53-bit significand that [+] and [*] perform once an
      integer result leaves the exactly representable range.
    - A JavaScript number that may hold a fraction (capacity, error rate,
      slice count, scaling factors) is the real number the double denotes.
      [calculateSize] and [calculateSlices] round each operation to the
      nearest double ([Double.round]), and [Math.log] is the natural
      logarithm rounded in the same way.  The products from which a scaling
      filter takes the capacity and the error rate of a new generation are
      exact.
    - A [Buffer] is a list of bytes, each byte a [Z] in [0, 256).
    - Objects mutated in place become explicit state passing: an operation
      takes the object's state and returns the new state. *)

From Stdlib Require Import ZArith List Bool String Ascii Lia Reals Lra Psatz.
Import ListNotations.

Local Open Scope Z_scope.

(** ** Number conversions of the bit operators *)

Module Js.

(** [ToInt32]: reduce modulo 2^32 into [-2^31, 2^31). *)
Definition ToInt32 (x : Z) : Z := (x + 2 ^ 31) mod 2 ^ 32 - 2 ^ 31.

(** [ToUint32]: reduce modulo 2^32 into [0, 2^32). *)
Definition ToUint32 (x : Z) : Z := x mod 2 ^ 32.

(** [a ^ b] *)
Definition xor (a b : Z) : Z := Z.lxor (ToInt32 a) (ToInt32 b).

(** [a & b] *)
Definition and (a b : Z) : Z := Z.land (ToInt32 a) (ToInt32 b).

(** [a | b] *)
Definition or (a b : Z) : Z := Z.lor (ToInt32 a) (ToInt32 b).

(** [~ a] *)
Definition not (a : Z) : Z := Z.lnot (ToInt32 a).

(** [a << n] *)
Definition shl (a n : Z) : Z := ToInt32 (Z.shiftl (ToInt32 a) (ToUint32 n mod 32)).

(** [a >>> n] *)
Definition ushr (a n : Z) : Z := Z.shiftr (ToUint32 a) (ToUint32 n mod 32).

(** The value a typed-array store keeps of an integer: its low eight bits. *)
Definition ToUint8 (x : Z) : Z := x mod 256.

(** Rounding of a non-negative integer to the nearest number with a 53-bit
    significand, ties to even: what [+] and [*] return for an exact integer
    result [x].  Integers below 2^53 are kept as they are. *)
Definition round53 (x : Z) : Z :=
  if x <? 2 ^ 53 then x
  else
    let k := Z.log2 x - 52 in
    let q := Z.shiftr x k in
    let r := x - Z.shiftl q k in
    let half := 2 ^ (k - 1) in
    let q' := if (half <? r) || ((r =? half) && Z.odd q) then q + 1 else q in
    Z.shiftl q' k.

(** [a + b] and [a * b] on non-negative integers. *)
Definition add (a b : Z) : Z := round53 (a + b).
Definition mul (a b : Z) : Z := round53 (a * b).

End Js.

(** ** Buffers *)

Definition Buffer := list Z.

(** [Buffer.from(s)] for a string: its bytes. *)
Definition Buffer_from (s : string) : Buffer :=
  map (fun c => Z.of_N (N_of_ascii c)) (list_ascii_of_string s).

(** [Buffer.alloc(n, 0)] *)
Definition Buffer_alloc (n : Z) : Buffer := repeat 0 (Z.to_nat n).

(** [buf[i]] read as a number by a bit operator: an index outside the buffer
    reads [undefined], which the operator turns into 0. *)
Definition Buffer_get (buf : Buffer) (i : Z) : Z :=
  if i <? 0 then 0 else nth (Z.to_nat i) buf 0.

Fixpoint replace_nth (n : nat) (buf : Buffer) (v : Z) : Buffer :=
  match buf, n with
  | [], _ => []
  | _ :: tl, O => v :: tl
  | x :: tl, S n' => x :: replace_nth n' tl v
  end.

(** [buf[i] = v]: the low eight bits of [v] are stored; a store outside the
    buffer does nothing. *)
Definition Buffer_set (buf : Buffer) (i : Z) (v : Z) : Buffer :=
  if i <? 0 then buf else replace_nth (Z.to_nat i) buf (Js.ToUint8 v).

(** Hexadecimal digits, lower case. *)
Definition hex_digit (d : Z) : ascii :=
  match d with
  | 0 => "0" | 1 => "1" | 2 => "2" | 3 => "3" | 4 => "4" | 5 => "5"
  | 6 => "6" | 7 => "7" | 8 => "8" | 9 => "9" | 10 => "a" | 11 => "b"
  | 12 => "c" | 13 => "d" | 14 => "e" | _ => "f"
  end%char.

(** [buf.toString('hex')] *)
Fixpoint Buffer_toHex (buf : Buffer) : string :=
  match buf with
  | [] => EmptyString
  | b :: tl => String (hex_digit (b / 16)) (String (hex_digit (b mod 16)) (Buffer_toHex tl))
  end.

Definition hex_value (c : ascii) : option Z :=
  let n := Z.of_N (N_of_ascii c) in
  if (48 <=? n) && (n <=? 57) then Some (n - 48)
  else if (97 <=? n) && (n <=? 102) then Some (n - 87)
  else if (65 <=? n) && (n <=? 70) then Some (n - 55)
  else None.

(** [Buffer.from(s, 'hex')]: pairs of hexadecimal digits, up to the first
    pair that is not one. *)
Fixpoint Buffer_fromHex (s : string) : Buffer :=
  match s with
  | String c1 (String c2 tl) =>
      match hex_value c1, hex_value c2 with
      | Some h, Some l => (h * 16 + l) :: Buffer_fromHex tl
      | _, _ => []
      end
  | _ => []
  end.

(** ** lib/fnv.js *)

Module FNV.

(** The state of an [FNV] object is its [hash] field. *)
Definition t := Z.

(** [constructor]: the offset basis. *)
Definition new : t := 0x811c9dc5.

(** One round of the loop of [update]. *)
Definition step (hash : t) (byte : Z) : t :=
  let hash := Js.xor hash byte in
  hash + ((((Js.shl hash 24 + Js.shl hash 8) + Js.shl hash 7) + Js.shl hash 4) + Js.shl hash 1).

(** [update(data)] for a buffer. *)
Definition update (hash : t) (data : Buffer) : t := fold_left step data hash.

(** [value()] *)
Definition value (hash : t) : Z := Js.and hash 0xffffffff.

(** [buf.writeInt32BE(v, 0)] on a buffer of four bytes. *)
Definition writeInt32BE (v : Z) : Buffer :=
  [ Z.shiftr v 24 mod 256; Z.shiftr v 16 mod 256; Z.shiftr v 8 mod 256; v mod 256 ].

(** [digest()] *)
Definition digest (hash : t) : Buffer := writeInt32BE (Js.and hash 0xffffffff).

(** [digest('hex')] *)
Definition digest_hex (hash : t) : string := Buffer_toHex (digest hash).

End FNV.

(** ** lib/bitfield.js *)

Module Bitfield.

Record t := mk { buffer : Buffer }.

(** [Math.ceil(number / 8)] for an integer [number]. *)
Definition byteLength (number : Z) : Z := - ((- number) / 8).

(** [constructor(number, buffer)]: a supplied buffer is kept only when its
    length is the byte length of [number] bits.  This is the bit field the
    constructor returns when its allocation returns; [Buffer.alloc] raises
    a RangeError for a negative or oversized length, and
    [Bitfield_constructor] below has that check. *)
Definition new (number : Z) (buffer : option Buffer) : t :=
  let size := byteLength number in
  match buffer with
  | Some b => if Z.of_nat (List.length b) =? size then mk b else mk (Buffer_alloc size)
  | None => mk (Buffer_alloc size)
  end.

(** [set(index, bool)] *)
Definition set (bf : t) (index : Z) (bool : bool) : t :=
  let pos := Js.ushr index 3 in
  if bool then
    mk (Buffer_set (buffer bf) pos
          (Js.or (Buffer_get (buffer bf) pos) (Js.shl 1 (Z.rem index 8))))
  else
    mk (Buffer_set (buffer bf) pos
          (Js.and (Buffer_get (buffer bf) pos) (Js.not (Js.shl 1 (Z.rem index 8))))).

(** [get(index)] *)
Definition get (bf : t) (index : Z) : bool :=
  negb (Js.and (Buffer_get (buffer bf) (Js.ushr index 3)) (Js.shl 1 (Z.rem index 8)) =? 0).

(** [toggle(index)] *)
Definition toggle (bf : t) (index : Z) : t :=
  let pos := Js.ushr index 3 in
  mk (Buffer_set (buffer bf) pos
        (Js.xor (Buffer_get (buffer bf) pos) (Js.shl 1 (Z.rem index 8)))).

(** [toBuffer()] *)
Definition toBuffer (bf : t) : Buffer := buffer bf.

End Bitfield.

(** ** lib/bloom.js: sizing and index derivation *)

(** [Math.ceil] *)
Definition Math_ceil (x : R) : Z := - Int_part (- x).

(** Double-precision arithmetic.  A finite double is taken as the real
    number it denotes.  An operation returns the exact result rounded to
    the nearest number with a 53-bit significand, ties to even.  The
    exponent is not bounded here: a result beyond the largest double
    ([Infinity] in the code) or below the smallest normal one is outside
    this model, and so is [NaN].  On the integers this is the rounding of
    [Js.round53] ([round53_round] below). *)
Module Double.

(** [2^e] *)
Definition pow2 (e : Z) : R := Rpower 2 (IZR e).

(** The binary exponent of a number that is not 0: [floor(log2 |x|)]. *)
Definition exponent (x : R) : Z := Int_part (ln (Rabs x) / ln 2).

(** The integer nearest to [m], the even one of two that are equally near. *)
Definition round_even (m : R) : Z :=
  let f := Int_part m in
  if Rlt_dec (m - IZR f) (1 / 2) then f
  else if Rlt_dec (1 / 2) (m - IZR f) then f + 1
  else if Z.even f then f else f + 1.

(** The double nearest to [x]: the significand of [x], scaled into
    [2^52, 2^53), is rounded to an integer. *)
Definition round (x : R) : R :=
  if Req_dec_T x 0 then 0%R
  else
    let e := exponent x in
    (IZR (round_even (x * pow2 (52 - e))) * pow2 (e - 52))%R.

(** The largest relative error of a rounding: [2^-53]. *)
Definition ulp : R := / 9007199254740992.

(** A bound on the relative error that four roundings in a row leave:
    [2^-50]. *)
Definition slack : R := / 1125899906842624.

(** [x * y] and [x / y] *)
Definition mul (x y : R) : R := round (x * y).
Definition div (x y : R) : R := round (x / y).

End Double.

(** [Math.log].  The language leaves the last bit of the result to the
    engine; it is taken here as the double nearest to the natural
    logarithm. *)
Definition Math_log (x : R) : R := Double.round (ln x).

(** The constant of [calculateSize]: the double that the literal
    [0.480453] denotes. *)
Definition log2sq : R := Double.round (480453 / 1000000).

(** [calculateSize(capacity, errorRate)] *)
Definition calculateSize (capacity errorRate : R) : Z :=
  Math_ceil (Double.div (Double.mul capacity (Math_log errorRate)) (- log2sq)).

(** [calculateSlices(size, capacity)] *)
Definition calculateSlices (size capacity : R) : R :=
  Double.mul (Double.div size capacity) (Math_log 2).

(** The inner function [fnv(seed, data)] of [calulateHashes]. *)
Definition fnv (seed data : Buffer) : Z :=
  Js.ushr (FNV.value (FNV.update (FNV.update FNV.new seed) data)) 0.

(** [(h1 + i * h2) % size], for [size] other than 0 (the remainder by 0
    is NaN). *)
Definition hash_index (h1 h2 size i : Z) : Z :=
  Z.rem (Js.add h1 (Js.mul i h2)) size.

(** The loop [for (let i = 0; i < slices; i++) hashes.push(...)], from
    counter [i] and with the array [hashes] built so far.  [fuel] bounds the
    number of tests of the loop condition; [None] when it runs out. *)
Fixpoint hashes_loop (fuel : nat) (h1 h2 size : Z) (slices : R)
    (i : Z) (hashes : list Z) : option (list Z) :=
  match fuel with
  | O => None
  | S fuel' =>
      if Rlt_dec (IZR i) slices
      then hashes_loop fuel' h1 h2 size slices (i + 1)
             (hashes ++ [hash_index h1 h2 size i])
      else Some hashes
  end.

Definition calulateHashes_fuel (fuel : nat) (key : Buffer) (size : Z) (slices : R)
    : option (list Z) :=
  let h1 := fnv (Buffer_from "S") key in
  let h2 := fnv (Buffer_from "W") key in
  hashes_loop fuel h1 h2 size slices 0 [].

(** [calulateHashes(key, size, slices)], run with fuel for every test the
    loop makes ([calulateHashes_fuel_enough] below). *)
Definition calulateHashes (key : Buffer) (size : Z) (slices : R) : list Z :=
  match calulateHashes_fuel (S (Z.to_nat (Math_ceil slices))) key size slices with
  | Some hashes => hashes
  | None => []
  end.

(** ** lib/bloom.js: BloomFilter *)

Module BloomFilter.

Record t := mk { size : Z; slices : R; bitfield : Bitfield.t }.

(** [constructor(size = 16, slices = 2, buffer)] *)
Definition new (size : option Z) (slices : option R) (buffer : option Buffer) : t :=
  let size := match size with Some s => s | None => 16 end in
  let slices := match slices with Some s => s | None => 2%R end in
  mk size slices (Bitfield.new size buffer).

(** The loop of [add]: [this.bitfield.set(hashes[i], true)] for every [i]. *)
Definition add_loop (b : Bitfield.t) (hashes : list Z) : Bitfield.t :=
  fold_left (fun b h => Bitfield.set b h true) hashes b.

(** [add(key)] *)
Definition add (f : t) (key : Buffer) : t :=
  let hashes := calulateHashes key (size f) (slices f) in
  mk (size f) (slices f) (add_loop (bitfield f) hashes).

Fixpoint has_loop (b : Bitfield.t) (hashes : list Z) : bool :=
  match hashes with
  | [] => true
  | h :: tl => if negb (Bitfield.get b h) then false else has_loop b tl
  end.

(** [has(key)] *)
Definition has (f : t) (key : Buffer) : bool :=
  has_loop (bitfield f) (calulateHashes key (size f) (slices f)).

(** What [JSON.parse(JSON.stringify(filter))] holds: the fields, the
    buffer as its array of bytes. *)
Record data := mkData { data_size : Z; data_slices : R; data_bitfield_buffer : list Z }.

Definition toJSON (f : t) : data :=
  mkData (size f) (slices f) (Bitfield.buffer (bitfield f)).

(** [Buffer.from(array)]: each entry is stored as a byte. *)
Definition Buffer_from_array (l : list Z) : Buffer := map Js.ToUint8 l.

(** [destringify(data)] *)
Definition destringify (d : data) : t :=
  let filter := new (Some (data_size d)) (Some (data_slices d)) None in
  mk (size filter) (slices filter)
     (Bitfield.mk (Buffer_from_array (data_bitfield_buffer d))).

End BloomFilter.

(** ** lib/bloom.js: SafeBloomFilter *)

Module SafeBloomFilter.

Record t := mk { capacity : R; errorRate : R; count : Z; filter : BloomFilter.t }.

(** [constructor(capacity = 20, errorRate = 0.1, buffer)] *)
Definition new (capacity errorRate : option R) (buffer : option Buffer) : t :=
  let capacity := match capacity with Some c => c | None => 20%R end in
  let errorRate := match errorRate with Some e => e | None => (1 / 10)%R end in
  let size := calculateSize capacity errorRate in
  let slices := calculateSlices (IZR size) capacity in
  mk capacity errorRate 0 (BloomFilter.new (Some size) (Some slices) buffer).

(** [add(key)]: the new state and the returned boolean. *)
Definition add (f : t) (key : Buffer) : t * bool :=
  if Rge_dec (IZR (count f)) (capacity f) then (f, false)
  else (mk (capacity f) (errorRate f) (count f + 1) (BloomFilter.add (filter f) key), true).

(** [has(key)] *)
Definition has (f : t) (key : Buffer) : bool := BloomFilter.has (filter f) key.

Record data := mkData {
  data_capacity : R; data_errorRate : R; data_count : Z;
  data_filter : BloomFilter.data }.

Definition toJSON (f : t) : data :=
  mkData (capacity f) (errorRate f) (count f) (BloomFilter.toJSON (filter f)).

(** [destringify(data)] *)
Definition destringify (d : data) : t :=
  let filter := new (Some (data_capacity d)) (Some (data_errorRate d)) None in
  mk (capacity filter) (errorRate filter) (data_count d)
     (BloomFilter.mk (BloomFilter.size (SafeBloomFilter.filter filter))
        (BloomFilter.slices (SafeBloomFilter.filter filter))
        (Bitfield.mk (BloomFilter.Buffer_from_array
           (BloomFilter.data_bitfield_buffer (data_filter d))))).

End SafeBloomFilter.

(** ** Completions of calls that can raise *)

Inductive JsError := TypeError.

(** A call ends by returning a value or by raising an error; in both cases
    it leaves the object in a state [S]. *)
Inductive completion (S V : Type) :=
  | Return (s : S) (v : V)
  | Throw (s : S) (e : JsError).
Arguments Return {S V} s v.
Arguments Throw {S V} s e.

(** The state a call leaves, returned or raised. *)
Definition state_of {S V} (c : completion S V) : S :=
  match c with Return s _ => s | Throw s _ => s end.

(** ** lib/bloom.js: ScalingBloomFilter *)

Module ScalingBloomFilter.

Record t := mk {
  errorRate : R; ratio : R; scaling : R; initialCapacity : R;
  filters : list SafeBloomFilter.t }.

Record options := mkOptions {
  opt_ratio : option R; opt_scaling : option R; opt_initialCapacity : option R }.

(** [x || d]: [d] when [x] is missing or 0. *)
Definition or_default (x : option R) (d : R) : R :=
  match x with
  | Some v => if Req_dec_T v 0 then d else v
  | None => d
  end.

(** [constructor(errorRate = 0.1, options)] *)
Definition new (errorRate : option R) (opts : option options) : t :=
  let opts := match opts with Some o => o | None => mkOptions None None None end in
  let errorRate := match errorRate with Some e => e | None => (1 / 10)%R end in
  let ratio := or_default (opt_ratio opts) (9 / 10)%R in
  let scaling := or_default (opt_scaling opts) 2%R in
  let initialCapacity := or_default (opt_initialCapacity opts) 1000%R in
  mk errorRate ratio scaling initialCapacity
     [SafeBloomFilter.new (Some initialCapacity) (Some (errorRate * (1 - ratio))%R) None].

(** What a call of [add] returns. *)
Inductive returned := undefined | this.

(** [this.filters.slice(-1)[0]] *)
Definition tail (l : list SafeBloomFilter.t) : option SafeBloomFilter.t :=
  match rev l with
  | [] => None
  | f :: _ => Some f
  end.

(** [add(key)].  With no sub-filter at all the tail is [undefined] and the
    call of its [add] raises. *)
Definition add (s : t) (key : Buffer) : completion t returned :=
  match tail (filters s) with
  | None => Throw s TypeError
  | Some f =>
      let (f', wasAdded) := SafeBloomFilter.add f key in
      if wasAdded then
        Return (mk (errorRate s) (ratio s) (scaling s) (initialCapacity s)
                   (removelast (filters s) ++ [f']))
               undefined
      else
        let g := SafeBloomFilter.new
                   (Some (SafeBloomFilter.capacity f * scaling s)%R)
                   (Some (SafeBloomFilter.errorRate f * ratio s)%R) None in
        let g' := fst (SafeBloomFilter.add g key) in
        Return (mk (errorRate s) (ratio s) (scaling s) (initialCapacity s)
                   (filters s ++ [g']))
               this
  end.

(** The loop of [has], over the sub-filters from the last to the first. *)
Fixpoint has_loop (rev_filters : list SafeBloomFilter.t) (key : Buffer) : bool :=
  match rev_filters with
  | [] => false
  | f :: tl => if SafeBloomFilter.has f key then true else has_loop tl key
  end.

(** [has(key)] *)
Definition has (s : t) (key : Buffer) : bool := has_loop (rev (filters s)) key.

Record data := mkData {
  data_errorRate : R; data_ratio : R; data_scaling : R; data_initialCapacity : R;
  data_filters : list SafeBloomFilter.data }.

Definition toJSON (s : t) : data :=
  mkData (errorRate s) (ratio s) (scaling s) (initialCapacity s)
         (map SafeBloomFilter.toJSON (filters s)).

(** [destringify(data)] *)
Definition destringify (d : data) : t :=
  let filter := new (Some (data_errorRate d))
                    (Some (mkOptions (Some (data_ratio d)) (Some (data_scaling d))
                                     (Some (data_initialCapacity d)))) in
  mk (errorRate filter) (ratio filter) (scaling filter) (initialCapacity filter)
     (fold_left (fun acc x => acc ++ [SafeBloomFilter.destringify x]) (data_filters d) []).

End ScalingBloomFilter.

(** ** lib/bloom.js: AttenuatedBloomFilter *)

Module AttenuatedBloomFilter.

(** The array of level filters with its two fields. *)
Record t := mk { bitfieldSize : Z; filterDepth : Z; levels : list BloomFilter.t }.

Record options := mkOptions { opt_bitfieldSize : option Z; opt_filterDepth : option Z }.

(** [x || d]: [d] when [x] is missing or 0. *)
Definition or_default (x : option Z) (d : Z) : Z :=
  match x with
  | Some v => if v =? 0 then d else v
  | None => d
  end.

(** [constructor(options = {})] *)
Definition new (opts : option options) : t :=
  let opts := match opts with Some o => o | None => mkOptions None None end in
  let bitfieldSize := or_default (opt_bitfieldSize opts) 160 in
  let filterDepth := or_default (opt_filterDepth opts) 3 in
  mk bitfieldSize filterDepth
     (repeat (BloomFilter.new (Some bitfieldSize) (Some 2%R) None) (Z.to_nat filterDepth)).

(** [this[i].add(key)]: the callers add to a level through the array.  (On
    an index without a level the call raises; here it changes nothing.) *)
Fixpoint add_at (ls : list BloomFilter.t) (i : nat) (key : Buffer) : list BloomFilter.t :=
  match ls, i with
  | [], _ => []
  | f :: tl, O => BloomFilter.add f key :: tl
  | f :: tl, S i' => f :: add_at tl i' key
  end.

Definition level_add (a : t) (i : nat) (key : Buffer) : t :=
  mk (bitfieldSize a) (filterDepth a) (add_at (levels a) i key).

(** [this[i].has(key)], [false] where the source raises for want of a level. *)
Definition level_has (a : t) (i : nat) (key : Buffer) : bool :=
  match nth_error (levels a) i with
  | Some f => BloomFilter.has f key
  | None => false
  end.

(** [toHexArray()] *)
Definition toHexArray (a : t) : list string :=
  map (fun bloomFilter => Buffer_toHex (Bitfield.toBuffer (BloomFilter.bitfield bloomFilter)))
      (levels a).

(** The inner loop of [merge]:
    [localFilterBuffer[bytePos] = localFilterBuffer[bytePos] | byteValue]
    for the foreign bytes from position [bytePos] on. *)
Fixpoint or_bytes (localFilterBuffer : Buffer) (bytePos : Z) (foreignFilterBytes : list Z)
    : Buffer :=
  match foreignFilterBytes with
  | [] => localFilterBuffer
  | byteValue :: tl =>
      or_bytes
        (Buffer_set localFilterBuffer bytePos
           (Js.or (Buffer_get localFilterBuffer bytePos) byteValue))
        (bytePos + 1) tl
  end.

(** The outer loop of [merge] over the local filters from [localIndex] on:
    the filters it leaves and the error it raised, if any.  Reading
    [foreignFilter.bitfield] of a missing foreign filter raises before the
    test [!foreignFilters[localIndex - 1]] is reached.  The foreign set is
    another object than the local one. *)
Fixpoint merge_loop (localIndex : nat) (locals foreignFilters : list BloomFilter.t)
    : list BloomFilter.t * option JsError :=
  match locals with
  | [] => ([], None)
  | localFilter :: rest =>
      match localIndex with
      | O =>
          let (rest', e) := merge_loop 1 rest foreignFilters in
          (localFilter :: rest', e)
      | S j =>
          match nth_error foreignFilters j with
          | None => (locals, Some TypeError)
          | Some foreignFilter =>
              let foreignFilterBytes := Bitfield.buffer (BloomFilter.bitfield foreignFilter) in
              let localFilterBuffer := Bitfield.buffer (BloomFilter.bitfield localFilter) in
              match nth_error foreignFilters j with
              | None => (locals, None)
              | Some _ =>
                  let localFilter' :=
                    BloomFilter.mk (BloomFilter.size localFilter) (BloomFilter.slices localFilter)
                      (Bitfield.mk (or_bytes localFilterBuffer 0 foreignFilterBytes)) in
                  let (rest', e) := merge_loop (S localIndex) rest foreignFilters in
                  (localFilter' :: rest', e)
              end
          end
      end
  end.

(** [merge(foreignFilters)]: returns [this], or raises. *)
Definition merge (a foreignFilters : t) : completion t unit :=
  match merge_loop 0 (levels a) (levels foreignFilters) with
  | (ls, None) => Return (mk (bitfieldSize a) (filterDepth a) ls) tt
  | (ls, Some e) => Throw (mk (bitfieldSize a) (filterDepth a) ls) e
  end.

(** The [forEach] of [from]: the buffer of level [i] becomes the bytes of
    the [i]-th string. *)
Fixpoint set_buffers (filters : list BloomFilter.t) (hexFilters : list string)
    : list BloomFilter.t :=
  match filters, hexFilters with
  | f :: fs, hexString :: hs =>
      BloomFilter.mk (BloomFilter.size f) (BloomFilter.slices f)
        (Bitfield.mk (Buffer_fromHex hexString)) :: set_buffers fs hs
  | fs, _ => fs
  end.

(** [from(hexFilters)]; [None] when it raises: [Buffer.from(undefined, 'hex')]
    on an empty array is a TypeError. *)
Definition from (hexFilters : list string) : option t :=
  match hexFilters with
  | [] => None
  | first :: _ =>
      let filters :=
        new (Some (mkOptions
                     (Some (Z.of_nat (List.length (Buffer_fromHex first)) * 8))
                     (Some (Z.of_nat (List.length hexFilters))))) in
      Some (mk (bitfieldSize filters) (filterDepth filters)
               (set_buffers (levels filters) hexFilters))
  end.

End AttenuatedBloomFilter.

(** ** Auxiliary definitions of the properties *)

(** The indices of [calulateHashes] for a whole number [n] of rounds of its
    loop. *)
Definition hash_indices (key : Buffer) (size : Z) (n : nat) : list Z :=
  map (fun j => hash_index (fnv (Buffer_from "S") key) (fnv (Buffer_from "W") key)
                  size (Z.of_nat j))
      (seq 0 n).

(** The unsigned 32-bit value of an FNV object fed [bytes] in one update. *)
Definition FNV_uint32 (bytes : Buffer) : Z :=
  Js.ToUint32 (FNV.value (FNV.update FNV.new bytes)).

(** Every entry of a buffer is a byte. *)
Definition Buffer_ok (buf : Buffer) : Prop := Forall (fun b => 0 <= b < 256) buf.

(** A filter as the constructor leaves it and [add] keeps it: at least one
    bit, and a buffer of the byte length of its size. *)
Definition BloomFilter_wf (f : BloomFilter.t) : Prop :=
  1 <= BloomFilter.size f /\
  Z.of_nat (List.length (Bitfield.buffer (BloomFilter.bitfield f)))
  = Bitfield.byteLength (BloomFilter.size f).

(** A bounded filter whose own filter is as its constructor sized it. *)
Definition SafeBloomFilter_wf (f : SafeBloomFilter.t) : Prop :=
  BloomFilter_wf (SafeBloomFilter.filter f).

(** A scaling filter with at least one sub-filter, a growing capacity and
    error rates that stay strictly between 0 and 1. *)
Definition ScalingBloomFilter_wf (s : ScalingBloomFilter.t) : Prop :=
  ScalingBloomFilter.filters s <> [] /\
  (0 < ScalingBloomFilter.scaling s)%R /\
  (0 < ScalingBloomFilter.ratio s <= 1)%R /\
  Forall (fun f => (0 < SafeBloomFilter.capacity f)%R /\
                   (0 < SafeBloomFilter.errorRate f < 1)%R /\
                   SafeBloomFilter_wf f)
         (ScalingBloomFilter.filters s).

Definition AttenuatedBloomFilter_wf (a : AttenuatedBloomFilter.t) : Prop :=
  Forall BloomFilter_wf (AttenuatedBloomFilter.levels a).

(** Sequences of [add] calls, each on the state the previous one left. *)
Definition BloomFilter_adds (f : BloomFilter.t) (keys : list Buffer) : BloomFilter.t :=
  fold_left BloomFilter.add keys f.

Definition SafeBloomFilter_adds (f : SafeBloomFilter.t) (keys : list Buffer)
    : SafeBloomFilter.t :=
  fold_left (fun g key => fst (SafeBloomFilter.add g key)) keys f.

Definition ScalingBloomFilter_adds (s : ScalingBloomFilter.t) (keys : list Buffer)
    : ScalingBloomFilter.t :=
  fold_left (fun g key => state_of (ScalingBloomFilter.add g key)) keys s.

Definition AttenuatedBloomFilter_adds (a : AttenuatedBloomFilter.t)
    (calls : list (nat * Buffer)) : AttenuatedBloomFilter.t :=
  fold_left (fun b call => AttenuatedBloomFilter.level_add b (fst call) (snd call)) calls a.

(** The size formula in the words of the specification:
    [ceil(capacity * ln(errorRate) / -(ln 2)^2)], with the exact square. *)
Definition sizeForCapacity (capacity errorRate : R) : Z :=
  Math_ceil (capacity * ln errorRate / - (ln 2 * ln 2)).

(** A chain [p, q1, q2, ...] of numerators over a common denominator [D]
    in which the square of each fraction is at most the fraction before it:
    successive lower bounds of square roots. *)
Fixpoint sqrt_chain_ok (D p : Z) (l : list Z) : bool :=
  match l with
  | [] => true
  | q :: tl => (0 <? q) && (q * q <=? p * D) && sqrt_chain_ok D q tl
  end.

(** A chain in which the square of each fraction is at least the fraction
    before it: successive upper bounds of square roots. *)
Fixpoint sqrt_chain_above (D p : Z) (l : list Z) : bool :=
  match l with
  | [] => true
  | q :: tl => (0 <? q) && (p * D <=? q * q) && sqrt_chain_above D q tl
  end.

(** Lower bounds of the square roots of 2 iterated seventy times, over the
    denominator 10^52. *)
Definition sqrt2_below : list Z :=
  [ 14142135623730950488016887242096980785696718753769480;
    11892071150027210667174999705604759152929720924638173;
    10905077326652576592070106557607079789927027185400670;
    10442737824274138403219664787399290087846031296627132;
    10218971486541166782344801347832994397821404024486080;
    10108892860517004600204097905618605243881376678100499;
    10054299011128028213513839559347998147001084469362531;
    10027112750502024854307455884503620404730044238327596;
    10013547198921082058808815267840949473485306596662411;
    10006771306930663566781727848746471948378219842487376;
    10003385080526823129533054818562164040355585206751762;
    10001692397053022310836407580640735025136671793421834;
    10000846162726943132026333307835912254522374288790575;
    10000423072413958193392519088640529282937840441991927;
    10000211533969648080942498073331996562980602425520875;
    10000105766425497202348486284205645317969471154797807;
    10000052883072917631113668674642409094434692025707412;
    10000026441501501165475027533852261741027395384320665;
    10000013220742011181771202435702836050274107775676827;
    10000006610368820742088289260502489013734510130561972;
    10000003305183864159025349770924440260858530234881597;
    10000001652591795526530542805355470566035368192921808;
    10000000826295863625022559211583769929936630821530129;
    10000000413147923277950954161609490328414942815985911;
    10000000206573959505335439795206440245817777369706169;
    10000000103286979219257716085634456026722759399565051;
    10000000051643489476276357778503882281979962653238038;
    10000000025821744704800053909258459980727063456279532;
    10000000012910872344065495720391466585058062965007659;
    10000000006455436169949115052981368300278162892441467;
    10000000003227718084453649324855227384365830749678692;
    10000000001613859042096597612039766311019850327446119;
    10000000000806929521015742043425548411503818875240790;
    10000000000403464760499731831064518907410942175922038;
    10000000000201732380247831117870236677577797737198672;
    10000000000100866190123406859519617775814176498420246;
    10000000000050433095061576254905934388545557146943582;
    10000000000025216547530756333739498649605164483836140;
    10000000000012608273765370218441382198657274805228418;
    10000000000006304136882683122113599319045010054155321;
    10000000000003152068441341064280026714608185628802043;
    10000000000001576034220670407945820121095086394686999;
    10000000000000788017110335172924361751497738271146854;
    10000000000000394008555167578700043798486723738865748;
    10000000000000197004277583787409487629927863749611139;
    10000000000000098502138791893219610247635062123519534;
    10000000000000049251069395946488521731985314221271932;
    10000000000000024625534697973213940018034602975180716;
    10000000000000012312767348986599389797027787963059884;
    10000000000000006156383674493297799845516515601563990;
    10000000000000003078191837246648426159508913205936340;
    10000000000000001539095918623324094638942120454274985;
    10000000000000000769547959311662017709267976189966475;
    10000000000000000384773979655831001452083217085690767;
    10000000000000000192386989827915498875403915790522301;
    10000000000000000096193494913957748975042534707180384;
    10000000000000000048096747456978874371856411556570001;
    10000000000000000024048373728489437157011991829029952;
    10000000000000000012024186864244718571276942427201214;
    10000000000000000006012093432122359283831207841772166;
    10000000000000000003006046716061179641463788077928972;
    10000000000000000001503023358030589820618940078225208;
    10000000000000000000751511679015294910281231548927784;
    10000000000000000000375755839507647455133556151917687;
    10000000000000000000187877919753823727565013170322292;
    10000000000000000000093938959876911863782065358752008;
    10000000000000000000046969479938455931890922372773719;
    10000000000000000000023484739969227965945433609736288;
    10000000000000000000011742369984613982972709910705501;
    10000000000000000000005871184992306991486353231812089 ].

(** Upper bounds of the same square roots. *)
Definition sqrt2_above : list Z :=
  [ 14142135623730950488016887242096980785696718753769481;
    11892071150027210667174999705604759152929720924638175;
    10905077326652576592070106557607079789927027185400672;
    10442737824274138403219664787399290087846031296627134;
    10218971486541166782344801347832994397821404024486082;
    10108892860517004600204097905618605243881376678100501;
    10054299011128028213513839559347998147001084469362533;
    10027112750502024854307455884503620404730044238327598;
    10013547198921082058808815267840949473485306596662413;
    10006771306930663566781727848746471948378219842487378;
    10003385080526823129533054818562164040355585206751764;
    10001692397053022310836407580640735025136671793421836;
    10000846162726943132026333307835912254522374288790577;
    10000423072413958193392519088640529282937840441991929;
    10000211533969648080942498073331996562980602425520877;
    10000105766425497202348486284205645317969471154797809;
    10000052883072917631113668674642409094434692025707414;
    10000026441501501165475027533852261741027395384320667;
    10000013220742011181771202435702836050274107775676829;
    10000006610368820742088289260502489013734510130561974;
    10000003305183864159025349770924440260858530234881599;
    10000001652591795526530542805355470566035368192921810;
    10000000826295863625022559211583769929936630821530131;
    10000000413147923277950954161609490328414942815985913;
    10000000206573959505335439795206440245817777369706171;
    10000000103286979219257716085634456026722759399565053;
    10000000051643489476276357778503882281979962653238040;
    10000000025821744704800053909258459980727063456279534;
    10000000012910872344065495720391466585058062965007661;
    10000000006455436169949115052981368300278162892441469;
    10000000003227718084453649324855227384365830749678694;
    10000000001613859042096597612039766311019850327446121;
    10000000000806929521015742043425548411503818875240792;
    10000000000403464760499731831064518907410942175922040;
    10000000000201732380247831117870236677577797737198674;
    10000000000100866190123406859519617775814176498420248;
    10000000000050433095061576254905934388545557146943584;
    10000000000025216547530756333739498649605164483836142;
    10000000000012608273765370218441382198657274805228420;
    10000000000006304136882683122113599319045010054155323;
    10000000000003152068441341064280026714608185628802045;
    10000000000001576034220670407945820121095086394687001;
    10000000000000788017110335172924361751497738271146856;
    10000000000000394008555167578700043798486723738865750;
    10000000000000197004277583787409487629927863749611141;
    10000000000000098502138791893219610247635062123519536;
    10000000000000049251069395946488521731985314221271934;
    10000000000000024625534697973213940018034602975180718;
    10000000000000012312767348986599389797027787963059886;
    10000000000000006156383674493297799845516515601563992;
    10000000000000003078191837246648426159508913205936342;
    10000000000000001539095918623324094638942120454274987;
    10000000000000000769547959311662017709267976189966477;
    10000000000000000384773979655831001452083217085690769;
    10000000000000000192386989827915498875403915790522303;
    10000000000000000096193494913957748975042534707180386;
    10000000000000000048096747456978874371856411556570003;
    10000000000000000024048373728489437157011991829029954;
    10000000000000000012024186864244718571276942427201216;
    10000000000000000006012093432122359283831207841772168;
    10000000000000000003006046716061179641463788077928974;
    10000000000000000001503023358030589820618940078225210;
    10000000000000000000751511679015294910281231548927786;
    10000000000000000000375755839507647455133556151917689;
    10000000000000000000187877919753823727565013170322294;
    10000000000000000000093938959876911863782065358752010;
    10000000000000000000046969479938455931890922372773721;
    10000000000000000000023484739969227965945433609736290;
    10000000000000000000011742369984613982972709910705503;
    10000000000000000000005871184992306991486353231812091 ].

(** A check on integers that [n * 2^(e - 52)] is the double nearest to the
    fraction [p / q]: scaled by [2^(52 - e)], the fraction lies in
    [2^52, 2^53) and within less than a half of [n]. *)
Definition round_check (p q e n : Z) : bool :=
  let a := p * 2 ^ Z.max 0 (52 - e) in
  let b := q * 2 ^ Z.max 0 (e - 52) in
  (0 <? q) && (2 ^ 52 * b <=? a) && (a <? 2 ^ 53 * b) && (Z.abs (2 * (n * b - a)) <? b).

(** A bounded filter whose own filter has the size and the slice count its
    constructor computes from the capacity and the error rate. *)
Definition SafeBloomFilter_sized (f : SafeBloomFilter.t) : Prop :=
  BloomFilter.size (SafeBloomFilter.filter f)
  = calculateSize (SafeBloomFilter.capacity f) (SafeBloomFilter.errorRate f) /\
  BloomFilter.slices (SafeBloomFilter.filter f)
  = calculateSlices
      (IZR (calculateSize (SafeBloomFilter.capacity f) (SafeBloomFilter.errorRate f)))
      (SafeBloomFilter.capacity f).

Definition BloomFilter_buffer (f : BloomFilter.t) : Buffer :=
  Bitfield.buffer (BloomFilter.bitfield f).

(** An attenuated filter as its constructor builds it and [add] on a level
    and [merge] keep it: [filterDepth] levels of [bitfieldSize] bits and two
    slices each. *)
Definition AttenuatedBloomFilter_built (a : AttenuatedBloomFilter.t) : Prop :=
  AttenuatedBloomFilter.filterDepth a
  = Z.of_nat (List.length (AttenuatedBloomFilter.levels a)) /\
  Forall (fun f =>
            BloomFilter.size f = AttenuatedBloomFilter.bitfieldSize a /\
            BloomFilter.slices f = 2%R /\
            Z.of_nat (List.length (BloomFilter_buffer f))
            = Bitfield.byteLength (AttenuatedBloomFilter.bitfieldSize a) /\
            Buffer_ok (BloomFilter_buffer f))
         (AttenuatedBloomFilter.levels a).

(** The FNV-1a hash of 32 bits in its arithmetic form: from the offset
    basis, each byte is xored in and the result multiplied by the FNV prime
    modulo 2^32. *)
Definition FNV_prime : Z := 16777619.

Definition FNV1a_32 (bytes : list Z) : Z :=
  fold_left (fun h b => (Z.lxor h b * FNV_prime) mod 2 ^ 32) bytes 2166136261.

(** What [merge] makes of a local level and the foreign level before it. *)
Definition merged (localFilter foreignFilter : BloomFilter.t) : BloomFilter.t :=
  BloomFilter.mk (BloomFilter.size localFilter) (BloomFilter.slices localFilter)
    (Bitfield.mk (AttenuatedBloomFilter.or_bytes (BloomFilter_buffer localFilter) 0
                    (BloomFilter_buffer foreignFilter))).

(** ** lib/bitfield.js: the allocation of the buffer *)

(** What an allocation ends in: the new object, or a RangeError. *)
Inductive allocation (A : Type) :=
  | Allocated (a : A)
  | RangeError.
Arguments Allocated {A} a.
Arguments RangeError {A}.

(** [Buffer.alloc(size, 0)] with its size check: a RangeError unless
    [0 <= size <= kMaxLength], where [kMaxLength] is the largest length of
    a [Buffer] on the platform ([buffer.constants.MAX_LENGTH]); it is a
    parameter here. *)
Definition Buffer_alloc_checked (kMaxLength size : Z) : allocation Buffer :=
  if (0 <=? size) && (size <=? kMaxLength) then Allocated (Buffer_alloc size)
  else RangeError.

(** The constructor of [Bitfield] with the check of its allocation.  A
    supplied buffer of the right length is taken without any allocation.
    When the constructor returns, it returns [Bitfield.new number buffer]. *)
Definition Bitfield_constructor (kMaxLength number : Z) (buffer : option Buffer)
    : allocation Bitfield.t :=
  let size := Bitfield.byteLength number in
  let alloc :=
    match Buffer_alloc_checked kMaxLength size with
    | Allocated b => Allocated (Bitfield.mk b)
    | RangeError => RangeError
    end in
  match buffer with
  | Some b => if Z.of_nat (List.length b) =? size then Allocated (Bitfield.mk b) else alloc
  | None => alloc
  end.

(** A bit field of [number] bits can be allocated. *)
Definition Bitfield_allocates (kMaxLength number : Z) : Prop :=
  0 <= Bitfield.byteLength number <= kMaxLength.

(** ** lib/fnv.js: the arguments of [update] and the stream methods *)

(** The values [update] tells apart: a string, a [Buffer], anything else. *)
Inductive JsValue :=
  | JsString (s : string)
  | JsBuffer (b : Buffer)
  | JsOther.

(** The encodings of a string used here; a missing encoding is UTF-8. *)
Inductive Encoding := utf8 | hex.

(** [Buffer.from(s, encoding)] *)
Definition Buffer_from_encoded (s : string) (encoding : option Encoding) : Buffer :=
  match encoding with
  | Some hex => Buffer_fromHex s
  | _ => Buffer_from s
  end.

(** [update(data, encoding)]: a string is turned into its bytes, a value
    that is neither a string nor a [Buffer] raises a TypeError before the hash
    is touched. *)
Definition FNV_update (hash : FNV.t) (data : JsValue) (encoding : option Encoding)
    : completion FNV.t unit :=
  match data with
  | JsString s => Return (FNV.update hash (Buffer_from_encoded s encoding)) tt
  | JsBuffer b => Return (FNV.update hash b) tt
  | JsOther => Throw hash TypeError
  end.

(** The encoding a stream hands to [_transform]: ['buffer'] for a [Buffer]
    chunk, else the encoding of the string. *)
Inductive ChunkEncoding := buffer_chunk | string_chunk (e : Encoding).

(** [_transform(data, encoding, callback)]: the hash it leaves and the
    argument it gives to [callback] ([None] for [null]). *)
Definition FNV_transform (hash : FNV.t) (data : JsValue) (encoding : ChunkEncoding)
    : FNV.t * option JsError :=
  match FNV_update hash data
          (match encoding with buffer_chunk => None | string_chunk e => Some e end) with
  | Return h _ => (h, None)
  | Throw h e => (h, Some e)
  end.

(** [_flush(callback)]: the value given to [callback] after [null]. *)
Definition FNV_flush (hash : FNV.t) : Buffer := FNV.digest hash.

(** Successive [_transform] calls, one for each chunk written: the hash
    they leave and the arguments given to the callbacks. *)
Fixpoint FNV_transforms (hash : FNV.t) (chunks : list (JsValue * ChunkEncoding))
    : FNV.t * list (option JsError) :=
  match chunks with
  | [] => (hash, [])
  | (data, encoding) :: tl =>
      let (h, r) := FNV_transform hash data encoding in
      let (h', rs) := FNV_transforms h tl in
      (h', r :: rs)
  end.

(** The bytes [update] hashes for a chunk, if it takes it. *)
Definition chunk_bytes (chunk : JsValue * ChunkEncoding) : option Buffer :=
  match chunk with
  | (JsString s, string_chunk e) => Some (Buffer_from_encoded s (Some e))
  | (JsString s, buffer_chunk) => Some (Buffer_from s)
  | (JsBuffer b, _) => Some b
  | (JsOther, _) => None
  end.

(** The bit that index [h] sets in byte [p], and the bits a list of indices
    sets there. *)
Definition index_bit (h p : Z) : Z :=
  if Js.ushr h 3 =? p then 2 ^ (h mod 8) else 0.

Fixpoint index_mask (hashes : list Z) (p : Z) : Z :=
  match hashes with
  | [] => 0
  | h :: tl => Z.lor (index_bit h p) (index_mask tl p)
  end.

(** A sequence of [add] calls on a bounded filter: the state it leaves and
    the booleans returned, in order. *)
Fixpoint SafeBloomFilter_run (f : SafeBloomFilter.t) (keys : list Buffer)
    : SafeBloomFilter.t * list bool :=
  match keys with
  | [] => (f, [])
  | key :: tl =>
      let (f', wasAdded) := SafeBloomFilter.add f key in
      let (f'', rest) := SafeBloomFilter_run f' tl in
      (f'', wasAdded :: rest)
  end.



(** [toString()]: the array of [toHexArray()] as a string, its entries
    joined by commas. *)
Definition AttenuatedBloomFilter_toString (a : AttenuatedBloomFilter.t) : string :=
  String.concat "," (AttenuatedBloomFilter.toHexArray a).

(** A level keeps its shape: size, slice count and buffer length. *)
Definition same_shape (l l' : BloomFilter.t) : Prop :=
  BloomFilter.size l' = BloomFilter.size l /\
  BloomFilter.slices l' = BloomFilter.slices l /\
  List.length (BloomFilter_buffer l') = List.length (BloomFilter_buffer l).

(** Lower-case hexadecimal digits, and strings of pairs of them. *)
Definition is_hex_digit (c : ascii) : bool :=
  let n := Z.of_N (N_of_ascii c) in
  ((48 <=? n) && (n <=? 57)) || ((97 <=? n) && (n <=? 102)).

Fixpoint is_hex_string (s : string) : bool :=
  match s with
  | EmptyString => true
  | String c1 (String c2 tl) => is_hex_digit c1 && is_hex_digit c2 && is_hex_string tl
  | String _ EmptyString => false
  end.

(** * Properties *)

(** ** The FNV test vectors *)

Lemma FNV_update_app (h : FNV.t) (a b : Buffer) :
  FNV.update (FNV.update h a) b = FNV.update h (a ++ b).
Proof. unfold FNV.update. now rewrite fold_left_app. Qed.

(** C8: the digest of the empty input is 811c9dc5, of "foobar" bf9cf968, of
    "a" e40c292c, and updating with "foo" and then "bar" gives the digest of
    one update with "foobar". *)
Theorem FNV_digest_vectors :
  FNV.digest_hex FNV.new = "811c9dc5"%string /\
  FNV.digest_hex (FNV.update FNV.new (Buffer_from "")) = "811c9dc5"%string /\
  FNV.digest_hex (FNV.update FNV.new (Buffer_from "foobar")) = "bf9cf968"%string /\
  FNV.digest_hex (FNV.update FNV.new (Buffer_from "a")) = "e40c292c"%string /\
  FNV.digest_hex (FNV.update (FNV.update FNV.new (Buffer_from "foo")) (Buffer_from "bar"))
    = FNV.digest_hex (FNV.update FNV.new (Buffer_from "foobar")) /\
  FNV.digest_hex (FNV.update (FNV.update FNV.new (Buffer_from "foo")) (Buffer_from "bar"))
    = "bf9cf968"%string.
Proof. repeat split; vm_compute; reflexivity. Qed.

(** ** Facts about the number conversions *)

Section JsFacts.

Lemma ToInt32_small (x : Z) : - 2 ^ 31 <= x < 2 ^ 31 -> Js.ToInt32 x = x.
Proof.
  intros H. unfold Js.ToInt32. rewrite Z.mod_small; lia.
Qed.

Lemma ToInt32_range (x : Z) : - 2 ^ 31 <= Js.ToInt32 x < 2 ^ 31.
Proof.
  unfold Js.ToInt32.
  pose proof (Z.mod_pos_bound (x + 2 ^ 31) (2 ^ 32) ltac:(lia)). lia.
Qed.

Lemma ToInt32_mod (x : Z) : Js.ToInt32 x mod 2 ^ 32 = x mod 2 ^ 32.
Proof.
  unfold Js.ToInt32.
  rewrite Zminus_mod, Z.mod_mod by lia.
  rewrite <- Zminus_mod. f_equal. lia.
Qed.

Lemma ToInt32_testbit (x i : Z) :
  0 <= i < 32 -> Z.testbit (Js.ToInt32 x) i = Z.testbit x i.
Proof.
  intros Hi.
  rewrite <- (Z.mod_pow2_bits_low (Js.ToInt32 x) 32 i) by lia.
  rewrite ToInt32_mod. apply Z.mod_pow2_bits_low. lia.
Qed.

Lemma shl_1 (b : Z) : 0 <= b < 8 -> Js.shl 1 b = 2 ^ b.
Proof.
  intros Hb. unfold Js.shl, Js.ToUint32.
  rewrite (ToInt32_small 1) by lia.
  rewrite (Z.mod_small b (2 ^ 32)) by lia.
  rewrite (Z.mod_small b 32) by lia.
  rewrite Z.shiftl_1_l.
  apply ToInt32_small.
  assert (2 ^ b <= 2 ^ 7) by (apply Z.pow_le_mono_r; lia).
  assert (0 < 2 ^ b) by (apply Z.pow_pos_nonneg; lia). lia.
Qed.

Lemma ushr_3 (x : Z) : Js.ushr x 3 = (x mod 2 ^ 32) / 8.
Proof.
  unfold Js.ushr, Js.ToUint32.
  change (3 mod 2 ^ 32 mod 32) with 3.
  rewrite Z.shiftr_div_pow2 by lia. reflexivity.
Qed.

Lemma ushr_3_bounds (x : Z) : 0 <= x -> 0 <= Js.ushr x 3 <= x / 8.
Proof.
  intros Hx. rewrite ushr_3.
  pose proof (Z.mod_pos_bound x (2 ^ 32) ltac:(lia)).
  assert (x mod 2 ^ 32 <= x) by (apply Z.mod_le; lia).
  split.
  - apply Z.div_pos; lia.
  - apply Z.div_le_mono; lia.
Qed.

Lemma land_pow2_testbit (y b : Z) :
  0 <= b -> (Z.land y (2 ^ b) =? 0) = negb (Z.testbit y b).
Proof.
  intros Hb.
  destruct (Z.testbit y b) eqn:E; simpl.
  - apply Z.eqb_neq. intros H0.
    assert (Z.testbit (Z.land y (2 ^ b)) b = true).
    { rewrite Z.land_spec, E, Z.pow2_bits_true by lia. reflexivity. }
    rewrite H0, Z.bits_0 in H. discriminate.
  - apply Z.eqb_eq. apply Z.bits_inj'. intros n Hn.
    rewrite Z.land_spec, Z.bits_0.
    destruct (Z.eq_dec n b) as [->|Hne].
    + rewrite E. reflexivity.
    + rewrite Z.pow2_bits_false by lia. apply andb_false_r.
Qed.

Lemma round53_exact (x : Z) : x < 2 ^ 53 -> Js.round53 x = x.
Proof.
  intros H. unfold Js.round53.
  destruct (x <? 2 ^ 53) eqn:E; [reflexivity|].
  apply Z.ltb_ge in E. lia.
Qed.

Lemma round53_nonneg (x : Z) : 0 <= x -> 0 <= Js.round53 x.
Proof.
  intros H. unfold Js.round53.
  destruct (x <? 2 ^ 53); [assumption|].
  cbv zeta. apply Z.shiftl_nonneg.
  assert (0 <= Z.shiftr x (Z.log2 x - 52)) by (apply Z.shiftr_nonneg; assumption).
  destruct (_ || _); lia.
Qed.

End JsFacts.

(** ** Facts about buffers and the bit field *)

Section BufferFacts.

Lemma replace_nth_length (n : nat) (buf : Buffer) (v : Z) :
  List.length (replace_nth n buf v) = List.length buf.
Proof.
  revert n. induction buf as [|x tl IH]; intros [|n]; simpl; auto.
Qed.

Lemma replace_nth_same (n : nat) (buf : Buffer) (v : Z) :
  (n < List.length buf)%nat -> nth n (replace_nth n buf v) 0 = v.
Proof.
  revert n. induction buf as [|x tl IH]; intros [|n] H; simpl in *; try lia.
  apply IH. lia.
Qed.

Lemma replace_nth_other (n m : nat) (buf : Buffer) (v : Z) :
  n <> m -> nth m (replace_nth n buf v) 0 = nth m buf 0.
Proof.
  revert n m. induction buf as [|x tl IH]; intros [|n] [|m] H; simpl; auto;
    congruence.
Qed.

Lemma replace_nth_beyond (n : nat) (buf : Buffer) (v : Z) :
  (List.length buf <= n)%nat -> replace_nth n buf v = buf.
Proof.
  revert n. induction buf as [|x tl IH]; intros [|n] H; simpl in *; try lia; auto.
  f_equal. apply IH. lia.
Qed.

Lemma Buffer_set_length (buf : Buffer) (i v : Z) :
  List.length (Buffer_set buf i v) = List.length buf.
Proof.
  unfold Buffer_set. destruct (i <? 0); [reflexivity|apply replace_nth_length].
Qed.

Lemma Buffer_get_set_same (buf : Buffer) (i v : Z) :
  0 <= i < Z.of_nat (List.length buf) ->
  Buffer_get (Buffer_set buf i v) i = Js.ToUint8 v.
Proof.
  intros H. unfold Buffer_get, Buffer_set.
  destruct (i <? 0) eqn:E; [apply Z.ltb_lt in E; lia|].
  apply replace_nth_same. lia.
Qed.

Lemma Buffer_get_set_other (buf : Buffer) (i j v : Z) :
  i <> j -> Buffer_get (Buffer_set buf i v) j = Buffer_get buf j.
Proof.
  intros H. unfold Buffer_get, Buffer_set.
  destruct (j <? 0) eqn:Ej; [reflexivity|].
  destruct (i <? 0) eqn:Ei; [reflexivity|].
  apply Z.ltb_ge in Ei, Ej.
  apply replace_nth_other. lia.
Qed.

Lemma Buffer_set_beyond (buf : Buffer) (i v : Z) :
  Z.of_nat (List.length buf) <= i -> Buffer_set buf i v = buf.
Proof.
  intros H. unfold Buffer_set.
  destruct (i <? 0); [reflexivity|].
  apply replace_nth_beyond. lia.
Qed.

(** [get] reads bit [index mod 8] of byte [index >>> 3]. *)
Lemma Bitfield_get_testbit (bf : Bitfield.t) (index : Z) :
  0 <= index ->
  Bitfield.get bf index
  = Z.testbit (Buffer_get (Bitfield.buffer bf) (Js.ushr index 3)) (index mod 8).
Proof.
  intros Hi. unfold Bitfield.get, Js.and.
  rewrite Z.rem_mod_nonneg by lia.
  pose proof (Z.mod_pos_bound index 8 ltac:(lia)) as Hb.
  rewrite shl_1 by lia.
  assert (H8 : 2 ^ (index mod 8) <= 2 ^ 7) by (apply Z.pow_le_mono_r; lia).
  assert (H0 : 0 < 2 ^ (index mod 8)) by (apply Z.pow_pos_nonneg; lia).
  rewrite (ToInt32_small (2 ^ (index mod 8))) by lia.
  rewrite land_pow2_testbit by lia.
  rewrite negb_involutive.
  apply ToInt32_testbit. lia.
Qed.

(** The byte [set(index, true)] stores has the bits of the old byte and
    bit [index mod 8]. *)
Lemma set_byte_testbit (old index b : Z) :
  0 <= index -> 0 <= b < 8 ->
  Z.testbit (Js.ToUint8 (Js.or old (Js.shl 1 (Z.rem index 8)))) b
  = Z.testbit old b || (b =? index mod 8).
Proof.
  intros Hi Hb. unfold Js.ToUint8, Js.or.
  rewrite Z.rem_mod_nonneg by lia.
  pose proof (Z.mod_pos_bound index 8 ltac:(lia)) as Hm.
  rewrite shl_1 by lia.
  assert (H8 : 2 ^ (index mod 8) <= 2 ^ 7) by (apply Z.pow_le_mono_r; lia).
  assert (H0 : 0 < 2 ^ (index mod 8)) by (apply Z.pow_pos_nonneg; lia).
  rewrite (ToInt32_small (2 ^ (index mod 8))) by lia.
  change 256 with (2 ^ 8).
  rewrite Z.mod_pow2_bits_low by lia.
  rewrite Z.lor_spec, ToInt32_testbit by lia.
  f_equal.
  destruct (Z.eqb_spec b (index mod 8)) as [->|Hne].
  - apply Z.pow2_bits_true. lia.
  - apply Z.pow2_bits_false. lia.
Qed.

Lemma Bitfield_set_length (bf : Bitfield.t) (index : Z) (v : bool) :
  List.length (Bitfield.buffer (Bitfield.set bf index v)) = List.length (Bitfield.buffer bf).
Proof.
  unfold Bitfield.set. destruct v; simpl; apply Buffer_set_length.
Qed.

(** A bit that was set is read as set, when its byte is inside the buffer. *)
Lemma Bitfield_get_set_same (bf : Bitfield.t) (index : Z) :
  0 <= index ->
  Js.ushr index 3 < Z.of_nat (List.length (Bitfield.buffer bf)) ->
  Bitfield.get (Bitfield.set bf index true) index = true.
Proof.
  intros Hi Hlen.
  rewrite Bitfield_get_testbit by assumption.
  unfold Bitfield.set. simpl.
  pose proof (ushr_3_bounds index Hi) as Hp.
  rewrite Buffer_get_set_same by lia.
  pose proof (Z.mod_pos_bound index 8 ltac:(lia)) as Hm.
  rewrite set_byte_testbit by lia.
  rewrite Z.eqb_refl. apply orb_true_r.
Qed.

(** Setting a bit clears no other bit. *)
Lemma Bitfield_get_set_mono (bf : Bitfield.t) (index j : Z) :
  0 <= index -> 0 <= j ->
  Bitfield.get bf j = true ->
  Bitfield.get (Bitfield.set bf index true) j = true.
Proof.
  intros Hi Hj Hget.
  rewrite Bitfield_get_testbit in * by assumption.
  unfold Bitfield.set. simpl.
  pose proof (ushr_3_bounds index Hi) as Hp.
  pose proof (Z.mod_pos_bound j 8 ltac:(lia)) as Hm.
  destruct (Z.eq_dec (Js.ushr index 3) (Js.ushr j 3)) as [E|E].
  - destruct (Z_lt_le_dec (Js.ushr index 3) (Z.of_nat (List.length (Bitfield.buffer bf)))) as [Hin|Hout].
    + rewrite <- E. rewrite Buffer_get_set_same by lia.
      rewrite set_byte_testbit by lia.
      rewrite E, Hget. reflexivity.
    + rewrite Buffer_set_beyond by lia. assumption.
  - rewrite Buffer_get_set_other by assumption. assumption.
Qed.

End BufferFacts.

(** ** Facts about the sizing helpers and the index derivation *)

Section HashFacts.

Lemma Math_ceil_spec (x : R) :
  (IZR (Math_ceil x) - 1 < x <= IZR (Math_ceil x))%R.
Proof.
  unfold Math_ceil. rewrite opp_IZR.
  destruct (base_Int_part (- x)) as [H1 H2]. lra.
Qed.

Lemma Math_ceil_unique (x : R) (n : Z) :
  (IZR n - 1 < x <= IZR n)%R -> Math_ceil x = n.
Proof.
  intros [H1 H2]. destruct (Math_ceil_spec x) as [H3 H4].
  assert (Hlt1 : (IZR (Math_ceil x) < IZR (n + 1))%R) by (rewrite plus_IZR; lra).
  assert (Hlt2 : (IZR n < IZR (Math_ceil x + 1))%R) by (rewrite plus_IZR; lra).
  apply lt_IZR in Hlt1, Hlt2. lia.
Qed.

Lemma Math_ceil_IZR (n : Z) : Math_ceil (IZR n) = n.
Proof. apply Math_ceil_unique. lra. Qed.

(** An integer is below [x] exactly when it is below the ceiling of [x]. *)
Lemma lt_Math_ceil (i : Z) (x : R) : (IZR i < x)%R <-> i < Math_ceil x.
Proof.
  destruct (Math_ceil_spec x) as [H1 H2]. split; intros H.
  - apply lt_IZR. lra.
  - assert (i + 1 <= Math_ceil x) by lia.
    apply IZR_le in H0. rewrite plus_IZR in H0. lra.
Qed.

Lemma hashes_loop_spec (h1 h2 size : Z) (slices : R) (n : nat) :
  forall (fuel : nat) (i : Z) (hashes : list Z),
    (n < fuel)%nat ->
    n = Z.to_nat (Math_ceil slices - i) ->
    hashes_loop fuel h1 h2 size slices i hashes
    = Some (hashes ++ map (fun j => hash_index h1 h2 size (i + Z.of_nat j)) (seq 0 n)).
Proof.
  induction n as [|n IH]; intros fuel i hashes Hfuel Hn.
  - destruct fuel as [|fuel]; [lia|]. simpl.
    destruct (Rlt_dec (IZR i) slices) as [Hlt|_].
    + apply lt_Math_ceil in Hlt. lia.
    + now rewrite app_nil_r.
  - destruct fuel as [|fuel]; [lia|]. simpl hashes_loop.
    destruct (Rlt_dec (IZR i) slices) as [_|Hge].
    + rewrite IH by lia.
      rewrite <- app_assoc. do 2 f_equal.
      simpl. rewrite Z.add_0_r. f_equal.
      rewrite <- seq_shift, map_map.
      apply map_ext. intros j. f_equal. lia.
    + exfalso. apply Hge. apply lt_Math_ceil. lia.
Qed.

(** With fuel for every test of the loop condition the loop ends, and the
    result does not depend on the fuel. *)
Lemma calulateHashes_fuel_enough (fuel : nat) (key : Buffer) (size : Z) (slices : R) :
  (Z.to_nat (Math_ceil slices) < fuel)%nat ->
  calulateHashes_fuel fuel key size slices
  = Some (hash_indices key size (Z.to_nat (Math_ceil slices))).
Proof.
  intros Hfuel. unfold calulateHashes_fuel.
  rewrite (hashes_loop_spec _ _ _ _ (Z.to_nat (Math_ceil slices))) by (auto; f_equal; lia).
  reflexivity.
Qed.

Lemma calulateHashes_eq (key : Buffer) (size : Z) (slices : R) :
  calulateHashes key size slices = hash_indices key size (Z.to_nat (Math_ceil slices)).
Proof.
  unfold calulateHashes. rewrite calulateHashes_fuel_enough by lia. reflexivity.
Qed.

Lemma hash_indices_length (key : Buffer) (size : Z) (n : nat) :
  List.length (hash_indices key size n) = n.
Proof. unfold hash_indices. now rewrite length_map, length_seq. Qed.

Lemma hash_indices_nth_error (key : Buffer) (size : Z) (n i : nat) :
  (i < n)%nat ->
  nth_error (hash_indices key size n) i
  = Some (hash_index (fnv (Buffer_from "S") key) (fnv (Buffer_from "W") key)
            size (Z.of_nat i)).
Proof.
  intros Hi. unfold hash_indices.
  rewrite nth_error_map, nth_error_seq.
  destruct (Nat.ltb_spec i n); [reflexivity|lia].
Qed.

Lemma fnv_range (seed data : Buffer) : 0 <= fnv seed data < 2 ^ 32.
Proof.
  unfold fnv, Js.ushr, Js.ToUint32.
  change (0 mod 2 ^ 32 mod 32) with 0. rewrite Z.shiftr_0_r.
  apply Z.mod_pos_bound. lia.
Qed.

(** The two updates of [fnv] hash the seed followed by the data. *)
Lemma fnv_concat (seed data : Buffer) : fnv seed data = FNV_uint32 (seed ++ data).
Proof.
  unfold fnv, FNV_uint32, Js.ushr.
  change (Js.ToUint32 0 mod 32) with 0. rewrite Z.shiftr_0_r.
  now rewrite FNV_update_app.
Qed.

Lemma hash_index_range (h1 h2 size i : Z) :
  1 <= size -> 0 <= h1 -> 0 <= h2 -> 0 <= i ->
  0 <= hash_index h1 h2 size i < size.
Proof.
  intros Hs H1 H2 Hi. unfold hash_index, Js.add, Js.mul.
  assert (0 <= Js.round53 (i * h2)) by (apply round53_nonneg; nia).
  assert (0 <= Js.round53 (h1 + Js.round53 (i * h2))) by (apply round53_nonneg; lia).
  rewrite Z.rem_mod_nonneg by lia.
  apply Z.mod_pos_bound. lia.
Qed.

(** Within the exactly representable integers the index is the remainder of
    the exact sum. *)
Lemma hash_index_exact (h1 h2 size i : Z) :
  1 <= size -> 0 <= h1 -> 0 <= h2 -> 0 <= i ->
  h1 + i * h2 < 2 ^ 53 ->
  hash_index h1 h2 size i = (h1 + i * h2) mod size.
Proof.
  intros Hs H1 H2 Hi Hlt. unfold hash_index, Js.add, Js.mul.
  rewrite (round53_exact (i * h2)) by nia.
  rewrite round53_exact by lia.
  apply Z.rem_mod_nonneg; nia.
Qed.

Lemma hash_indices_range (key : Buffer) (size : Z) (n : nat) :
  1 <= size -> Forall (fun x => 0 <= x < size) (hash_indices key size n).
Proof.
  intros Hs. unfold hash_indices. apply Forall_map, Forall_forall.
  intros j _.
  pose proof (fnv_range (Buffer_from "S") key).
  pose proof (fnv_range (Buffer_from "W") key).
  apply hash_index_range; lia.
Qed.

End HashFacts.

(** ** The hash is FNV-1a *)

Section FNV1aFacts.

Lemma lxor_mod_pow2 (a b n : Z) :
  0 <= n -> Z.lxor a b mod 2 ^ n = Z.lxor (a mod 2 ^ n) (b mod 2 ^ n).
Proof.
  intros Hn. apply Z.bits_inj'. intros i Hi.
  rewrite Z.lxor_spec, !Z.testbit_mod_pow2 by lia.
  rewrite Z.lxor_spec.
  destruct (i <? n); [reflexivity|]. now rewrite !andb_false_l.
Qed.

Lemma shl_mod (x n : Z) :
  0 <= n < 32 -> Js.shl x n mod 2 ^ 32 = (x * 2 ^ n) mod 2 ^ 32.
Proof.
  intros Hn. unfold Js.shl, Js.ToUint32.
  rewrite (Z.mod_small n (2 ^ 32)) by lia.
  rewrite (Z.mod_small n 32) by lia.
  rewrite ToInt32_mod, Z.shiftl_mul_pow2 by lia.
  rewrite Zmult_mod, ToInt32_mod, <- Zmult_mod. reflexivity.
Qed.

Lemma FNV_step_mod (h b : Z) :
  0 <= b < 256 ->
  FNV.step h b mod 2 ^ 32 = (Z.lxor (h mod 2 ^ 32) b * FNV_prime) mod 2 ^ 32.
Proof.
  intros Hb. unfold FNV.step, Js.xor.
  set (x := Z.lxor (Js.ToInt32 h) (Js.ToInt32 b)).
  assert (Hx : x mod 2 ^ 32 = Z.lxor (h mod 2 ^ 32) b).
  { unfold x. rewrite lxor_mod_pow2, !ToInt32_mod by lia.
    now rewrite (Z.mod_small b) by lia. }
  assert (Hsh : forall n, 0 <= n < 32 -> exists k, Js.shl x n = x * 2 ^ n + k * 2 ^ 32).
  { intros n Hn. pose proof (shl_mod x n Hn) as Hm.
    exists (Js.shl x n / 2 ^ 32 - (x * 2 ^ n) / 2 ^ 32).
    pose proof (Z.div_mod (Js.shl x n) (2 ^ 32) ltac:(lia)).
    pose proof (Z.div_mod (x * 2 ^ n) (2 ^ 32) ltac:(lia)). lia. }
  assert (E : (x + (Js.shl x 24 + Js.shl x 8 + Js.shl x 7 + Js.shl x 4 + Js.shl x 1)) mod 2 ^ 32
              = (x * FNV_prime) mod 2 ^ 32).
  { destruct (Hsh 24 ltac:(lia)) as [k1 ->]. destruct (Hsh 8 ltac:(lia)) as [k2 ->].
    destruct (Hsh 7 ltac:(lia)) as [k3 ->]. destruct (Hsh 4 ltac:(lia)) as [k4 ->].
    destruct (Hsh 1 ltac:(lia)) as [k5 ->].
    replace (x + (x * 2 ^ 24 + k1 * 2 ^ 32 + (x * 2 ^ 8 + k2 * 2 ^ 32)
                  + (x * 2 ^ 7 + k3 * 2 ^ 32) + (x * 2 ^ 4 + k4 * 2 ^ 32)
                  + (x * 2 ^ 1 + k5 * 2 ^ 32)))
      with (x * FNV_prime + (k1 + k2 + k3 + k4 + k5) * 2 ^ 32)
      by (unfold FNV_prime; ring).
    apply Z_mod_plus_full. }
  rewrite E, <- Hx, Z.mul_mod_idemp_l by lia. reflexivity.
Qed.

Lemma FNV_update_mod (bytes : list Z) :
  Buffer_ok bytes ->
  forall h, FNV.update h bytes mod 2 ^ 32
            = fold_left (fun h b => (Z.lxor h b * FNV_prime) mod 2 ^ 32) bytes (h mod 2 ^ 32).
Proof.
  unfold FNV.update.
  induction 1 as [|b tl Hb _ IH]; intros h; cbn [fold_left]; [reflexivity|].
  now rewrite IH, FNV_step_mod by assumption.
Qed.

(** The unsigned value of the hash object is the 32-bit FNV-1a hash. *)
Lemma FNV_uint32_FNV1a (bytes : list Z) :
  Buffer_ok bytes -> FNV_uint32 bytes = FNV1a_32 bytes.
Proof.
  intros H. unfold FNV_uint32, FNV1a_32, FNV.value, Js.ToUint32, Js.and.
  change (Js.ToInt32 4294967295) with (-1).
  rewrite Z.land_m1_r, ToInt32_mod, FNV_update_mod by assumption.
  reflexivity.
Qed.

End FNV1aFacts.

(** ** calulateHashes *)

(** C3, as the code has it: for every key, size >= 1 and whole number of
    slices >= 1, [calulateHashes] returns exactly [slices] indices, each in
    [0, size), the same for every run of the loop that is given enough
    fuel; [h1] and [h2] are the unsigned 32-bit values of the FNV object fed
    'S' and 'W' followed by the key, which are the FNV-1a hashes of these
    bytes; and the [i]-th index is [(h1 + i * h2) mod size] wherever
    [h1 + i * h2] is below 2^53, which covers every index when
    [slices <= 2^21]. *)
Theorem calulateHashes_indices (key : Buffer) (size slices : Z) :
  1 <= size -> 1 <= slices ->
  let h1 := FNV_uint32 (Buffer_from "S" ++ key) in
  let h2 := FNV_uint32 (Buffer_from "W" ++ key) in
  let hashes := calulateHashes key size (IZR slices) in
  0 <= h1 < 2 ^ 32 /\ 0 <= h2 < 2 ^ 32 /\
  (Buffer_ok key ->
     h1 = FNV1a_32 (Buffer_from "S" ++ key) /\ h2 = FNV1a_32 (Buffer_from "W" ++ key)) /\
  Z.of_nat (List.length hashes) = slices /\
  Forall (fun x => 0 <= x < size) hashes /\
  (forall fuel, (Z.to_nat slices < fuel)%nat ->
     calulateHashes_fuel fuel key size (IZR slices) = Some hashes) /\
  (forall i, 0 <= i < slices -> h1 + i * h2 < 2 ^ 53 ->
     nth_error hashes (Z.to_nat i) = Some ((h1 + i * h2) mod size)) /\
  (slices <= 2 ^ 21 ->
   forall i, 0 <= i < slices ->
     nth_error hashes (Z.to_nat i) = Some ((h1 + i * h2) mod size)).
Proof.
  intros Hsize Hslices h1 h2 hashes.
  assert (R1 : 0 <= h1 < 2 ^ 32) by (subst h1; rewrite <- fnv_concat; apply fnv_range).
  assert (R2 : 0 <= h2 < 2 ^ 32) by (subst h2; rewrite <- fnv_concat; apply fnv_range).
  assert (E : hashes = hash_indices key size (Z.to_nat slices)).
  { subst hashes. now rewrite calulateHashes_eq, Math_ceil_IZR. }
  assert (Hnth : forall i, 0 <= i < slices -> h1 + i * h2 < 2 ^ 53 ->
            nth_error hashes (Z.to_nat i) = Some ((h1 + i * h2) mod size)).
  { intros i Hi Hlt. rewrite E, hash_indices_nth_error by lia.
    rewrite Z2Nat.id by lia. rewrite !fnv_concat. fold h1 h2.
    f_equal. apply hash_index_exact; lia. }
  repeat split; try lia.
  - subst h1. apply FNV_uint32_FNV1a. apply Forall_app. split; [|assumption].
    constructor; [simpl; lia|constructor].
  - subst h2. apply FNV_uint32_FNV1a. apply Forall_app. split; [|assumption].
    constructor; [simpl; lia|constructor].
  - rewrite E, hash_indices_length. lia.
  - rewrite E. now apply hash_indices_range.
  - intros fuel Hfuel. rewrite E.
    rewrite <- (Math_ceil_IZR slices) at 2.
    apply calulateHashes_fuel_enough. now rewrite Math_ceil_IZR.
  - exact Hnth.
  - intros Hsmall i Hi. apply Hnth; [assumption|].
    assert (i * h2 <= (2 ^ 21 - 1) * (2 ^ 32 - 1)) by (apply Z.mul_le_mono_nonneg; lia).
    lia.
Qed.

Lemma calulateHashes_indices_witness :
  1 <= 16 /\ 1 <= 2 /\
  nth_error (calulateHashes (Buffer_from "foo") 16 2) (Z.to_nat 1)
  = Some ((FNV_uint32 (Buffer_from "S" ++ Buffer_from "foo")
           + 1 * FNV_uint32 (Buffer_from "W" ++ Buffer_from "foo")) mod 16).
Proof.
  split; [lia|]. split; [lia|].
  apply (calulateHashes_indices (Buffer_from "foo") 16 2); lia.
Defined.

(** C3 as stated fails for a large whole number of slices: with key "baz",
    size 16 and 2534397 slices, the sum [h1 + 2534396 * h2] is above 2^53
    and is rounded to the nearest representable number, so the index at
    position 2534396 is 0, while [(h1 + 2534396 * h2) mod 16] is 15. *)
Lemma calulateHashes_rounds_large_sums :
  nth_error (calulateHashes (Buffer_from "baz") 16 2534397) (Z.to_nat 2534396) = Some 0 /\
  (FNV_uint32 (Buffer_from "S" ++ Buffer_from "baz")
   + 2534396 * FNV_uint32 (Buffer_from "W" ++ Buffer_from "baz")) mod 16 = 15.
Proof.
  split.
  - rewrite calulateHashes_eq, Math_ceil_IZR, hash_indices_nth_error by lia.
    rewrite Z2Nat.id by lia. vm_compute. reflexivity.
  - vm_compute. reflexivity.
Qed.

(** The counter [i] is below [s] for exactly [ceil s] whole numbers [i >= 0],
    one more than the floor of [s] when [s] is not whole. *)
Lemma Math_ceil_not_whole (s : R) :
  (forall n : Z, s <> IZR n) -> Math_ceil s = Int_part s + 1.
Proof.
  intros Hn. apply Math_ceil_unique.
  destruct (base_Int_part s) as [H1 H2].
  rewrite plus_IZR.
  specialize (Hn (Int_part s)). lra.
Qed.

(** ** Rounding to the nearest double *)

Lemma ln_2_pos : (0 < ln 2)%R.
Proof. rewrite <- ln_1. apply ln_increasing; lra. Qed.

Section Rounding.

Local Open Scope R_scope.

Lemma pow2_pos (e : Z) : 0 < Double.pow2 e.
Proof. unfold Double.pow2, Rpower. apply exp_pos. Qed.

Lemma pow2_add (a b : Z) : Double.pow2 (a + b) = Double.pow2 a * Double.pow2 b.
Proof. unfold Double.pow2. rewrite plus_IZR. apply Rpower_plus. Qed.

Lemma pow2_0 : Double.pow2 0 = 1.
Proof. unfold Double.pow2. apply Rpower_O. lra. Qed.

Lemma pow2_1 : Double.pow2 1 = 2.
Proof. unfold Double.pow2. apply Rpower_1. lra. Qed.

Lemma pow2_opp (e : Z) : Double.pow2 (- e) = / Double.pow2 e.
Proof. unfold Double.pow2. rewrite opp_IZR. apply Rpower_Ropp. Qed.

Lemma pow2_le (a b : Z) : (a <= b)%Z -> Double.pow2 a <= Double.pow2 b.
Proof.
  intros H. unfold Double.pow2. apply Rle_Rpower; [lra|]. now apply IZR_le.
Qed.

Lemma pow2_nat (n : nat) : Double.pow2 (Z.of_nat n) = 2 ^ n.
Proof.
  unfold Double.pow2. rewrite <- INR_IZR_INZ. apply Rpower_pow. lra.
Qed.

Lemma pow2_52 : Double.pow2 52 = 4503599627370496.
Proof. change 52%Z with (Z.of_nat 52). rewrite pow2_nat. lra. Qed.

Lemma pow2_53 : Double.pow2 53 = 9007199254740992.
Proof. change 53%Z with (Z.of_nat 53). rewrite pow2_nat. lra. Qed.

Lemma pow2_m53 : Double.pow2 (- 53) = Double.ulp.
Proof. change (Double.pow2 (Z.opp 53) = Double.ulp). rewrite pow2_opp, pow2_53. reflexivity. Qed.

Lemma Int_part_spec (x : R) : IZR (Int_part x) <= x < IZR (Int_part x) + 1.
Proof. destruct (base_Int_part x). lra. Qed.

(** The exponent of a number that is not 0 brackets its magnitude. *)
Lemma exponent_spec (x : R) :
  x <> 0 -> Double.pow2 (Double.exponent x) <= Rabs x < Double.pow2 (Double.exponent x + 1).
Proof.
  intros Hx. assert (Ha : 0 < Rabs x) by now apply Rabs_pos_lt.
  pose proof ln_2_pos as H2.
  destruct (Int_part_spec (ln (Rabs x) / ln 2)) as [Hlo Hhi].
  fold (Double.exponent x) in Hlo, Hhi.
  assert (Hlo' : IZR (Double.exponent x) * ln 2 <= ln (Rabs x)).
  { apply Rmult_le_reg_r with (/ ln 2); [now apply Rinv_0_lt_compat|].
    rewrite Rmult_assoc, Rinv_r by lra. unfold Rdiv in Hlo. lra. }
  assert (Hhi' : ln (Rabs x) < (IZR (Double.exponent x) + 1) * ln 2).
  { apply Rmult_lt_reg_r with (/ ln 2); [now apply Rinv_0_lt_compat|].
    rewrite Rmult_assoc, Rinv_r by lra. unfold Rdiv in Hhi. lra. }
  rewrite <- (exp_ln (Rabs x)) at 1 2 by exact Ha.
  unfold Double.pow2, Rpower. rewrite plus_IZR. split.
  - destruct Hlo' as [Hlt | Heq].
    + left. now apply exp_increasing.
    + right. now rewrite Heq.
  - now apply exp_increasing.
Qed.

Lemma round_even_spec (m : R) : Rabs (IZR (Double.round_even m) - m) <= 1 / 2.
Proof.
  unfold Double.round_even. destruct (Int_part_spec m) as [Hlo Hhi].
  destruct (Rlt_dec (m - IZR (Int_part m)) (1 / 2)) as [H1 | H1].
  - apply Rabs_le. lra.
  - destruct (Rlt_dec (1 / 2) (m - IZR (Int_part m))) as [H2 | H2].
    + rewrite plus_IZR. apply Rabs_le. lra.
    + destruct (Z.even (Int_part m)).
      * apply Rabs_le. lra.
      * rewrite plus_IZR. apply Rabs_le. lra.
Qed.

(** Rounding is within half a unit of the last place: a relative error of
    at most 2^-53. *)
Lemma round_error (x : R) : Rabs (Double.round x - x) <= Double.ulp * Rabs x.
Proof.
  unfold Double.round. destruct (Req_dec_T x 0) as [-> | Hx].
  - rewrite Rminus_0_r, Rabs_R0. lra.
  - set (e := Double.exponent x).
    destruct (exponent_spec x Hx) as [Hlo _]. fold e in Hlo.
    pose proof (round_even_spec (x * Double.pow2 (52 - e))) as Hr.
    pose proof (pow2_pos (e - 52)) as Hp.
    assert (Hinv : Double.pow2 (52 - e) * Double.pow2 (e - 52) = 1).
    { rewrite <- pow2_add. replace (52 - e + (e - 52))%Z with 0%Z by lia. apply pow2_0. }
    replace (IZR (Double.round_even (x * Double.pow2 (52 - e))) * Double.pow2 (e - 52) - x)
      with ((IZR (Double.round_even (x * Double.pow2 (52 - e))) - x * Double.pow2 (52 - e)) * Double.pow2 (e - 52))
      by (rewrite Rmult_minus_distr_r, Rmult_assoc, Hinv; ring).
    rewrite Rabs_mult, (Rabs_pos_eq (Double.pow2 (e - 52))) by lra.
    assert (He : Double.pow2 (e - 52) = 2 * Double.ulp * Double.pow2 e).
    { replace (e - 52)%Z with (1 + (- 53 + e))%Z by lia.
      now rewrite !pow2_add, pow2_1, pow2_m53, Rmult_assoc. }
    rewrite He. assert (0 < Double.ulp) by (unfold Double.ulp; lra).
    pose proof (pow2_pos e).
    apply Rle_trans with (1 / 2 * (2 * Double.ulp * Double.pow2 e)).
    + apply Rmult_le_compat_r; [nra | exact Hr].
    + nra.
Qed.

Lemma round_bounds (x : R) : x - Double.ulp * Rabs x <= Double.round x <= x + Double.ulp * Rabs x.
Proof.
  pose proof (round_error x) as H. unfold Rabs at 1 in H.
  destruct (Rcase_abs (Double.round x - x)); lra.
Qed.

Lemma round_pos (x : R) : 0 < x -> 0 < Double.round x.
Proof.
  intros Hx. pose proof (round_bounds x) as H. rewrite Rabs_pos_eq in H by lra.
  unfold Double.ulp in H. nra.
Qed.

Lemma round_neg (x : R) : x < 0 -> Double.round x < 0.
Proof.
  intros Hx. pose proof (round_bounds x) as H. rewrite Rabs_left in H by lra.
  unfold Double.ulp in H. nra.
Qed.

Lemma round_0 : Double.round 0 = 0.
Proof. unfold Double.round. destruct (Req_dec_T 0 0); [reflexivity | contradiction]. Qed.

Lemma round_bounds_pos (x : R) : 0 < x -> x * (1 - Double.ulp) <= Double.round x <= x * (1 + Double.ulp).
Proof.
  intros Hx. pose proof (round_bounds x) as H. rewrite Rabs_pos_eq in H by lra. lra.
Qed.

Lemma round_bounds_neg (x : R) : x < 0 -> x * (1 + Double.ulp) <= Double.round x <= x * (1 - Double.ulp).
Proof.
  intros Hx. pose proof (round_bounds x) as H. rewrite Rabs_left in H by lra. lra.
Qed.

Lemma Int_part_le (x y : R) : x <= y -> (Int_part x <= Int_part y)%Z.
Proof.
  intros H. destruct (Int_part_spec x), (Int_part_spec y).
  assert (Hlt : IZR (Int_part x) < IZR (Int_part y + 1)) by (rewrite plus_IZR; lra).
  apply lt_IZR in Hlt. lia.
Qed.

Lemma Int_part_IZR (n : Z) : Int_part (IZR n) = n.
Proof.
  destruct (Int_part_spec (IZR n)) as [H1 H2].
  apply le_IZR in H1.
  assert (Hlt : IZR n < IZR (Int_part (IZR n) + 1)) by (rewrite plus_IZR; lra).
  apply lt_IZR in Hlt. lia.
Qed.

Lemma round_even_bounds (m : R) :
  (Int_part m <= Double.round_even m <= Int_part m + 1)%Z.
Proof.
  unfold Double.round_even.
  destruct (Rlt_dec _ _); [lia|]. destruct (Rlt_dec _ _); [lia|].
  destruct (Z.even _); lia.
Qed.

Lemma round_even_IZR (n : Z) : Double.round_even (IZR n) = n.
Proof.
  unfold Double.round_even. rewrite Int_part_IZR.
  destruct (Rlt_dec (IZR n - IZR n) (1 / 2)) as [H | H]; [reflexivity | lra].
Qed.

Lemma round_even_le (m m' : R) : m <= m' -> (Double.round_even m <= Double.round_even m')%Z.
Proof.
  intros H. pose proof (Int_part_le m m' H) as Hf.
  destruct (Z.eq_dec (Int_part m) (Int_part m')) as [Heq | Hne].
  - unfold Double.round_even. rewrite <- Heq.
    destruct (Rlt_dec (m - IZR (Int_part m)) (1 / 2)) as [H1 | H1];
      destruct (Rlt_dec (m' - IZR (Int_part m)) (1 / 2)) as [H1' | H1'];
      destruct (Rlt_dec (1 / 2) (m - IZR (Int_part m))) as [H2 | H2];
      destruct (Rlt_dec (1 / 2) (m' - IZR (Int_part m))) as [H2' | H2'];
      destruct (Z.even (Int_part m)); try lia; lra.
  - pose proof (round_even_bounds m). pose proof (round_even_bounds m'). lia.
Qed.

Lemma round_even_opp (m : R) : Double.round_even (- m) = (- Double.round_even m)%Z.
Proof.
  destruct (Int_part_spec m) as [Hlo Hhi].
  destruct (Req_dec_T m (IZR (Int_part m))) as [Heq | Hne].
  - rewrite Heq, <- opp_IZR, !round_even_IZR. reflexivity.
  - assert (Hf : Int_part (- m) = (- Int_part m - 1)%Z).
    { destruct (Int_part_spec (- m)) as [Hlo' Hhi'].
      assert (H1 : IZR (Int_part (- m)) < IZR (- Int_part m)) by (rewrite opp_IZR; lra).
      assert (H2 : IZR (- Int_part m - 1) < IZR (Int_part (- m) + 1)).
      { rewrite minus_IZR, plus_IZR, opp_IZR. lra. }
      apply lt_IZR in H1, H2. lia. }
    unfold Double.round_even. rewrite Hf, minus_IZR, opp_IZR.
    replace (Z.even (- Int_part m - 1)) with (negb (Z.even (Int_part m))).
    2:{ replace (- Int_part m - 1)%Z with (- (Int_part m + 1))%Z by lia.
        rewrite Z.even_opp, Z.add_1_r, Z.even_succ, <- Z.negb_even. reflexivity. }
    destruct (Rlt_dec (m - IZR (Int_part m)) (1 / 2)) as [H1 | H1];
      destruct (Rlt_dec (- m - (- IZR (Int_part m) - 1)) (1 / 2)) as [H1' | H1'];
      destruct (Rlt_dec (1 / 2) (m - IZR (Int_part m))) as [H2 | H2];
      destruct (Rlt_dec (1 / 2) (- m - (- IZR (Int_part m) - 1))) as [H2' | H2'];
      destruct (Z.even (Int_part m)); simpl; try lia; lra.
Qed.

Lemma exponent_opp (x : R) : Double.exponent (- x) = Double.exponent x.
Proof. unfold Double.exponent. now rewrite Rabs_Ropp. Qed.

(** Rounding is symmetric. *)
Lemma round_opp (x : R) : Double.round (- x) = - Double.round x.
Proof.
  unfold Double.round. destruct (Req_dec_T x 0) as [Hx | Hx];
    destruct (Req_dec_T (- x) 0) as [Hx' | Hx']; try lra.
  rewrite exponent_opp, Ropp_mult_distr_l_reverse, round_even_opp, opp_IZR. ring.
Qed.

Lemma exponent_le (x y : R) : 0 < x -> x <= y -> (Double.exponent x <= Double.exponent y)%Z.
Proof.
  intros Hx Hxy. unfold Double.exponent. apply Int_part_le.
  rewrite !Rabs_pos_eq by lra. pose proof ln_2_pos as H2.
  apply Rmult_le_compat_r; [left; now apply Rinv_0_lt_compat|].
  destruct Hxy as [Hlt | ->]; [left; now apply ln_increasing | right; reflexivity].
Qed.

(** A positive number and its rounding lie in the same binade. *)
Lemma round_binade (x : R) :
  0 < x -> Double.pow2 (Double.exponent x) <= Double.round x <= Double.pow2 (Double.exponent x + 1).
Proof.
  intros Hx. assert (Hne : x <> 0) by lra.
  destruct (exponent_spec x Hne) as [Hlo Hhi]. rewrite Rabs_pos_eq in Hlo, Hhi by lra.
  unfold Double.round. destruct (Req_dec_T x 0) as [|_]; [contradiction|].
  set (e := Double.exponent x) in *.
  pose proof (pow2_pos (52 - e)) as Hp. pose proof (pow2_pos (e - 52)) as Hq.
  assert (Hm1 : IZR (2 ^ 52) <= x * Double.pow2 (52 - e)).
  { change (IZR (2 ^ 52)) with 4503599627370496. rewrite <- pow2_52.
    replace 52%Z with (e + (52 - e))%Z at 1 by lia. rewrite pow2_add.
    apply Rmult_le_compat_r; lra. }
  assert (Hm2 : x * Double.pow2 (52 - e) <= IZR (2 ^ 53)).
  { change (IZR (2 ^ 53)) with 9007199254740992. rewrite <- pow2_53.
    replace 53%Z with (e + 1 + (52 - e))%Z at 1 by lia. rewrite (pow2_add (e + 1)).
    apply Rmult_le_compat_r; lra. }
  apply round_even_le in Hm1, Hm2. rewrite round_even_IZR in Hm1, Hm2.
  apply IZR_le in Hm1, Hm2.
  change (IZR (2 ^ 52)) with 4503599627370496 in Hm1. rewrite <- pow2_52 in Hm1.
  change (IZR (2 ^ 53)) with 9007199254740992 in Hm2. rewrite <- pow2_53 in Hm2.
  split.
  - replace e with (52 + (e - 52))%Z at 1 by lia. rewrite pow2_add.
    apply Rmult_le_compat_r; lra.
  - replace (e + 1)%Z with (53 + (e - 52))%Z by lia. rewrite pow2_add.
    apply Rmult_le_compat_r; lra.
Qed.

Lemma round_le_pos (x y : R) : 0 < x -> x <= y -> Double.round x <= Double.round y.
Proof.
  intros Hx Hxy. pose proof (exponent_le x y Hx Hxy) as He.
  destruct (Z.eq_dec (Double.exponent x) (Double.exponent y)) as [Heq | Hne].
  - unfold Double.round. destruct (Req_dec_T x 0); [lra|]. destruct (Req_dec_T y 0); [lra|].
    rewrite <- Heq. pose proof (pow2_pos (52 - Double.exponent x)).
    pose proof (pow2_pos (Double.exponent x - 52)).
    apply Rmult_le_compat_r; [lra|]. apply IZR_le, round_even_le.
    apply Rmult_le_compat_r; lra.
  - destruct (round_binade x Hx) as [_ H1]. destruct (round_binade y ltac:(lra)) as [H2 _].
    pose proof (pow2_le (Double.exponent x + 1) (Double.exponent y) ltac:(lia)). lra.
Qed.

(** Rounding is monotone. *)
Lemma round_le (x y : R) : x <= y -> Double.round x <= Double.round y.
Proof.
  intros Hxy. destruct (Rlt_dec 0 x) as [Hx | Hx].
  - now apply round_le_pos.
  - destruct (Rlt_dec y 0) as [Hy | Hy].
    + assert (H : Double.round (- y) <= Double.round (- x)) by (apply round_le_pos; lra).
      rewrite !round_opp in H. lra.
    + assert (Hx0 : Double.round x <= 0).
      { destruct (Req_dec_T x 0) as [-> | Hne]; [rewrite round_0; lra|].
        left. apply round_neg. lra. }
      assert (Hy0 : 0 <= Double.round y).
      { destruct (Req_dec_T y 0) as [-> | Hne]; [rewrite round_0; lra|].
        left. apply round_pos. lra. }
      lra.
Qed.

End Rounding.

Lemma ln_below_1 (x : R) : (0 < x < 1)%R -> (ln x < 0)%R.
Proof. intros [H0 H1]. rewrite <- ln_1. now apply ln_increasing. Qed.

Lemma Math_log_neg (x : R) : (0 < x < 1)%R -> (Math_log x < 0)%R.
Proof. intros H. apply round_neg. now apply ln_below_1. Qed.

Lemma Math_log_2_pos : (0 < Math_log 2)%R.
Proof. apply round_pos, ln_2_pos. Qed.

Lemma log2sq_pos : (0 < log2sq)%R.
Proof. apply round_pos. lra. Qed.

(** The double of which [calculateSize] takes the ceiling is positive. *)
Lemma calculateSize_value_pos (capacity errorRate : R) :
  (0 < capacity)%R -> (0 < errorRate < 1)%R ->
  (0 < Double.div (Double.mul capacity (Math_log errorRate)) (- log2sq))%R.
Proof.
  intros Hc He. pose proof (Math_log_neg errorRate He) as HL.
  pose proof log2sq_pos as Hk.
  assert (Hp : (Double.mul capacity (Math_log errorRate) < 0)%R).
  { apply round_neg. nra. }
  apply round_pos.
  replace (Double.mul capacity (Math_log errorRate) / - log2sq)%R
    with (- Double.mul capacity (Math_log errorRate) * / log2sq)%R by (field; lra).
  apply Rmult_lt_0_compat; [lra|]. now apply Rinv_0_lt_compat.
Qed.

Lemma calculateSize_pos (capacity errorRate : R) :
  (0 < capacity)%R -> (0 < errorRate < 1)%R -> 1 <= calculateSize capacity errorRate.
Proof.
  intros Hc He. unfold calculateSize.
  pose proof (calculateSize_value_pos capacity errorRate Hc He) as Hpos.
  destruct (Math_ceil_spec
              (Double.div (Double.mul capacity (Math_log errorRate)) (- log2sq))) as [_ H2].
  assert (H : (0 < IZR (calculateSize capacity errorRate))%R)
    by (unfold calculateSize; lra).
  apply lt_IZR in H. unfold calculateSize in H. lia.
Qed.

Lemma calculateSlices_pos (size capacity : R) :
  (0 < size)%R -> (0 < capacity)%R -> (0 < calculateSlices size capacity)%R.
Proof.
  intros Hs Hc. unfold calculateSlices.
  apply round_pos. apply Rmult_lt_0_compat; [|apply Math_log_2_pos].
  apply round_pos. now apply Rdiv_lt_0_compat.
Qed.

(** C10: the loop bound is not rounded.  For every size >= 1 and every
    real number of slices [s > 0], [calulateHashes] returns exactly
    [ceil s] indices (the floor of [s] plus one when [s] is not whole), with
    any fuel above that count; and the filter a [SafeBloomFilter] builds
    from a capacity >= 1 and an error rate strictly between 0 and 1 keeps
    [calculateSlices(size, capacity)] itself as its slice count, so [add]
    sets and [has] tests [ceil (calculateSlices(size, capacity))] derived
    positions for a key. *)
Theorem calulateHashes_real_slices (key : Buffer) (size : Z) (s : R) :
  1 <= size -> (0 < s)%R ->
  List.length (calulateHashes key size s) = Z.to_nat (Math_ceil s) /\
  1 <= Math_ceil s /\
  (forall fuel, (Z.to_nat (Math_ceil s) < fuel)%nat ->
     calulateHashes_fuel fuel key size s = Some (calulateHashes key size s)) /\
  ((forall n : Z, s <> IZR n) ->
     List.length (calulateHashes key size s) = Z.to_nat (Int_part s + 1)) /\
  (forall capacity errorRate : R,
     (1 <= capacity)%R -> (0 < errorRate < 1)%R ->
     let f := SafeBloomFilter.filter
                (SafeBloomFilter.new (Some capacity) (Some errorRate) None) in
     let k := calculateSlices (IZR (calculateSize capacity errorRate)) capacity in
     BloomFilter.size f = calculateSize capacity errorRate /\
     BloomFilter.slices f = k /\
     (0 < k)%R /\
     List.length (calulateHashes key (BloomFilter.size f) (BloomFilter.slices f))
     = Z.to_nat (Math_ceil k) /\
     BloomFilter.bitfield (BloomFilter.add f key)
     = BloomFilter.add_loop (BloomFilter.bitfield f)
         (hash_indices key (BloomFilter.size f) (Z.to_nat (Math_ceil k))) /\
     BloomFilter.has f key
     = BloomFilter.has_loop (BloomFilter.bitfield f)
         (hash_indices key (BloomFilter.size f) (Z.to_nat (Math_ceil k)))).
Proof.
  intros Hsize Hs.
  assert (Hlen : List.length (calulateHashes key size s) = Z.to_nat (Math_ceil s)).
  { now rewrite calulateHashes_eq, hash_indices_length. }
  repeat split.
  - exact Hlen.
  - assert (H : 0 < Math_ceil s) by (apply lt_Math_ceil; simpl; exact Hs). lia.
  - intros fuel Hfuel. rewrite calulateHashes_eq.
    now apply calulateHashes_fuel_enough.
  - intros Hn. rewrite Hlen. f_equal. now apply Math_ceil_not_whole.
  - apply calculateSlices_pos; [|lra].
    apply IZR_lt. pose proof (calculateSize_pos capacity errorRate ltac:(lra) H0). lia.
  - now rewrite calulateHashes_eq, hash_indices_length.
  - unfold BloomFilter.add. now rewrite calulateHashes_eq.
  - unfold BloomFilter.has. now rewrite calulateHashes_eq.
Qed.

Lemma calulateHashes_real_slices_witness :
  1 <= 16 /\ (0 < 5 / 2)%R /\
  List.length (calulateHashes (Buffer_from "foo") 16 (5 / 2)) = 3%nat.
Proof.
  split; [lia|]. split; [lra|].
  assert (E : Math_ceil (5 / 2) = 3) by (apply Math_ceil_unique; lra).
  destruct (calulateHashes_real_slices (Buffer_from "foo") 16 (5 / 2)%R) as [H _];
    [lia|lra|].
  rewrite H, E. reflexivity.
Defined.

(** ** BloomFilter: no false negatives *)

Section BloomFilterFacts.

Lemma byteLength_ceil (size : Z) : Bitfield.byteLength size = (size + 7) / 8.
Proof. unfold Bitfield.byteLength. Z.div_mod_to_equations. lia. Qed.

(** The byte of an index below the size is inside a buffer of the byte
    length of the size. *)
Lemma index_in_buffer (size h : Z) :
  0 <= h < size -> Js.ushr h 3 < Bitfield.byteLength size.
Proof.
  intros Hh. pose proof (ushr_3_bounds h ltac:(lia)) as Hb.
  rewrite byteLength_ceil.
  assert (h / 8 < (size + 7) / 8) by (Z.div_mod_to_equations; lia).
  lia.
Qed.

Lemma add_loop_length (hashes : list Z) (b : Bitfield.t) :
  List.length (Bitfield.buffer (BloomFilter.add_loop b hashes)) = List.length (Bitfield.buffer b).
Proof.
  unfold BloomFilter.add_loop. revert b. induction hashes as [|h tl IH]; intros b; cbn [fold_left].
  - reflexivity.
  - rewrite IH. apply Bitfield_set_length.
Qed.

Lemma add_loop_mono (hashes : list Z) (b : Bitfield.t) (j : Z) :
  0 <= j -> Forall (fun h => 0 <= h) hashes ->
  Bitfield.get b j = true -> Bitfield.get (BloomFilter.add_loop b hashes) j = true.
Proof.
  unfold BloomFilter.add_loop. intros Hj. revert b.
  induction hashes as [|h tl IH]; intros b Hall Hget; cbn [fold_left].
  - assumption.
  - inversion Hall; subst. apply IH; [assumption|].
    apply Bitfield_get_set_mono; assumption.
Qed.

Lemma add_loop_in (hashes : list Z) (b : Bitfield.t) (j : Z) :
  Forall (fun h => 0 <= h /\ Js.ushr h 3 < Z.of_nat (List.length (Bitfield.buffer b))) hashes ->
  In j hashes -> Bitfield.get (BloomFilter.add_loop b hashes) j = true.
Proof.
  unfold BloomFilter.add_loop. revert b.
  induction hashes as [|h tl IH]; intros b Hall Hin; cbn [fold_left].
  - destruct Hin.
  - inversion Hall as [|? ? [Hh0 Hhlen] Htl]; subst.
    destruct Hin as [->|Hin].
    + apply (add_loop_mono tl); [assumption| |].
      * eapply Forall_impl; [|exact Htl]. simpl. tauto.
      * apply Bitfield_get_set_same; assumption.
    + apply IH; [|assumption].
      eapply Forall_impl; [|exact Htl]. cbv beta.
      intros a Ha. now rewrite Bitfield_set_length.
Qed.

Lemma has_loop_Forall (b : Bitfield.t) (hashes : list Z) :
  BloomFilter.has_loop b hashes = true <-> Forall (fun h => Bitfield.get b h = true) hashes.
Proof.
  induction hashes as [|h tl IH]; simpl.
  - split; auto.
  - destruct (Bitfield.get b h) eqn:E; simpl.
    + rewrite IH. split; intros H.
      * constructor; assumption.
      * now inversion H.
    + split; [discriminate|]. intros H. inversion H; congruence.
Qed.

Lemma BloomFilter_add_size (f : BloomFilter.t) (key : Buffer) :
  BloomFilter.size (BloomFilter.add f key) = BloomFilter.size f.
Proof. reflexivity. Qed.

Lemma BloomFilter_add_slices (f : BloomFilter.t) (key : Buffer) :
  BloomFilter.slices (BloomFilter.add f key) = BloomFilter.slices f.
Proof. reflexivity. Qed.

Lemma BloomFilter_add_wf (f : BloomFilter.t) (key : Buffer) :
  BloomFilter_wf f -> BloomFilter_wf (BloomFilter.add f key).
Proof.
  intros [Hs Hl]. split; [assumption|].
  unfold BloomFilter.add. cbn [BloomFilter.size BloomFilter.bitfield].
  now rewrite add_loop_length.
Qed.

Lemma calulateHashes_range (key : Buffer) (size : Z) (slices : R) :
  1 <= size -> Forall (fun x => 0 <= x < size) (calulateHashes key size slices).
Proof. intros H. rewrite calulateHashes_eq. now apply hash_indices_range. Qed.

(** Right after [add(key)], [has(key)] is true. *)
Lemma BloomFilter_has_add (f : BloomFilter.t) (key : Buffer) :
  BloomFilter_wf f -> BloomFilter.has (BloomFilter.add f key) key = true.
Proof.
  intros [Hs Hl]. unfold BloomFilter.has, BloomFilter.add. simpl.
  apply has_loop_Forall, Forall_forall. intros h Hin.
  apply add_loop_in; [|assumption].
  eapply Forall_impl; [|apply calulateHashes_range; exact Hs].
  simpl. intros a Ha. split; [lia|].
  rewrite Hl. now apply index_in_buffer.
Qed.

(** An [add] keeps every key the filter has. *)
Lemma BloomFilter_has_mono (f : BloomFilter.t) (key other : Buffer) :
  BloomFilter_wf f ->
  BloomFilter.has f key = true -> BloomFilter.has (BloomFilter.add f other) key = true.
Proof.
  intros [Hs Hl] Hhas. unfold BloomFilter.has, BloomFilter.add in *. simpl.
  apply has_loop_Forall in Hhas. apply has_loop_Forall.
  pose proof (calulateHashes_range key _ (BloomFilter.slices f) Hs) as Hr.
  rewrite Forall_forall in *. intros h Hin.
  apply add_loop_mono.
  - specialize (Hr h Hin). simpl in Hr. lia.
  - eapply Forall_impl; [|apply calulateHashes_range; exact Hs]. simpl. lia.
  - now apply Hhas.
Qed.

Lemma BloomFilter_adds_wf (keys : list Buffer) (f : BloomFilter.t) :
  BloomFilter_wf f -> BloomFilter_wf (BloomFilter_adds f keys).
Proof.
  unfold BloomFilter_adds. revert f.
  induction keys as [|k tl IH]; intros f Hwf; simpl; [assumption|].
  apply IH. now apply BloomFilter_add_wf.
Qed.

Lemma BloomFilter_has_adds (keys : list Buffer) (f : BloomFilter.t) (key : Buffer) :
  BloomFilter_wf f ->
  BloomFilter.has f key = true -> BloomFilter.has (BloomFilter_adds f keys) key = true.
Proof.
  unfold BloomFilter_adds. revert f.
  induction keys as [|k tl IH]; intros f Hwf Hhas; simpl; [assumption|].
  apply IH; [now apply BloomFilter_add_wf|now apply BloomFilter_has_mono].
Qed.

(** The constructor builds a well-formed filter for any size >= 1. *)
Lemma BloomFilter_new_wf (size : Z) (slices : option R) (buffer : option Buffer) :
  1 <= size -> BloomFilter_wf (BloomFilter.new (Some size) slices buffer).
Proof.
  intros Hs. split; [exact Hs|]. simpl.
  unfold Bitfield.new.
  assert (Halloc : Z.of_nat (List.length (Buffer_alloc (Bitfield.byteLength size)))
                   = Bitfield.byteLength size).
  { unfold Buffer_alloc. rewrite repeat_length.
    rewrite byteLength_ceil. apply Z2Nat.id.
    apply Z.div_pos; lia. }
  destruct buffer as [b|]; [|exact Halloc].
  destruct (Z.eqb_spec (Z.of_nat (List.length b)) (Bitfield.byteLength size)); simpl;
    assumption.
Qed.

End BloomFilterFacts.

(** ** SafeBloomFilter *)

Section SafeBloomFilterFacts.

Lemma SafeBloomFilter_add_full (f : SafeBloomFilter.t) (key : Buffer) :
  (IZR (SafeBloomFilter.count f) >= SafeBloomFilter.capacity f)%R ->
  SafeBloomFilter.add f key = (f, false).
Proof.
  intros H. unfold SafeBloomFilter.add.
  destruct (Rge_dec _ _) as [_|N]; [reflexivity|contradiction].
Qed.

Lemma SafeBloomFilter_add_room (f : SafeBloomFilter.t) (key : Buffer) :
  (IZR (SafeBloomFilter.count f) < SafeBloomFilter.capacity f)%R ->
  SafeBloomFilter.add f key
  = (SafeBloomFilter.mk (SafeBloomFilter.capacity f) (SafeBloomFilter.errorRate f)
       (SafeBloomFilter.count f + 1)
       (BloomFilter.add (SafeBloomFilter.filter f) key), true).
Proof.
  intros H. unfold SafeBloomFilter.add.
  destruct (Rge_dec _ _) as [G|_]; [lra|reflexivity].
Qed.

(** [add] answers [true] exactly when there is room. *)
Lemma SafeBloomFilter_add_true_room (f f' : SafeBloomFilter.t) (key : Buffer) :
  SafeBloomFilter.add f key = (f', true) ->
  (IZR (SafeBloomFilter.count f) < SafeBloomFilter.capacity f)%R.
Proof.
  unfold SafeBloomFilter.add.
  destruct (Rge_dec _ _) as [G|N]; [discriminate|]. intros _. lra.
Qed.

Lemma SafeBloomFilter_add_cases (f : SafeBloomFilter.t) (key : Buffer) :
  SafeBloomFilter.add f key = (f, false) \/
  SafeBloomFilter.add f key
  = (SafeBloomFilter.mk (SafeBloomFilter.capacity f) (SafeBloomFilter.errorRate f)
       (SafeBloomFilter.count f + 1)
       (BloomFilter.add (SafeBloomFilter.filter f) key), true).
Proof.
  unfold SafeBloomFilter.add. destruct (Rge_dec _ _); auto.
Qed.

Lemma SafeBloomFilter_add_wf (f : SafeBloomFilter.t) (key : Buffer) :
  SafeBloomFilter_wf f -> SafeBloomFilter_wf (fst (SafeBloomFilter.add f key)).
Proof.
  intros Hwf. destruct (SafeBloomFilter_add_cases f key) as [E|E]; rewrite E; simpl.
  - assumption.
  - now apply BloomFilter_add_wf.
Qed.

Lemma SafeBloomFilter_add_params (f : SafeBloomFilter.t) (key : Buffer) :
  SafeBloomFilter.capacity (fst (SafeBloomFilter.add f key)) = SafeBloomFilter.capacity f /\
  SafeBloomFilter.errorRate (fst (SafeBloomFilter.add f key)) = SafeBloomFilter.errorRate f.
Proof.
  destruct (SafeBloomFilter_add_cases f key) as [E|E]; rewrite E; simpl; auto.
Qed.

Lemma SafeBloomFilter_has_add (f f' : SafeBloomFilter.t) (key : Buffer) :
  SafeBloomFilter_wf f ->
  SafeBloomFilter.add f key = (f', true) -> SafeBloomFilter.has f' key = true.
Proof.
  intros Hwf Hadd.
  destruct (SafeBloomFilter_add_cases f key) as [E|E]; rewrite E in Hadd.
  - discriminate.
  - injection Hadd as <-. unfold SafeBloomFilter.has. simpl.
    now apply BloomFilter_has_add.
Qed.

Lemma SafeBloomFilter_has_mono (f : SafeBloomFilter.t) (key other : Buffer) :
  SafeBloomFilter_wf f ->
  SafeBloomFilter.has f key = true ->
  SafeBloomFilter.has (fst (SafeBloomFilter.add f other)) key = true.
Proof.
  intros Hwf Hhas.
  destruct (SafeBloomFilter_add_cases f other) as [E|E]; rewrite E; simpl.
  - assumption.
  - unfold SafeBloomFilter.has. simpl. now apply BloomFilter_has_mono.
Qed.

Lemma SafeBloomFilter_has_adds (keys : list Buffer) (f : SafeBloomFilter.t) (key : Buffer) :
  SafeBloomFilter_wf f ->
  SafeBloomFilter.has f key = true ->
  SafeBloomFilter.has (SafeBloomFilter_adds f keys) key = true.
Proof.
  unfold SafeBloomFilter_adds. revert f.
  induction keys as [|k tl IH]; intros f Hwf Hhas; simpl; [assumption|].
  apply IH; [now apply SafeBloomFilter_add_wf|now apply SafeBloomFilter_has_mono].
Qed.

(** The constructor builds a well-formed filter from a positive capacity and
    an error rate strictly between 0 and 1. *)
Lemma SafeBloomFilter_new_wf (capacity errorRate : R) (buffer : option Buffer) :
  (0 < capacity)%R -> (0 < errorRate < 1)%R ->
  SafeBloomFilter_wf (SafeBloomFilter.new (Some capacity) (Some errorRate) buffer).
Proof.
  intros Hc He. unfold SafeBloomFilter_wf, SafeBloomFilter.new.
  cbn [SafeBloomFilter.filter].
  apply BloomFilter_new_wf. now apply calculateSize_pos.
Qed.

End SafeBloomFilterFacts.

(** C2: a [SafeBloomFilter] at capacity rejects: while [count >= capacity],
    [add] returns false and leaves the whole state, hence every [has], as it
    was; while [count < capacity] it adds the key to its own filter,
    increments [count] and returns true.  So on a filter constructed with a
    whole capacity [C], of any sequence of [C + 1] adds the first [C] return
    true and the last returns false. *)
Theorem SafeBloomFilter_capacity_enforced :
  (forall (f : SafeBloomFilter.t) (key : Buffer),
     (IZR (SafeBloomFilter.count f) >= SafeBloomFilter.capacity f)%R ->
     SafeBloomFilter.add f key = (f, false) /\
     (forall k, SafeBloomFilter.has (fst (SafeBloomFilter.add f key)) k
                = SafeBloomFilter.has f k)) /\
  (forall (f : SafeBloomFilter.t) (key : Buffer),
     (IZR (SafeBloomFilter.count f) < SafeBloomFilter.capacity f)%R ->
     snd (SafeBloomFilter.add f key) = true /\
     SafeBloomFilter.count (fst (SafeBloomFilter.add f key)) = SafeBloomFilter.count f + 1 /\
     SafeBloomFilter.filter (fst (SafeBloomFilter.add f key))
     = BloomFilter.add (SafeBloomFilter.filter f) key /\
     SafeBloomFilter.capacity (fst (SafeBloomFilter.add f key)) = SafeBloomFilter.capacity f /\
     SafeBloomFilter.errorRate (fst (SafeBloomFilter.add f key)) = SafeBloomFilter.errorRate f) /\
  (forall (C : Z) (errorRate : option R) (buffer : option Buffer)
          (keys : list Buffer) (last : Buffer),
     Z.of_nat (List.length keys) = C ->
     let fresh := SafeBloomFilter.new (Some (IZR C)) errorRate buffer in
     (forall n, (n < List.length keys)%nat ->
        snd (SafeBloomFilter.add (SafeBloomFilter_adds fresh (firstn n keys))
               (nth n keys [])) = true) /\
     SafeBloomFilter.count (SafeBloomFilter_adds fresh keys) = C /\
     SafeBloomFilter.add (SafeBloomFilter_adds fresh keys) last
     = (SafeBloomFilter_adds fresh keys, false)).
Proof.
  split; [|split].
  - intros f key Hfull. rewrite SafeBloomFilter_add_full by assumption. auto.
  - intros f key Hroom. rewrite SafeBloomFilter_add_room by assumption. simpl. auto.
  - intros C errorRate buffer keys last HC fresh.
    assert (Hcap : forall l, SafeBloomFilter.capacity (SafeBloomFilter_adds fresh l) = IZR C).
    { intros l. unfold SafeBloomFilter_adds.
      assert (G : forall g, SafeBloomFilter.capacity g = IZR C ->
                  SafeBloomFilter.capacity
                    (fold_left (fun g key => fst (SafeBloomFilter.add g key)) l g) = IZR C).
      { induction l as [|k tl IH]; intros g Hg; simpl; [assumption|].
        apply IH. destruct (SafeBloomFilter_add_params g k) as [-> _]. assumption. }
      apply G. reflexivity. }
    assert (Hcount : forall l, Z.of_nat (List.length l) <= C ->
              SafeBloomFilter.count (SafeBloomFilter_adds fresh l) = Z.of_nat (List.length l)).
    { intros l. induction l as [|k tl IH] using rev_ind; intros Hl.
      - reflexivity.
      - rewrite length_app in Hl |- *. simpl in Hl |- *.
        unfold SafeBloomFilter_adds in *. rewrite fold_left_app. simpl.
        rewrite SafeBloomFilter_add_room.
        + simpl. rewrite IH by lia. lia.
        + rewrite IH by lia.
          rewrite Hcap. apply IZR_lt. lia. }
    split; [|split].
    + intros n Hn. rewrite SafeBloomFilter_add_room; [reflexivity|].
      rewrite Hcap, Hcount; rewrite length_firstn; [apply IZR_lt|]; lia.
    + rewrite Hcount; lia.
    + apply SafeBloomFilter_add_full.
      rewrite Hcap, Hcount by lia. rewrite HC. lra.
Qed.

Lemma SafeBloomFilter_capacity_enforced_witness :
  let fresh := SafeBloomFilter.new (Some 2%R) None None in
  let keys := [Buffer_from "one"; Buffer_from "two"] in
  Z.of_nat (List.length keys) = 2 /\
  SafeBloomFilter.add (SafeBloomFilter_adds fresh keys) (Buffer_from "three")
  = (SafeBloomFilter_adds fresh keys, false).
Proof.
  intros fresh keys. split; [reflexivity|].
  destruct SafeBloomFilter_capacity_enforced as (_ & _ & H).
  apply (H 2 None None keys (Buffer_from "three")). reflexivity.
Defined.

(** ** ScalingBloomFilter *)

Section ScalingBloomFilterFacts.

Lemma tail_None (l : list SafeBloomFilter.t) :
  ScalingBloomFilter.tail l = None -> l = [].
Proof.
  unfold ScalingBloomFilter.tail. intros H.
  destruct (rev l) as [|x tl] eqn:E; [|discriminate].
  apply (f_equal (@rev _)) in E. now rewrite rev_involutive in E.
Qed.

Lemma tail_Some (l : list SafeBloomFilter.t) (f : SafeBloomFilter.t) :
  ScalingBloomFilter.tail l = Some f -> l = removelast l ++ [f].
Proof.
  unfold ScalingBloomFilter.tail. intros H.
  destruct (rev l) as [|x tl] eqn:E; [discriminate|]. injection H as ->.
  apply (f_equal (@rev _)) in E. rewrite rev_involutive in E. simpl in E.
  rewrite E at 2. now rewrite removelast_last.
Qed.

Lemma tail_app (l : list SafeBloomFilter.t) (f : SafeBloomFilter.t) :
  ScalingBloomFilter.tail (l ++ [f]) = Some f.
Proof. unfold ScalingBloomFilter.tail. now rewrite rev_app_distr. Qed.

(** [has] is true exactly when some sub-filter has the key. *)
Lemma ScalingBloomFilter_has_Exists (s : ScalingBloomFilter.t) (key : Buffer) :
  ScalingBloomFilter.has s key = true
  <-> Exists (fun f => SafeBloomFilter.has f key = true) (ScalingBloomFilter.filters s).
Proof.
  unfold ScalingBloomFilter.has.
  transitivity (Exists (fun f => SafeBloomFilter.has f key = true)
                  (rev (ScalingBloomFilter.filters s))).
  - induction (rev (ScalingBloomFilter.filters s)) as [|f tl IH]; simpl.
    + split; [discriminate|]. intros H. inversion H.
    + destruct (SafeBloomFilter.has f key) eqn:E.
      * split; auto.
      * rewrite IH. split; intros H; [now right|].
        inversion H; [congruence|assumption].
  - rewrite !Exists_exists. split; intros (f & Hin & Hf); exists f; split; auto.
    + now apply in_rev.
    + now apply in_rev in Hin.
Qed.

(** On a well-formed scaling filter [add] returns (it does not raise), the
    state it leaves is well-formed and has the key, and keeps every key the
    filter had. *)
Lemma ScalingBloomFilter_add_ok (s : ScalingBloomFilter.t) (key : Buffer) :
  ScalingBloomFilter_wf s ->
  exists s' v,
    ScalingBloomFilter.add s key = Return s' v /\
    ScalingBloomFilter_wf s' /\
    ScalingBloomFilter.has s' key = true /\
    (forall k, ScalingBloomFilter.has s k = true -> ScalingBloomFilter.has s' k = true).
Proof.
  intros (Hne & Hsc & Hra & Hall).
  unfold ScalingBloomFilter.add.
  destruct (ScalingBloomFilter.tail (ScalingBloomFilter.filters s)) as [f|] eqn:Et.
  2:{ apply tail_None in Et. contradiction. }
  apply tail_Some in Et.
  set (init := removelast (ScalingBloomFilter.filters s)) in *.
  assert (Hall' := Hall). rewrite Et in Hall'.
  apply Forall_app in Hall' as [Hinit Hf].
  inversion Hf as [|? ? (Hcap & Herr & Hwf) _]; subst.
  destruct (SafeBloomFilter_add_cases f key) as [E|E]; rewrite E.
  - (* the tail is full: a new generation *)
    set (g := SafeBloomFilter.new _ _ None).
    assert (Hgcap : (0 < SafeBloomFilter.capacity f * ScalingBloomFilter.scaling s)%R)
      by (apply Rmult_lt_0_compat; assumption).
    assert (Hgerr : (0 < SafeBloomFilter.errorRate f * ScalingBloomFilter.ratio s < 1)%R)
      by nra.
    assert (Hgwf : SafeBloomFilter_wf g) by (now apply SafeBloomFilter_new_wf).
    assert (Hgadd : SafeBloomFilter.add g key
                    = (fst (SafeBloomFilter.add g key), true)).
    { rewrite SafeBloomFilter_add_room; [reflexivity|]. simpl. lra. }
    eexists _, _. split; [reflexivity|]. split; [|split].
    + split; [|split; [|split]]; simpl; try assumption.
      * intros H. apply app_eq_nil in H as [_ H]. discriminate.
      * apply Forall_app. split; [assumption|]. constructor; [|constructor].
        destruct (SafeBloomFilter_add_params g key) as [-> ->]. simpl.
        split; [assumption|]. split; [assumption|].
        now apply SafeBloomFilter_add_wf.
    + apply ScalingBloomFilter_has_Exists. simpl.
      apply Exists_app. right. constructor.
      now apply (SafeBloomFilter_has_add g).
    + intros k Hk. apply ScalingBloomFilter_has_Exists in Hk.
      apply ScalingBloomFilter_has_Exists. simpl.
      apply Exists_app. now left.
  - (* the tail accepts *)
    set (f' := SafeBloomFilter.mk _ _ _ _).
    assert (Hf' : f' = fst (SafeBloomFilter.add f key)) by (now rewrite E).
    eexists _, _. split; [reflexivity|]. split; [|split].
    + split; [|split; [|split]]; simpl; try assumption.
      * intros H. apply app_eq_nil in H as [_ H]. discriminate.
      * apply Forall_app. split; [assumption|]. constructor; [|constructor].
        simpl. split; [assumption|]. split; [assumption|].
        rewrite Hf'. now apply SafeBloomFilter_add_wf.
    + apply ScalingBloomFilter_has_Exists. simpl.
      apply Exists_app. right. constructor.
      apply (SafeBloomFilter_has_add f); assumption.
    + intros k Hk. apply ScalingBloomFilter_has_Exists in Hk.
      apply ScalingBloomFilter_has_Exists. simpl.
      rewrite Et in Hk. apply Exists_app in Hk as [Hk|Hk]; apply Exists_app.
      * now left.
      * right. inversion Hk as [? ? Hk'|? ? Hk']; [|inversion Hk'].
        constructor. rewrite Hf'. now apply SafeBloomFilter_has_mono.
Qed.

Lemma ScalingBloomFilter_adds_ok (keys : list Buffer) (s : ScalingBloomFilter.t) (key : Buffer) :
  ScalingBloomFilter_wf s ->
  ScalingBloomFilter.has s key = true ->
  ScalingBloomFilter_wf (ScalingBloomFilter_adds s keys) /\
  ScalingBloomFilter.has (ScalingBloomFilter_adds s keys) key = true.
Proof.
  unfold ScalingBloomFilter_adds. revert s.
  induction keys as [|k tl IH]; intros s Hwf Hhas; simpl; [auto|].
  destruct (ScalingBloomFilter_add_ok s k Hwf) as (s' & v & E & Hwf' & _ & Hmono).
  rewrite E. simpl. apply IH; auto.
Qed.

(** The constructor builds a well-formed scaling filter from an error rate
    and a ratio strictly between 0 and 1 and a positive scaling factor and
    initial capacity. *)
Lemma ScalingBloomFilter_new_wf (errorRate ratio scaling initialCapacity : R) :
  (0 < errorRate < 1)%R -> (0 < ratio < 1)%R -> (0 < scaling)%R ->
  (0 < initialCapacity)%R ->
  ScalingBloomFilter_wf
    (ScalingBloomFilter.new (Some errorRate)
       (Some (ScalingBloomFilter.mkOptions (Some ratio) (Some scaling)
                (Some initialCapacity)))).
Proof.
  intros He Hr Hs Hc. unfold ScalingBloomFilter.new, ScalingBloomFilter.or_default.
  cbn [ScalingBloomFilter.opt_ratio ScalingBloomFilter.opt_scaling
       ScalingBloomFilter.opt_initialCapacity].
  destruct (Req_dec_T ratio 0) as [?|_]; [lra|].
  destruct (Req_dec_T scaling 0) as [?|_]; [lra|].
  destruct (Req_dec_T initialCapacity 0) as [?|_]; [lra|].
  split; [discriminate|]. split; [assumption|]. split; [simpl; lra|].
  simpl. constructor; [|constructor].
  assert (0 < errorRate * (1 - ratio) < 1)%R by nra.
  split; [assumption|]. split; [assumption|].
  now apply SafeBloomFilter_new_wf.
Qed.

End ScalingBloomFilterFacts.

(** ** AttenuatedBloomFilter: the levels *)

Section AttenuatedLevelFacts.

Lemma add_at_wf (ls : list BloomFilter.t) (i : nat) (key : Buffer) :
  Forall BloomFilter_wf ls -> Forall BloomFilter_wf (AttenuatedBloomFilter.add_at ls i key).
Proof.
  revert i. induction ls as [|f tl IH]; intros i H; simpl.
  - destruct i; constructor.
  - inversion H; subst. destruct i; constructor; auto.
    now apply BloomFilter_add_wf.
Qed.

Lemma add_at_has_same (ls : list BloomFilter.t) (i : nat) (key : Buffer) :
  Forall BloomFilter_wf ls -> (i < List.length ls)%nat ->
  exists f, nth_error (AttenuatedBloomFilter.add_at ls i key) i = Some f /\
            BloomFilter.has f key = true.
Proof.
  revert i. induction ls as [|f tl IH]; intros i H Hi; simpl in Hi; [lia|].
  inversion H; subst. destruct i; simpl.
  - eexists. split; [reflexivity|]. now apply BloomFilter_has_add.
  - apply IH; [assumption|lia].
Qed.

Lemma add_at_has_mono (ls : list BloomFilter.t) (i j : nat) (key other : Buffer) (f : BloomFilter.t) :
  Forall BloomFilter_wf ls ->
  nth_error ls i = Some f -> BloomFilter.has f key = true ->
  exists f', nth_error (AttenuatedBloomFilter.add_at ls j other) i = Some f' /\
             BloomFilter.has f' key = true.
Proof.
  revert i j. induction ls as [|g tl IH]; intros i j H Hn Hhas.
  - destruct i; discriminate.
  - inversion H; subst. destruct i, j; simpl in *.
    + injection Hn as ->. eexists. split; [reflexivity|]. now apply BloomFilter_has_mono.
    + eauto.
    + eauto.
    + now apply IH.
Qed.

Lemma AttenuatedBloomFilter_adds_ok (calls : list (nat * Buffer))
    (a : AttenuatedBloomFilter.t) (i : nat) (key : Buffer) :
  AttenuatedBloomFilter_wf a ->
  AttenuatedBloomFilter.level_has a i key = true ->
  AttenuatedBloomFilter.level_has (AttenuatedBloomFilter_adds a calls) i key = true.
Proof.
  unfold AttenuatedBloomFilter_adds. revert a.
  induction calls as [|[j k] tl IH]; intros a Hwf Hhas; simpl; [assumption|].
  apply IH.
  - unfold AttenuatedBloomFilter_wf, AttenuatedBloomFilter.level_add. simpl.
    now apply add_at_wf.
  - unfold AttenuatedBloomFilter.level_has in *.
    destruct (nth_error (AttenuatedBloomFilter.levels a) i) as [f|] eqn:E; [|discriminate].
    destruct (add_at_has_mono _ i j key k f Hwf E Hhas) as (f' & E' & Hf').
    unfold AttenuatedBloomFilter.level_add. simpl. now rewrite E'.
Qed.

(** The constructor builds well-formed levels for any bit field size >= 1. *)
Lemma AttenuatedBloomFilter_new_wf (opts : option AttenuatedBloomFilter.options) :
  1 <= AttenuatedBloomFilter.bitfieldSize (AttenuatedBloomFilter.new opts) ->
  AttenuatedBloomFilter_wf (AttenuatedBloomFilter.new opts).
Proof.
  intros H. unfold AttenuatedBloomFilter_wf, AttenuatedBloomFilter.new in *.
  cbn [AttenuatedBloomFilter.levels AttenuatedBloomFilter.bitfieldSize] in *.
  apply Forall_forall. intros f Hin. apply repeat_spec in Hin. subst f.
  now apply BloomFilter_new_wf.
Qed.

End AttenuatedLevelFacts.

Section DefaultFilters.

Lemma SafeBloomFilter_new_default_wf :
  SafeBloomFilter_wf (SafeBloomFilter.new None None None).
Proof. apply (SafeBloomFilter_new_wf 20 (1 / 10)); lra. Qed.

Lemma ScalingBloomFilter_new_default_wf :
  ScalingBloomFilter_wf (ScalingBloomFilter.new None None).
Proof.
  unfold ScalingBloomFilter.new, ScalingBloomFilter.or_default.
  cbn [ScalingBloomFilter.opt_ratio ScalingBloomFilter.opt_scaling
       ScalingBloomFilter.opt_initialCapacity].
  split; [discriminate|]. split; [simpl; lra|]. split; [simpl; lra|].
  cbn [ScalingBloomFilter.filters]. constructor; [|constructor].
  cbn [SafeBloomFilter.new SafeBloomFilter.capacity SafeBloomFilter.errorRate].
  split; [lra|]. split; [lra|].
  apply SafeBloomFilter_new_wf; lra.
Qed.

Lemma AttenuatedBloomFilter_new_default_wf :
  AttenuatedBloomFilter_wf (AttenuatedBloomFilter.new None).
Proof. apply AttenuatedBloomFilter_new_wf. simpl. lia. Qed.

End DefaultFilters.

(** ** No false negatives *)

(** C1: after [add(k)], [has(k)] is true at once and after any further
    [add] calls, for a [BloomFilter], for a [SafeBloomFilter] whose [add]
    returned true, for a [ScalingBloomFilter] (whose [add] calls all
    return), and for a level of an [AttenuatedBloomFilter]; the filters are
    well-formed, as their constructors build them. *)
Theorem no_false_negatives :
  (forall (f : BloomFilter.t) (k : Buffer) (others : list Buffer),
     BloomFilter_wf f ->
     BloomFilter.has (BloomFilter_adds (BloomFilter.add f k) others) k = true) /\
  (forall (f f' : SafeBloomFilter.t) (k : Buffer) (others : list Buffer),
     SafeBloomFilter_wf f ->
     SafeBloomFilter.add f k = (f', true) ->
     SafeBloomFilter.has (SafeBloomFilter_adds f' others) k = true) /\
  (forall (s : ScalingBloomFilter.t) (k : Buffer) (others : list Buffer),
     ScalingBloomFilter_wf s ->
     exists s' v, ScalingBloomFilter.add s k = Return s' v /\
       ScalingBloomFilter.has (ScalingBloomFilter_adds s' others) k = true) /\
  (forall (a : AttenuatedBloomFilter.t) (i : nat) (k : Buffer)
          (others : list (nat * Buffer)),
     AttenuatedBloomFilter_wf a ->
     (i < List.length (AttenuatedBloomFilter.levels a))%nat ->
     AttenuatedBloomFilter.level_has
       (AttenuatedBloomFilter_adds (AttenuatedBloomFilter.level_add a i k) others) i k
     = true).
Proof.
  repeat split.
  - intros f k others Hwf.
    apply BloomFilter_has_adds; [now apply BloomFilter_add_wf|now apply BloomFilter_has_add].
  - intros f f' k others Hwf Hadd.
    apply SafeBloomFilter_has_adds.
    + replace f' with (fst (SafeBloomFilter.add f k)) by (now rewrite Hadd).
      now apply SafeBloomFilter_add_wf.
    + now apply (SafeBloomFilter_has_add f).
  - intros s k others Hwf.
    destruct (ScalingBloomFilter_add_ok s k Hwf) as (s' & v & E & Hwf' & Hhas & _).
    exists s', v. split; [assumption|].
    now apply ScalingBloomFilter_adds_ok.
  - intros a i k others Hwf Hi.
    apply AttenuatedBloomFilter_adds_ok.
    + unfold AttenuatedBloomFilter_wf, AttenuatedBloomFilter.level_add. simpl.
      now apply add_at_wf.
    + unfold AttenuatedBloomFilter.level_has, AttenuatedBloomFilter.level_add. simpl.
      destruct (add_at_has_same _ i k Hwf Hi) as (f & -> & Hf). assumption.
Qed.

Lemma no_false_negatives_witness :
  let foo := Buffer_from "foo" in
  let bar := Buffer_from "bar" in
  let f := BloomFilter.new (Some 16) (Some 2%R) None in
  let g := SafeBloomFilter.new None None None in
  let s := ScalingBloomFilter.new None None in
  let a := AttenuatedBloomFilter.new None in
  (BloomFilter_wf f /\
   BloomFilter.has (BloomFilter_adds (BloomFilter.add f foo) [bar]) foo = true) /\
  (SafeBloomFilter_wf g /\
   snd (SafeBloomFilter.add g foo) = true /\
   SafeBloomFilter.has (SafeBloomFilter_adds (fst (SafeBloomFilter.add g foo)) [bar]) foo
   = true) /\
  (ScalingBloomFilter_wf s /\
   exists s' v, ScalingBloomFilter.add s foo = Return s' v /\
     ScalingBloomFilter.has (ScalingBloomFilter_adds s' [bar]) foo = true) /\
  (AttenuatedBloomFilter_wf a /\
   (1 < List.length (AttenuatedBloomFilter.levels a))%nat /\
   AttenuatedBloomFilter.level_has
     (AttenuatedBloomFilter_adds (AttenuatedBloomFilter.level_add a 1 foo) [(1%nat, bar)])
     1 foo = true).
Proof.
  intros foo bar f g s a.
  destruct no_false_negatives as (H1 & H2 & H3 & H4).
  assert (Hf : BloomFilter_wf f) by (split; [simpl; lia|reflexivity]).
  assert (Hg : SafeBloomFilter_wf g) by exact SafeBloomFilter_new_default_wf.
  assert (Hadd : SafeBloomFilter.add g foo = (fst (SafeBloomFilter.add g foo), true)).
  { rewrite SafeBloomFilter_add_room; [reflexivity|]. simpl. lra. }
  assert (Hs : ScalingBloomFilter_wf s) by exact ScalingBloomFilter_new_default_wf.
  assert (Ha : AttenuatedBloomFilter_wf a) by exact AttenuatedBloomFilter_new_default_wf.
  split; [|split; [|split]].
  - split; [exact Hf|]. apply H1. exact Hf.
  - split; [exact Hg|]. split; [now rewrite Hadd|].
    apply (H2 g _ foo [bar] Hg Hadd).
  - split; [exact Hs|]. apply H3. exact Hs.
  - split; [exact Ha|]. split; [simpl; lia|]. apply H4; [exact Ha|simpl; lia].
Defined.

(** ** AttenuatedBloomFilter: merge *)

Section MergeFacts.

(** With a whole slice count the filter operations run on the indices of
    [hash_indices]. *)
Lemma BloomFilter_has_whole (f : BloomFilter.t) (n : nat) (key : Buffer) :
  BloomFilter.slices f = IZR (Z.of_nat n) ->
  BloomFilter.has f key
  = BloomFilter.has_loop (BloomFilter.bitfield f) (hash_indices key (BloomFilter.size f) n).
Proof.
  intros E. unfold BloomFilter.has.
  now rewrite calulateHashes_eq, E, Math_ceil_IZR, Nat2Z.id.
Qed.

Lemma BloomFilter_add_whole (f : BloomFilter.t) (n : nat) (key : Buffer) :
  BloomFilter.slices f = IZR (Z.of_nat n) ->
  BloomFilter.add f key
  = BloomFilter.mk (BloomFilter.size f) (BloomFilter.slices f)
      (BloomFilter.add_loop (BloomFilter.bitfield f)
         (hash_indices key (BloomFilter.size f) n)).
Proof.
  intros E. unfold BloomFilter.add.
  now rewrite calulateHashes_eq, E, Math_ceil_IZR, Nat2Z.id.
Qed.

End MergeFacts.

(** C4: two fresh attenuated filters of the default depth 3, each with
    'foo' added at level 0, 'bar' at level 1 and 'baz' at level 2.  The
    merge of the second into the first returns; afterwards level 0 has
    'foo' and not 'bar' and is as it was, level 1 has 'foo' and not 'baz',
    level 2 has 'bar' and not 'foo'. *)
Theorem merge_scenario :
  let foo := Buffer_from "foo" in
  let bar := Buffer_from "bar" in
  let baz := Buffer_from "baz" in
  let fill a :=
    AttenuatedBloomFilter.level_add
      (AttenuatedBloomFilter.level_add
         (AttenuatedBloomFilter.level_add a 0 foo) 1 bar) 2 baz in
  let A := fill (AttenuatedBloomFilter.new None) in
  let B := fill (AttenuatedBloomFilter.new None) in
  exists A',
    AttenuatedBloomFilter.merge A B = Return A' tt /\
    List.length (AttenuatedBloomFilter.levels A') = 3%nat /\
    AttenuatedBloomFilter.level_has A' 0 foo = true /\
    AttenuatedBloomFilter.level_has A' 0 bar = false /\
    AttenuatedBloomFilter.level_has A' 1 foo = true /\
    AttenuatedBloomFilter.level_has A' 1 baz = false /\
    AttenuatedBloomFilter.level_has A' 2 bar = true /\
    AttenuatedBloomFilter.level_has A' 2 foo = false /\
    nth_error (AttenuatedBloomFilter.levels A') 0
    = nth_error (AttenuatedBloomFilter.levels A) 0.
Proof.
  intros foo bar baz fill A B.
  eexists. split.
  - subst A B fill.
    cbv [AttenuatedBloomFilter.merge AttenuatedBloomFilter.level_add
         AttenuatedBloomFilter.new AttenuatedBloomFilter.or_default
         AttenuatedBloomFilter.opt_bitfieldSize AttenuatedBloomFilter.opt_filterDepth
         AttenuatedBloomFilter.levels AttenuatedBloomFilter.bitfieldSize
         AttenuatedBloomFilter.filterDepth AttenuatedBloomFilter.add_at
         AttenuatedBloomFilter.merge_loop
         Z.to_nat Pos.to_nat Pos.iter_op Nat.add repeat nth_error].
    reflexivity.
  - repeat match goal with |- _ /\ _ => split end.
    8: subst A B fill; reflexivity.
    all: cbv [AttenuatedBloomFilter.level_has AttenuatedBloomFilter.levels nth_error
              List.length].
    all: try rewrite !(BloomFilter_has_whole _ 2) by reflexivity.
    all: cbv [BloomFilter.bitfield BloomFilter.size BloomFilter.new].
    all: try rewrite !(BloomFilter_add_whole _ 2) by reflexivity.
    all: cbv [BloomFilter.bitfield BloomFilter.size Bitfield.buffer].
    all: vm_compute; reflexivity.
Qed.

(** ** The sizing helpers *)

Section SizingFacts.

Lemma Math_ceil_le (x : R) (n : Z) : (x <= IZR n)%R -> Math_ceil x <= n.
Proof.
  intros H. destruct (Math_ceil_spec x) as [H1 _].
  assert (Hlt : (IZR (Math_ceil x) < IZR (n + 1))%R) by (rewrite plus_IZR; lra).
  apply lt_IZR in Hlt. lia.
Qed.

Lemma Math_ceil_gt (x : R) (n : Z) : (IZR n < x)%R -> n < Math_ceil x.
Proof.
  intros H. destruct (Math_ceil_spec x) as [_ H2].
  apply lt_IZR. lra.
Qed.

Lemma Math_ceil_mono (x y : R) : (x <= y)%R -> Math_ceil x <= Math_ceil y.
Proof.
  intros H. apply Math_ceil_le.
  destruct (Math_ceil_spec y) as [_ H2]. lra.
Qed.

(** [ln x >= 1 - 1/x] *)
Lemma ln_lower (x : R) : (0 < x)%R -> (1 - / x <= ln x)%R.
Proof.
  intros Hx. pose proof (exp_ineq1_le (- ln x)) as H.
  rewrite exp_Ropp, exp_ln in H by assumption. lra.
Qed.

Lemma ln_monotone (x y : R) : (0 < x)%R -> (x <= y)%R -> (ln x <= ln y)%R.
Proof.
  intros Hx [Hlt|Heq].
  - left. now apply ln_increasing.
  - subst y. lra.
Qed.

Lemma ln_square_le (a b : R) : (0 < a)%R -> (a * a <= b)%R -> (2 * ln a <= ln b)%R.
Proof.
  intros Ha Hab.
  replace (2 * ln a)%R with (ln (a * a)) by (rewrite ln_mult by assumption; lra).
  apply ln_monotone; [nra|assumption].
Qed.

Lemma last_cons_default (q p : Z) (tl : list Z) : last (q :: tl) p = last tl q.
Proof.
  revert q p. induction tl as [|x tl IH]; intros q p; [reflexivity|].
  change (last (q :: x :: tl) p) with (last (x :: tl) p).
  now rewrite !IH.
Qed.

Lemma sqrt_chain_ln (D : Z) (l : list Z) :
  0 < D -> forall p, 0 < p -> sqrt_chain_ok D p l = true ->
  (2 ^ List.length l * ln (IZR (last l p) / IZR D) <= ln (IZR p / IZR D))%R.
Proof.
  intros HD. assert (HDr : (0 < IZR D)%R) by (now apply IZR_lt).
  induction l as [|q tl IH]; intros p Hp Hok.
  - simpl. lra.
  - simpl in Hok. apply andb_prop in Hok as [Hok Htl].
    apply andb_prop in Hok as [Hq Hsq].
    apply Z.ltb_lt in Hq. apply Z.leb_le in Hsq.
    specialize (IH q Hq Htl).
    rewrite last_cons_default.
    assert (Hqr : (0 < IZR q)%R) by (now apply IZR_lt).
    assert (Hstep : (2 * ln (IZR q / IZR D) <= ln (IZR p / IZR D))%R).
    { apply ln_square_le.
      - now apply Rdiv_lt_0_compat.
      - apply IZR_le in Hsq. rewrite !mult_IZR in Hsq.
        unfold Rdiv.
        apply Rmult_le_reg_r with (IZR D * IZR D)%R; [nra|].
        replace (IZR q * / IZR D * (IZR q * / IZR D) * (IZR D * IZR D))%R
          with (IZR q * IZR q)%R by (field; lra).
        replace (IZR p * / IZR D * (IZR D * IZR D))%R
          with (IZR p * IZR D)%R by (field; lra).
        exact Hsq. }
    change (List.length (q :: tl)) with (S (List.length tl)).
    rewrite <- tech_pow_Rmult.
    lra.
Qed.

Lemma ln_upper (x : R) : (0 < x)%R -> (ln x <= x - 1)%R.
Proof.
  intros Hx. pose proof (exp_ineq1_le (x - 1)) as H.
  replace (1 + (x - 1))%R with x in H by ring.
  rewrite <- (ln_exp (x - 1)). now apply ln_monotone.
Qed.

Lemma ln_square_ge (a b : R) : (0 < a)%R -> (0 < b)%R -> (b <= a * a)%R -> (ln b <= 2 * ln a)%R.
Proof.
  intros Ha Hb Hab.
  replace (2 * ln a)%R with (ln (a * a)) by (rewrite ln_mult by assumption; lra).
  now apply ln_monotone.
Qed.

Lemma sqrt_chain_above_ln (D : Z) (l : list Z) :
  0 < D -> forall p, 0 < p -> sqrt_chain_above D p l = true ->
  (ln (IZR p / IZR D) <= 2 ^ List.length l * ln (IZR (last l p) / IZR D))%R.
Proof.
  intros HD. assert (HDr : (0 < IZR D)%R) by (now apply IZR_lt).
  induction l as [|q tl IH]; intros p Hp Hok.
  - simpl. lra.
  - simpl in Hok. apply andb_prop in Hok as [Hok Htl].
    apply andb_prop in Hok as [Hq Hsq].
    apply Z.ltb_lt in Hq. apply Z.leb_le in Hsq.
    specialize (IH q Hq Htl).
    rewrite last_cons_default.
    assert (Hqr : (0 < IZR q)%R) by (now apply IZR_lt).
    assert (Hpr : (0 < IZR p)%R) by (now apply IZR_lt).
    assert (Hstep : (ln (IZR p / IZR D) <= 2 * ln (IZR q / IZR D))%R).
    { apply ln_square_ge.
      - now apply Rdiv_lt_0_compat.
      - now apply Rdiv_lt_0_compat.
      - apply IZR_le in Hsq. rewrite !mult_IZR in Hsq.
        unfold Rdiv.
        apply Rmult_le_reg_r with (IZR D * IZR D)%R; [nra|].
        replace (IZR q * / IZR D * (IZR q * / IZR D) * (IZR D * IZR D))%R
          with (IZR q * IZR q)%R by (field; lra).
        replace (IZR p * / IZR D * (IZR D * IZR D))%R
          with (IZR p * IZR D)%R by (field; lra).
        exact Hsq. }
    change (List.length (q :: tl)) with (S (List.length tl)).
    rewrite <- tech_pow_Rmult.
    lra.
Qed.

(** [ln 2] to twenty decimal places. *)
Lemma ln_2_bounds :
  (69314718055994530941 / 100000000000000000000 <= ln 2
   <= 69314718055994530942 / 100000000000000000000)%R.
Proof.
  assert (HD : IZR (10 ^ 52) = 10000000000000000000000000000000000000000000000000000%R)
    by (apply IZR_eq; reflexivity).
  assert (H2 : (IZR (2 * 10 ^ 52) / IZR (10 ^ 52) = 2)%R).
  { rewrite mult_IZR. field. apply not_0_IZR. lia. }
  split.
  - pose proof (sqrt_chain_ln (10 ^ 52) sqrt2_below ltac:(lia) (2 * 10 ^ 52) ltac:(lia)
                  ltac:(vm_compute; reflexivity)) as H.
    rewrite H2 in H.
    set (pk := last sqrt2_below (2 * 10 ^ 52)) in H.
    assert (Epk : pk = 10000000000000000000005871184992306991486353231812089) by (vm_compute; reflexivity).
    assert (Hlen : List.length sqrt2_below = 70%nat) by reflexivity.
    rewrite Hlen in H.
    assert (Hpos : (0 < IZR pk / IZR (10 ^ 52))%R).
    { rewrite Epk. apply Rdiv_lt_0_compat; apply IZR_lt; lia. }
    pose proof (ln_lower _ Hpos) as Hl.
    assert (Hnum : (69314718055994530941 / 100000000000000000000
                    <= 2 ^ 70 * (1 - / (IZR pk / IZR (10 ^ 52))))%R).
    { rewrite Epk, HD, Rinv_div. lra. }
    assert (Hmul : (2 ^ 70 * (1 - / (IZR pk / IZR (10 ^ 52)))
                    <= 2 ^ 70 * ln (IZR pk / IZR (10 ^ 52)))%R).
    { apply Rmult_le_compat_l; [|exact Hl]. apply pow_le. lra. }
    lra.
  - pose proof (sqrt_chain_above_ln (10 ^ 52) sqrt2_above ltac:(lia) (2 * 10 ^ 52) ltac:(lia)
                  ltac:(vm_compute; reflexivity)) as H.
    rewrite H2 in H.
    set (pk := last sqrt2_above (2 * 10 ^ 52)) in H.
    assert (Epk : pk = 10000000000000000000005871184992306991486353231812091) by (vm_compute; reflexivity).
    assert (Hlen : List.length sqrt2_above = 70%nat) by reflexivity.
    rewrite Hlen in H.
    assert (Hpos : (0 < IZR pk / IZR (10 ^ 52))%R).
    { rewrite Epk. apply Rdiv_lt_0_compat; apply IZR_lt; lia. }
    pose proof (ln_upper _ Hpos) as Hl.
    assert (Hnum : (2 ^ 70 * (IZR pk / IZR (10 ^ 52) - 1)
                    <= 69314718055994530942 / 100000000000000000000)%R).
    { rewrite Epk, HD. lra. }
    assert (Hmul : (2 ^ 70 * ln (IZR pk / IZR (10 ^ 52))
                    <= 2 ^ 70 * (IZR pk / IZR (10 ^ 52) - 1))%R).
    { apply Rmult_le_compat_l; [|exact Hl]. apply pow_le. lra. }
    lra.
Qed.

(** [0.69314718 <= ln 2] *)
Lemma ln_2_lower : (69314718 / 100000000 <= ln 2)%R.
Proof. destruct ln_2_bounds as [H _]. lra. Qed.

End SizingFacts.

(** ** The sizing helpers, rounded *)

Section SizingRounded.

Local Open Scope R_scope.

Lemma slack_lower :
  1 - Double.slack
  <= (1 - 2 * Double.ulp) * (1 - Double.ulp) * (1 - Double.ulp) / (1 + Double.ulp).
Proof. unfold Double.ulp, Double.slack. lra. Qed.

Lemma slack_upper :
  (1 + 2 * Double.ulp) * (1 + Double.ulp) * (1 + Double.ulp) / (1 - Double.ulp)
  <= 1 + Double.slack.
Proof. unfold Double.ulp, Double.slack. lra. Qed.

Lemma slack_cube :
  1 - Double.slack <= (1 - Double.ulp) * (1 - Double.ulp) * (1 - Double.ulp) /\
  (1 + Double.ulp) * (1 + Double.ulp) * (1 + Double.ulp) <= 1 + Double.slack.
Proof. unfold Double.ulp, Double.slack. lra. Qed.

Lemma div_between (x y x1 x2 y1 y2 : R) :
  0 <= x1 <= x -> x <= x2 -> 0 < y1 <= y -> y <= y2 ->
  x1 / y2 <= x / y <= x2 / y1.
Proof.
  intros [Hx1 Hx] Hx2 [Hy1 Hy] Hy2.
  assert (Hi1 : / y2 <= / y) by (apply Rinv_le_contravar; lra).
  assert (Hi2 : / y <= / y1) by (apply Rinv_le_contravar; lra).
  assert (Hp1 : 0 < / y2) by (apply Rinv_0_lt_compat; lra).
  assert (Hp : 0 < / y) by (apply Rinv_0_lt_compat; lra).
  unfold Rdiv. split.
  - apply Rle_trans with (x1 * / y); [apply Rmult_le_compat_l | apply Rmult_le_compat_r]; lra.
  - apply Rle_trans with (x2 * / y); [apply Rmult_le_compat_r | apply Rmult_le_compat_l]; lra.
Qed.

(** The constant of the code is within one rounding of 0.480453. *)
Lemma log2sq_bounds :
  480453 / 1000000 * (1 - Double.ulp) <= log2sq <= 480453 / 1000000 * (1 + Double.ulp).
Proof. apply round_bounds_pos. lra. Qed.

(** The double of [calculateSize] for any logarithm [L] that the engine may
    return, up to a relative error of [2^-52]: it is within a relative
    error of [2^-50] of [capacity * ln(errorRate) / -0.480453]. *)
Lemma sizing_value_bounds (capacity errorRate L : R) :
  0 < capacity -> 0 < errorRate < 1 ->
  Rabs (L - ln errorRate) <= 2 * Double.ulp * Rabs (ln errorRate) ->
  let ideal := capacity * ln errorRate / - (480453 / 1000000) in
  ideal * (1 - Double.slack)
  <= Double.div (Double.mul capacity L) (- log2sq)
  <= ideal * (1 + Double.slack).
Proof.
  intros Hc He HLerr ideal.
  pose proof (ln_below_1 errorRate He) as Hln.
  set (a := - ln errorRate). assert (Ha : 0 < a) by (unfold a; lra).
  set (u := Double.ulp) in *. assert (Hu : 0 < u < 1 / 4) by (unfold u, Double.ulp; lra).
  (* the logarithm *)
  rewrite (Rabs_left (ln errorRate)) in HLerr by exact Hln. fold a in HLerr.
  assert (HL' : a * (1 - 2 * u) <= - L <= a * (1 + 2 * u)).
  { unfold Rabs in HLerr. destruct (Rcase_abs (L - ln errorRate)); unfold a in *; lra. }
  assert (HL0 : L < 0) by nra.
  (* the product *)
  assert (HcL : capacity * L < 0) by nra.
  pose proof (round_bounds_neg (capacity * L) HcL) as HP.
  fold (Double.mul capacity L) in HP. fold u in HP.
  set (p := Double.mul capacity L) in *.
  set (B := capacity * a). assert (HB : 0 < B) by (unfold B; nra).
  assert (HP' : B * ((1 - 2 * u) * (1 - u)) <= - p <= B * ((1 + 2 * u) * (1 + u))).
  { unfold B. split.
    - apply Rle_trans with (capacity * (- L) * (1 - u)); [|lra].
      replace (capacity * a * ((1 - 2 * u) * (1 - u)))
        with (capacity * (a * (1 - 2 * u)) * (1 - u)) by ring.
      apply Rmult_le_compat_r; [lra|]. apply Rmult_le_compat_l; lra.
    - apply Rle_trans with (capacity * (- L) * (1 + u)); [lra|].
      replace (capacity * a * ((1 + 2 * u) * (1 + u)))
        with (capacity * (a * (1 + 2 * u)) * (1 + u)) by ring.
      apply Rmult_le_compat_r; [lra|]. apply Rmult_le_compat_l; lra. }
  (* the quotient *)
  pose proof log2sq_bounds as Hk. fold u in Hk. pose proof log2sq_pos as Hk0.
  set (k := 480453 / 1000000) in *. assert (Hkpos : 0 < k) by (unfold k; lra).
  assert (Hq : B * ((1 - 2 * u) * (1 - u)) / (k * (1 + u)) <= p / - log2sq
               <= B * ((1 + 2 * u) * (1 + u)) / (k * (1 - u))).
  { replace (p / - log2sq) with (- p / log2sq) by (field; lra).
    apply div_between; try lra.
    - split; [|lra]. apply Rmult_le_pos; [lra|]. apply Rmult_le_pos; lra.
    - split; [|lra]. apply Rmult_lt_0_compat; lra. }
  assert (Hq0 : 0 < p / - log2sq).
  { eapply Rlt_le_trans; [|apply Hq].
    apply Rdiv_lt_0_compat; [|apply Rmult_lt_0_compat; lra].
    apply Rmult_lt_0_compat; [lra|]. apply Rmult_lt_0_compat; lra. }
  pose proof (round_bounds_pos (p / - log2sq) Hq0) as Hv.
  fold (Double.div p (- log2sq)) in Hv. fold u in Hv.
  set (q := p / - log2sq) in *.
  set (v := Double.div p (- log2sq)) in *.
  assert (Hideal : ideal = B / k).
  { unfold ideal, B, a. fold k. field. lra. }
  rewrite Hideal.
  assert (HBk : 0 < B / k) by (apply Rdiv_lt_0_compat; lra).
  pose proof slack_lower as Hs1. pose proof slack_upper as Hs2.
  fold u in Hs1, Hs2. split.
  - apply Rle_trans with (B / k * ((1 - 2 * u) * (1 - u) * (1 - u) / (1 + u))).
    + apply Rmult_le_compat_l; lra.
    + apply Rle_trans with (q * (1 - u)); [|lra].
      replace (B / k * ((1 - 2 * u) * (1 - u) * (1 - u) / (1 + u)))
        with (B * ((1 - 2 * u) * (1 - u)) / (k * (1 + u)) * (1 - u)) by (field; lra).
      apply Rmult_le_compat_r; lra.
  - apply Rle_trans with (B / k * ((1 + 2 * u) * (1 + u) * (1 + u) / (1 - u))).
    + apply Rle_trans with (q * (1 + u)); [lra|].
      replace (B / k * ((1 + 2 * u) * (1 + u) * (1 + u) / (1 - u)))
        with (B * ((1 + 2 * u) * (1 + u)) / (k * (1 - u)) * (1 + u)) by (field; lra).
      apply Rmult_le_compat_r; lra.
    + apply Rmult_le_compat_l; lra.
Qed.

(** The double whose ceiling [calculateSize] returns is within a relative
    error of [2^-50] of [capacity * ln(errorRate) / -0.480453]. *)
Lemma calculateSize_value_bounds (capacity errorRate : R) :
  0 < capacity -> 0 < errorRate < 1 ->
  let ideal := capacity * ln errorRate / - (480453 / 1000000) in
  ideal * (1 - Double.slack)
  <= Double.div (Double.mul capacity (Math_log errorRate)) (- log2sq)
  <= ideal * (1 + Double.slack).
Proof.
  intros Hc He. apply sizing_value_bounds; try assumption.
  pose proof (round_error (ln errorRate)) as H. fold (Math_log errorRate) in H.
  pose proof (Rabs_pos (ln errorRate)). unfold Double.ulp in *. lra.
Qed.

(** [calculateSize] against the real quantity with the constant of the
    code. *)
Lemma calculateSize_near (capacity errorRate : R) :
  0 < capacity -> 0 < errorRate < 1 ->
  let ideal := capacity * ln errorRate / - (480453 / 1000000) in
  ideal * (1 - Double.slack) <= IZR (calculateSize capacity errorRate)
  < ideal * (1 + Double.slack) + 1.
Proof.
  intros Hc He ideal.
  pose proof (calculateSize_value_bounds capacity errorRate Hc He) as Hv.
  fold ideal in Hv.
  destruct (Math_ceil_spec
              (Double.div (Double.mul capacity (Math_log errorRate)) (- log2sq))) as [H1 H2].
  fold (calculateSize capacity errorRate) in H1, H2. lra.
Qed.

(** [calculateSlices] is within three roundings of
    [(size / capacity) * ln 2]. *)
Lemma calculateSlices_near (size capacity : R) :
  0 < size -> 0 < capacity ->
  size / capacity * ln 2 * (1 - Double.slack)
  <= calculateSlices size capacity
  <= size / capacity * ln 2 * (1 + Double.slack).
Proof.
  intros Hs Hc. unfold calculateSlices.
  set (u := Double.ulp). assert (Hu : 0 < u < 1 / 2) by (unfold u, Double.ulp; lra).
  pose proof ln_2_pos as H2.
  assert (Hr : 0 < size / capacity) by now apply Rdiv_lt_0_compat.
  pose proof (round_bounds_pos (size / capacity) Hr) as Hq.
  fold (Double.div size capacity) in Hq. fold u in Hq.
  set (q := Double.div size capacity) in *.
  pose proof (round_bounds_pos (ln 2) H2) as HL. fold (Math_log 2) in HL. fold u in HL.
  set (L := Math_log 2) in *.
  assert (Hq0 : 0 < q) by nra. assert (HL0 : 0 < L) by nra.
  assert (HqL : 0 < q * L) by now apply Rmult_lt_0_compat.
  pose proof (round_bounds_pos (q * L) HqL) as Hv. fold (Double.mul q L) in Hv. fold u in Hv.
  set (r := size / capacity) in *. set (l := ln 2) in *.
  assert (Hrl : 0 < r * l) by now apply Rmult_lt_0_compat.
  assert (Hprod : r * l * ((1 - u) * (1 - u)) <= q * L <= r * l * ((1 + u) * (1 + u))).
  { split.
    - apply Rle_trans with (r * (1 - u) * L).
      + replace (r * l * ((1 - u) * (1 - u))) with (r * (1 - u) * (l * (1 - u))) by ring.
        apply Rmult_le_compat_l; [nra | lra].
      + apply Rmult_le_compat_r; lra.
    - apply Rle_trans with (r * (1 + u) * L).
      + apply Rmult_le_compat_r; lra.
      + replace (r * l * ((1 + u) * (1 + u))) with (r * (1 + u) * (l * (1 + u))) by ring.
        apply Rmult_le_compat_l; [nra | lra]. }
  destruct slack_cube as [Hs1 Hs2]. fold u in Hs1, Hs2. split.
  - apply Rle_trans with (r * l * ((1 - u) * (1 - u) * (1 - u))).
    + apply Rmult_le_compat_l; lra.
    + apply Rle_trans with (q * L * (1 - u)); [|lra].
      replace (r * l * ((1 - u) * (1 - u) * (1 - u)))
        with (r * l * ((1 - u) * (1 - u)) * (1 - u)) by ring.
      apply Rmult_le_compat_r; lra.
  - apply Rle_trans with (r * l * ((1 + u) * (1 + u) * (1 + u))).
    + apply Rle_trans with (q * L * (1 + u)); [lra|].
      replace (r * l * ((1 + u) * (1 + u) * (1 + u)))
        with (r * l * ((1 + u) * (1 + u)) * (1 + u)) by ring.
      apply Rmult_le_compat_r; lra.
    + apply Rmult_le_compat_l; lra.
Qed.

End SizingRounded.

Section SizingSquare.

(** The constant of the code is below the exact square. *)
Lemma log2sq_below : (log2sq < ln 2 * ln 2)%R.
Proof.
  pose proof ln_2_lower. pose proof log2sq_bounds as [_ H1].
  unfold Double.ulp in H1. nra.
Qed.

Lemma literal_below : (480453 / 1000000 < ln 2 * ln 2)%R.
Proof. pose proof ln_2_lower. nra. Qed.

Lemma ln_half : ln (1 / 2) = (- ln 2)%R.
Proof.
  replace (1 / 2)%R with (/ 2)%R by lra. apply ln_Rinv. lra.
Qed.

(** The size of the code is never below the size with the exact square. *)
Lemma sizeForCapacity_le (capacity errorRate : R) :
  (0 < capacity)%R -> (0 < errorRate < 1)%R ->
  sizeForCapacity capacity errorRate <= calculateSize capacity errorRate.
Proof.
  intros Hc He. unfold sizeForCapacity, calculateSize. apply Math_ceil_mono.
  pose proof (calculateSize_value_bounds capacity errorRate Hc He) as [Hv _].
  eapply Rle_trans; [|exact Hv].
  pose proof (ln_below_1 errorRate He) as Hln.
  pose proof ln_2_lower as HL.
  set (P := (capacity * - ln errorRate)%R).
  assert (HP : (0 <= P)%R) by (unfold P; nra).
  replace (capacity * ln errorRate / - (ln 2 * ln 2))%R with (P * / (ln 2 * ln 2))%R
    by (unfold P; field; nra).
  replace (capacity * ln errorRate / - (480453 / 1000000) * (1 - Double.slack))%R
    with (P * ((1 - Double.slack) * / (480453 / 1000000)))%R
    by (unfold P; field; lra).
  apply Rmult_le_compat_l; [exact HP|].
  apply Rle_trans with (/ (48045301 / 100000000))%R.
  - apply Rinv_le_contravar; nra.
  - unfold Double.slack. lra.
Qed.

End SizingSquare.

(** ** Values of roundings *)

Section RoundingValues.

Local Open Scope R_scope.

Lemma pow2_lt (a b : Z) : (a < b)%Z -> Double.pow2 a < Double.pow2 b.
Proof.
  intros H. unfold Double.pow2. apply Rpower_lt; [lra|]. now apply IZR_lt.
Qed.

Lemma exponent_unique (x : R) (e : Z) :
  Double.pow2 e <= Rabs x < Double.pow2 (e + 1) -> Double.exponent x = e.
Proof.
  intros [Hlo Hhi]. pose proof (pow2_pos e) as Hp.
  assert (Hx : x <> 0).
  { intros ->. rewrite Rabs_R0 in Hlo. lra. }
  destruct (exponent_spec x Hx) as [Hlo' Hhi'].
  destruct (Z.lt_trichotomy (Double.exponent x) e) as [Hlt | [Heq | Hgt]];
    [exfalso | exact Heq | exfalso].
  - pose proof (pow2_le (Double.exponent x + 1) e ltac:(lia)). lra.
  - pose proof (pow2_le (e + 1) (Double.exponent x) ltac:(lia)). lra.
Qed.

Lemma round_even_near (m : R) (n : Z) :
  Rabs (IZR n - m) < 1 / 2 -> Double.round_even m = n.
Proof.
  intros H. pose proof (round_even_spec m) as Hs.
  assert (Hd : Rabs (IZR (Double.round_even m) - IZR n) < 1).
  { replace (IZR (Double.round_even m) - IZR n)
      with ((IZR (Double.round_even m) - m) + - (IZR n - m)) by ring.
    eapply Rle_lt_trans; [apply Rabs_triang|]. rewrite Rabs_Ropp. lra. }
  rewrite <- minus_IZR in Hd.
  assert (Hz : (Double.round_even m - n = 0)%Z).
  { apply one_IZR_lt1. now apply Rabs_def2 in Hd. }
  lia.
Qed.

Lemma pow2_IZR (k : Z) : (0 <= k)%Z -> Double.pow2 k = IZR (2 ^ k).
Proof.
  intros Hk. rewrite <- (Z2Nat.id k) by exact Hk.
  rewrite pow2_nat, <- pow_IZR. reflexivity.
Qed.

Lemma pow2_frac (k : Z) :
  Double.pow2 k = IZR (2 ^ Z.max 0 k) / IZR (2 ^ Z.max 0 (- k)).
Proof.
  destruct (Z.le_gt_cases 0 k) as [H | H].
  - rewrite Z.max_r by exact H. rewrite Z.max_l by lia.
    rewrite pow2_IZR by exact H. simpl. field.
  - rewrite Z.max_l by lia. rewrite Z.max_r by lia.
    replace k with (- - k)%Z at 1 by lia. rewrite pow2_opp, pow2_IZR by lia.
    simpl (2 ^ 0)%Z. field.
    apply not_0_IZR. pose proof (Z.pow_pos_nonneg 2 (- k) ltac:(lia) ltac:(lia)). lia.
Qed.

(** The check is sound: it gives the value of the rounding. *)
Lemma round_check_sound (p q e n : Z) :
  round_check p q e n = true ->
  Double.round (IZR p / IZR q) = IZR n * Double.pow2 (e - 52).
Proof.
  unfold round_check. intros H.
  apply andb_prop in H as [H Habs]. apply andb_prop in H as [H Hhi].
  apply andb_prop in H as [Hq Hlo].
  apply Z.ltb_lt in Hq, Hhi, Habs. apply Z.leb_le in Hlo.
  set (A := (2 ^ Z.max 0 (52 - e))%Z) in *. set (B := (2 ^ Z.max 0 (e - 52))%Z) in *.
  assert (HA : (0 < A)%Z) by (apply Z.pow_pos_nonneg; lia).
  assert (HB : (0 < B)%Z) by (apply Z.pow_pos_nonneg; lia).
  assert (HqR : 0 < IZR q) by now apply IZR_lt.
  assert (HAR : 0 < IZR A) by now apply IZR_lt.
  assert (HBR : 0 < IZR B) by now apply IZR_lt.
  assert (Hb : 0 < IZR q * IZR B) by now apply Rmult_lt_0_compat.
  set (x := IZR p / IZR q).
  assert (Hscale : Double.pow2 (52 - e) = IZR A / IZR B).
  { rewrite pow2_frac. unfold A, B. now replace (- (52 - e))%Z with (e - 52)%Z by lia. }
  assert (Hback : Double.pow2 (e - 52) = IZR B / IZR A).
  { rewrite pow2_frac. unfold A, B. now replace (- (e - 52))%Z with (52 - e)%Z by lia. }
  set (m := x * Double.pow2 (52 - e)).
  assert (Em : m = IZR (p * A) / IZR (q * B)).
  { unfold m, x. rewrite Hscale, !mult_IZR. field. lra. }
  assert (Hm1 : 4503599627370496 <= m).
  { rewrite Em. apply Rmult_le_reg_r with (IZR (q * B)); [rewrite mult_IZR; lra|].
    unfold Rdiv. rewrite Rmult_assoc, Rinv_l by (rewrite mult_IZR; lra).
    rewrite Rmult_1_r. apply IZR_le in Hlo. rewrite mult_IZR in Hlo.
    change (IZR (2 ^ 52)) with 4503599627370496 in Hlo. exact Hlo. }
  assert (Hm2 : m < 9007199254740992).
  { rewrite Em. apply Rmult_lt_reg_r with (IZR (q * B)); [rewrite mult_IZR; lra|].
    unfold Rdiv. rewrite Rmult_assoc, Rinv_l by (rewrite mult_IZR; lra).
    rewrite Rmult_1_r. apply IZR_lt in Hhi. rewrite (mult_IZR (2 ^ 53)) in Hhi.
    change (IZR (2 ^ 53)) with 9007199254740992 in Hhi. exact Hhi. }
  assert (Hn : Rabs (IZR n - m) < 1 / 2).
  { rewrite Em.
    replace (IZR n - IZR (p * A) / IZR (q * B))
      with (IZR (2 * (n * (q * B) - p * A)) * / (2 * IZR (q * B))).
    2:{ rewrite !mult_IZR, minus_IZR, !mult_IZR. field. lra. }
    rewrite Rabs_mult, <- abs_IZR.
    rewrite (Rabs_pos_eq (/ (2 * IZR (q * B)))).
    2:{ left. apply Rinv_0_lt_compat. rewrite mult_IZR. lra. }
    apply IZR_lt in Habs.
    apply Rmult_lt_reg_r with (2 * IZR (q * B)); [rewrite mult_IZR; lra|].
    rewrite Rmult_assoc, Rinv_l by (rewrite mult_IZR; lra).
    lra. }
  assert (Ex : x = m * Double.pow2 (e - 52)).
  { unfold m. rewrite Rmult_assoc, <- pow2_add.
    replace (52 - e + (e - 52))%Z with 0%Z by lia. rewrite pow2_0. ring. }
  pose proof (pow2_pos (e - 52)) as Hp.
  assert (Hx0 : 0 < x) by (rewrite Ex; apply Rmult_lt_0_compat; lra).
  assert (He : Double.exponent x = e).
  { apply exponent_unique. rewrite Rabs_pos_eq by lra. rewrite Ex. split.
    - replace e with (52 + (e - 52))%Z at 1 by lia. rewrite pow2_add, pow2_52.
      apply Rmult_le_compat_r; lra.
    - replace (e + 1)%Z with (53 + (e - 52))%Z by lia. rewrite pow2_add, pow2_53.
      apply Rmult_lt_compat_r; lra. }
  unfold Double.round. destruct (Req_dec_T x 0) as [E0 | _]; [lra|].
  rewrite He. fold m. now rewrite (round_even_near m n Hn).
Qed.

(** [Math.log(2)] is the double [6243314768165359 * 2^-53]. *)
Lemma Math_log_2 : Math_log 2 = 6243314768165359 / 9007199254740992.
Proof.
  destruct ln_2_bounds as [Hlo Hhi]. unfold Math_log.
  assert (Elo : Double.round (69314718055994530941 / 100000000000000000000)
                = 6243314768165359 / 9007199254740992).
  { rewrite (round_check_sound 69314718055994530941 100000000000000000000 (- 1)
               6243314768165359) by (vm_compute; reflexivity).
    change (-1 - 52)%Z with (- 53)%Z. rewrite pow2_m53. reflexivity. }
  assert (Ehi : Double.round (69314718055994530942 / 100000000000000000000)
                = 6243314768165359 / 9007199254740992).
  { rewrite (round_check_sound 69314718055994530942 100000000000000000000 (- 1)
               6243314768165359) by (vm_compute; reflexivity).
    change (-1 - 52)%Z with (- 53)%Z. rewrite pow2_m53. reflexivity. }
  apply round_le in Hlo, Hhi. rewrite Elo in Hlo. rewrite Ehi in Hhi. lra.
Qed.

Lemma Math_log_half : Math_log (1 / 2) = - (6243314768165359 / 9007199254740992).
Proof. unfold Math_log. rewrite ln_half, round_opp. fold (Math_log 2). now rewrite Math_log_2. Qed.

End RoundingValues.

Section RoundingIntegers.

Lemma exponent_IZR (x : Z) : 0 < x -> Double.exponent (IZR x) = Z.log2 x.
Proof.
  intros Hx. apply exponent_unique.
  destruct (Z.log2_spec x Hx) as [Hlo Hhi].
  pose proof (Z.log2_nonneg x) as Hl.
  rewrite Rabs_pos_eq by (apply IZR_le; lia).
  rewrite !pow2_IZR by lia. split; [apply IZR_le | apply IZR_lt].
  - exact Hlo.
  - now rewrite <- Z.add_1_r in Hhi.
Qed.

(** The rounding of integer results in [Js.round53] is the rounding to the
    nearest double. *)
Lemma round53_round (x : Z) : 0 <= x -> Double.round (IZR x) = IZR (Js.round53 x).
Proof.
  intros Hx. destruct (Z.eq_dec x 0) as [-> | Hne].
  { rewrite round_0. reflexivity. }
  assert (Hpos : 0 < x) by lia.
  pose proof (Z.log2_nonneg x) as Hl.
  destruct (Z.log2_spec x Hpos) as [Hlo Hhi].
  unfold Double.round. destruct (Req_dec_T (IZR x) 0) as [E | _].
  { apply eq_IZR in E. lia. }
  rewrite exponent_IZR by exact Hpos.
  unfold Js.round53. destruct (Z.ltb_spec x (2 ^ 53)) as [Hsmall | Hbig].
  - assert (Hl52 : Z.log2 x <= 52).
    { destruct (Z.le_gt_cases (Z.log2 x) 52) as [H | H]; [exact H|].
      pose proof (Z.pow_le_mono_r 2 53 (Z.log2 x) ltac:(lia) ltac:(lia)). lia. }
    rewrite (pow2_IZR (52 - Z.log2 x)) by lia.
    rewrite <- mult_IZR, round_even_IZR, mult_IZR.
    rewrite <- (pow2_IZR (52 - Z.log2 x)) by lia.
    rewrite Rmult_assoc, <- pow2_add.
    replace (52 - Z.log2 x + (Z.log2 x - 52)) with 0 by lia.
    rewrite pow2_0. ring.
  - cbv zeta.
    assert (Hl53 : 53 <= Z.log2 x).
    { apply Z.log2_le_pow2; lia. }
    set (k := Z.log2 x - 52) in *.
    assert (Hk : 1 <= k) by (unfold k; lia).
    rewrite !Z.shiftl_mul_pow2, Z.shiftr_div_pow2 by lia.
    set (q := x / 2 ^ k). set (r := x - q * 2 ^ k).
    assert (Hp : 0 < 2 ^ k) by (apply Z.pow_pos_nonneg; lia).
    assert (Hr : 0 <= r < 2 ^ k).
    { unfold r, q. pose proof (Z.mod_pos_bound x (2 ^ k) Hp).
      pose proof (Z.div_mod x (2 ^ k) ltac:(lia)). lia. }
    assert (Hhalf : 2 * 2 ^ (k - 1) = 2 ^ k).
    { rewrite <- Z.pow_succ_r by lia. f_equal. lia. }
    assert (HpR : (0 < IZR (2 ^ k))%R) by now apply IZR_lt.
    assert (Em : (IZR x * Double.pow2 (52 - Z.log2 x) = IZR q + IZR r / IZR (2 ^ k))%R).
    { replace (52 - Z.log2 x) with (- k) by (unfold k; lia).
      rewrite pow2_opp, pow2_IZR by lia.
      replace x with (q * 2 ^ k + r) at 1 by (unfold r; lia).
      rewrite plus_IZR, mult_IZR. field. lra. }
    rewrite Em.
    replace (Z.log2 x - 52) with k by reflexivity.
    rewrite pow2_IZR by lia. rewrite <- mult_IZR. f_equal. f_equal.
    assert (Hfrac : (0 <= IZR r / IZR (2 ^ k) < 1)%R).
    { destruct Hr as [Hr0 Hr1]. apply IZR_le in Hr0. apply IZR_lt in Hr1. split.
      - apply Rmult_le_pos; [exact Hr0 | left; now apply Rinv_0_lt_compat].
      - apply Rmult_lt_reg_r with (IZR (2 ^ k)); [exact HpR|].
        unfold Rdiv. rewrite Rmult_assoc, Rinv_l by lra. lra. }
    assert (Hfloor : Int_part (IZR q + IZR r / IZR (2 ^ k)) = q).
    { destruct (Int_part_spec (IZR q + IZR r / IZR (2 ^ k))) as [H1 H2].
      assert (Ha : (IZR (Int_part (IZR q + IZR r / IZR (2 ^ k))) < IZR (q + 1))%R)
        by (rewrite plus_IZR; lra).
      assert (Hb : (IZR q < IZR (Int_part (IZR q + IZR r / IZR (2 ^ k)) + 1))%R)
        by (rewrite plus_IZR; lra).
      apply lt_IZR in Ha, Hb. lia. }
    unfold Double.round_even. rewrite Hfloor.
    replace (IZR q + IZR r / IZR (2 ^ k) - IZR q)%R with (IZR r / IZR (2 ^ k))%R by ring.
    assert (Hcmp : forall a : Z,
              (IZR a / IZR (2 ^ k) < 1 / 2)%R <-> 2 * a < 2 ^ k).
    { intros a. split; intros H.
      - apply lt_IZR. rewrite mult_IZR.
        apply Rmult_lt_compat_r with (r := IZR (2 ^ k)) in H; [|exact HpR].
        unfold Rdiv in H. rewrite Rmult_assoc, Rinv_l in H by lra. lra.
      - apply IZR_lt in H. rewrite mult_IZR in H.
        apply Rmult_lt_reg_r with (IZR (2 ^ k)); [exact HpR|].
        unfold Rdiv. rewrite Rmult_assoc, Rinv_l by lra. lra. }
    assert (Hcmp' : (1 / 2 < IZR r / IZR (2 ^ k))%R <-> 2 ^ k < 2 * r).
    { split; intros H.
      - apply lt_IZR. rewrite mult_IZR.
        apply Rmult_lt_compat_r with (r := IZR (2 ^ k)) in H; [|exact HpR].
        unfold Rdiv in H. rewrite (Rmult_assoc (IZR r)), Rinv_l in H by lra. lra.
      - apply IZR_lt in H. rewrite mult_IZR in H.
        apply Rmult_lt_reg_r with (IZR (2 ^ k)); [exact HpR|].
        unfold Rdiv. rewrite (Rmult_assoc (IZR r)), Rinv_l by lra. lra. }
    destruct (Rlt_dec (IZR r / IZR (2 ^ k)) (1 / 2)) as [H1 | H1].
    + apply Hcmp in H1.
      replace (2 ^ (k - 1) <? r) with false by (symmetry; apply Z.ltb_ge; lia).
      replace (r =? 2 ^ (k - 1)) with false by (symmetry; apply Z.eqb_neq; lia).
      reflexivity.
    + destruct (Rlt_dec (1 / 2) (IZR r / IZR (2 ^ k))) as [H2 | H2].
      * apply Hcmp' in H2.
        replace (2 ^ (k - 1) <? r) with true by (symmetry; apply Z.ltb_lt; lia).
        reflexivity.
      * assert (Hr2 : 2 * r = 2 ^ k).
        { destruct (Z.lt_trichotomy (2 * r) (2 ^ k)) as [H | [H | H]]; [|exact H|].
          - exfalso. apply H1. now apply Hcmp.
          - exfalso. apply H2. now apply Hcmp'. }
        replace (2 ^ (k - 1) <? r) with false by (symmetry; apply Z.ltb_ge; lia).
        replace (r =? 2 ^ (k - 1)) with true by (symmetry; apply Z.eqb_eq; lia).
        cbn [orb andb]. rewrite <- Z.negb_even.
        destruct (Z.even q); reflexivity.
Qed.

End RoundingIntegers.

Section SizingValues.

Local Open Scope R_scope.

Lemma pow2_neg_nat (n : nat) : Double.pow2 (- Z.of_nat n) = / 2 ^ n.
Proof. now rewrite pow2_opp, pow2_nat. Qed.

(** The literal [0.480453] is the double [8655071807076148 * 2^-54]. *)
Lemma log2sq_value : log2sq = 8655071807076148 / 18014398509481984.
Proof.
  unfold log2sq.
  rewrite (round_check_sound 480453 1000000 (- 2) 8655071807076148)
    by (vm_compute; reflexivity).
  change (-2 - 52)%Z with (- Z.of_nat 54)%Z. rewrite pow2_neg_nat.
  replace (2 ^ 54) with 18014398509481984 by lra. lra.
Qed.

(** The rounding of the code shows: at capacity 51638579 and error rate
    1/2 the quotient is the double 74498724, although the real quotient is
    above 74498724. *)
Lemma calculateSize_51638579 :
  calculateSize 51638579 (1 / 2) = 74498724%Z /\
  Math_ceil (51638579 * ln (1 / 2) / - (480453 / 1000000)) = 74498725%Z.
Proof.
  split.
  - unfold calculateSize, Double.div, Double.mul.
    rewrite Math_log_half, log2sq_value.
    replace (51638579 * - (6243314768165359 / 9007199254740992))
      with (- (322395902877773575784861 / 9007199254740992)) by lra.
    rewrite round_opp.
    rewrite (round_check_sound 322395902877773575784861 9007199254740992 25
               4804073317017758) by (vm_compute; reflexivity).
    change (25 - 52)%Z with (- Z.of_nat 27)%Z. rewrite pow2_neg_nat.
    replace (2 ^ 27) with 134217728 by lra.
    replace (- (4804073317017758 * / 134217728) / - (8655071807076148 / 18014398509481984))
      with (161197951438886803603456 / 2163767951769037) by field.
    rewrite (round_check_sound 161197951438886803603456 2163767951769037 26
               4999524737089536) by (vm_compute; reflexivity).
    change (26 - 52)%Z with (- Z.of_nat 26)%Z. rewrite pow2_neg_nat.
    replace (2 ^ 26) with 67108864 by lra.
    replace (4999524737089536 * / 67108864) with (IZR 74498724) by lra.
    apply Math_ceil_IZR.
  - destruct ln_2_bounds as [Hlo Hhi]. rewrite ln_half.
    apply Math_ceil_unique.
    replace (51638579 * - ln 2 / - (480453 / 1000000))
      with (ln 2 * (51638579 * 1000000 / 480453)) by (field; lra).
    split; lra.
Qed.

(** Likewise for the slice count: at size 70952475 and capacity 12295127
    the code returns exactly 4, and the real product is above 4. *)
Lemma calculateSlices_70952475 :
  calculateSlices 70952475 12295127 = 4 /\
  4 < 70952475 / 12295127 * ln 2.
Proof.
  split.
  - unfold calculateSlices, Double.div, Double.mul. rewrite Math_log_2.
    rewrite (round_check_sound 70952475 12295127 2 6497320848556799)
      by (vm_compute; reflexivity).
    change (2 - 52)%Z with (- Z.of_nat 50)%Z. rewrite pow2_neg_nat.
    replace (2 ^ 50) with 1125899906842624 by lra.
    replace (6497320848556799 * / 1125899906842624 * (6243314768165359 / 9007199254740992))
      with (40564819207303345161704135725841 / 10141204801825835211973625643008) by lra.
    rewrite (round_check_sound 40564819207303345161704135725841
               10141204801825835211973625643008 2 4503599627370496)
      by (vm_compute; reflexivity).
    change (2 - 52)%Z with (- Z.of_nat 50)%Z. rewrite pow2_neg_nat.
    replace (2 ^ 50) with 1125899906842624 by lra. lra.
  - destruct ln_2_bounds as [Hlo _]. lra.
Qed.

(** So a filter of 70952475 bits for a capacity of 12295127 derives four
    indices for every key, where the real product would give five. *)
Lemma calulateHashes_four_indices (key : Buffer) :
  List.length (calulateHashes key 70952475 (calculateSlices 70952475 12295127)) = 4%nat /\
  Math_ceil (70952475 / 12295127 * ln 2) = 5%Z.
Proof.
  destruct calculateSlices_70952475 as [E Hgt]. split.
  - rewrite E, calulateHashes_eq, hash_indices_length.
    change 4 with (IZR 4). now rewrite Math_ceil_IZR.
  - apply Math_ceil_unique. destruct ln_2_bounds as [_ Hhi]. split; lra.
Qed.

End SizingValues.

(** C6, as the code has it.  For a capacity from 1 to 2^53 and an error
    rate strictly between 0 and 1, [calculateSize] is the ceiling of the
    double that the code computes for
    [capacity * Math.log(errorRate) / -0.480453], and that double is within
    a relative error of 2^-50 of the real quotient
    [capacity * ln(errorRate) / -0.480453]; so it is for any value of the
    logarithm within a relative error of 2^-52.  The constant 0.480453 is
    below the exact square of [ln 2], so the result is never below the one
    of the formula with the exact square.  For every size of at least 1,
    [calculateSlices] is the double that the code computes for
    [size / capacity * Math.log(2)], within a relative error of 2^-50 of
    [(size / capacity) * ln 2]. *)
Theorem calculateSize_formula (capacity errorRate : R) :
  (1 <= capacity <= 9007199254740992)%R -> (0 < errorRate < 1)%R ->
  let ideal := (capacity * ln errorRate / - (480453 / 1000000))%R in
  calculateSize capacity errorRate
  = Math_ceil (Double.div (Double.mul capacity (Math_log errorRate))
                 (- Double.round (480453 / 1000000))) /\
  (ideal * (1 - Double.slack) <= IZR (calculateSize capacity errorRate)
   < ideal * (1 + Double.slack) + 1)%R /\
  (forall L : R,
     (Rabs (L - ln errorRate) <= 2 * Double.ulp * Rabs (ln errorRate))%R ->
     (ideal * (1 - Double.slack)
      <= IZR (Math_ceil (Double.div (Double.mul capacity L)
                           (- Double.round (480453 / 1000000))))
      < ideal * (1 + Double.slack) + 1)%R) /\
  (480453 / 1000000 < ln 2 * ln 2)%R /\
  sizeForCapacity capacity errorRate <= calculateSize capacity errorRate /\
  (forall size : R, (1 <= size)%R ->
     calculateSlices size capacity = Double.mul (Double.div size capacity) (Math_log 2) /\
     (size / capacity * ln 2 * (1 - Double.slack)
      <= calculateSlices size capacity
      <= size / capacity * ln 2 * (1 + Double.slack))%R).
Proof.
  intros [Hc _] He ideal.
  assert (Hc0 : (0 < capacity)%R) by lra.
  split; [reflexivity|].
  split; [now apply calculateSize_near|].
  split.
  { intros L HL.
    pose proof (sizing_value_bounds capacity errorRate L Hc0 He HL) as Hv.
    fold ideal in Hv. unfold log2sq in Hv.
    destruct (Math_ceil_spec (Double.div (Double.mul capacity L)
                                (- Double.round (480453 / 1000000)))) as [H1 H2].
    lra. }
  split; [exact literal_below|].
  split; [now apply sizeForCapacity_le|].
  intros size Hs. split; [reflexivity|]. apply calculateSlices_near; lra.
Qed.

Lemma calculateSize_formula_witness :
  (1 <= 20 <= 9007199254740992)%R /\ (0 < 1 / 10 < 1)%R /\
  sizeForCapacity 20 (1 / 10) <= calculateSize 20 (1 / 10).
Proof.
  split; [lra|]. split; [lra|].
  apply (calculateSize_formula 20 (1 / 10)); lra.
Defined.

(** C6 as stated fails.  For a capacity of 10^8 and an error rate of 1/2
    the size with the exact square of [ln 2] is at most 144269506, and
    [calculateSize] is above it.  And for a size of 70952475 and a capacity
    of 12295127 [calculateSlices] is exactly 4, which is not
    [(size / capacity) * ln 2]. *)
Lemma calculateSize_not_exact_square :
  sizeForCapacity 100000000 (1 / 2) <= 144269506 /\
  144269506 < calculateSize 100000000 (1 / 2) /\
  calculateSize 100000000 (1 / 2) <> sizeForCapacity 100000000 (1 / 2) /\
  calculateSlices 70952475 12295127 = 4%R /\
  calculateSlices 70952475 12295127 <> (70952475 / 12295127 * ln 2)%R.
Proof.
  pose proof ln_2_lower as HL.
  assert (Hle : sizeForCapacity 100000000 (1 / 2) <= 144269506).
  { unfold sizeForCapacity. apply Math_ceil_le. rewrite ln_half.
    replace (100000000 * - ln 2 / - (ln 2 * ln 2))%R with (100000000 / ln 2)%R
      by (field; lra).
    apply Rmult_le_reg_r with (ln 2); [lra|].
    unfold Rdiv. rewrite Rmult_assoc, Rinv_l by lra. lra. }
  assert (Hgt : 144269506 < calculateSize 100000000 (1 / 2)).
  { pose proof (calculateSize_near 100000000 (1 / 2) ltac:(lra) ltac:(lra)) as [Hn _].
    cbv zeta in Hn. rewrite ln_half in Hn.
    replace (100000000 * - ln 2 / - (480453 / 1000000) * (1 - Double.slack))%R
      with (ln 2 * (100000000 * 1000000 / 480453 * (1 - Double.slack)))%R in Hn
      by (field; lra).
    apply lt_IZR. unfold Double.slack in Hn. lra. }
  destruct calculateSlices_70952475 as [Hs4 Hs].
  split; [exact Hle|]. split; [exact Hgt|]. split; [lia|].
  split; [exact Hs4|]. rewrite Hs4. lra.
Qed.

(** ** Snapshots and reconstruction *)

Section RoundTripFacts.

Lemma Buffer_from_array_ok (buf : Buffer) :
  Buffer_ok buf -> BloomFilter.Buffer_from_array buf = buf.
Proof.
  unfold BloomFilter.Buffer_from_array, Js.ToUint8.
  induction 1 as [|b tl Hb _ IH]; simpl; [reflexivity|].
  rewrite IH, Z.mod_small by lia. reflexivity.
Qed.

Lemma hex_value_digit (d : Z) : 0 <= d < 16 -> hex_value (hex_digit d) = Some d.
Proof.
  intros H.
  assert (C : d = 0 \/ d = 1 \/ d = 2 \/ d = 3 \/ d = 4 \/ d = 5 \/ d = 6 \/ d = 7 \/
              d = 8 \/ d = 9 \/ d = 10 \/ d = 11 \/ d = 12 \/ d = 13 \/ d = 14 \/ d = 15)
    by lia.
  repeat (destruct C as [->|C]; [reflexivity|]). subst d. reflexivity.
Qed.

(** Decoding the hexadecimal form of a buffer gives the buffer back. *)
Lemma Buffer_fromHex_toHex (buf : Buffer) :
  Buffer_ok buf -> Buffer_fromHex (Buffer_toHex buf) = buf.
Proof.
  induction 1 as [|b tl Hb _ IH]; [reflexivity|].
  cbn [Buffer_toHex Buffer_fromHex].
  rewrite !hex_value_digit, IH.
  - f_equal. rewrite Z.mul_comm. symmetry. apply Z.div_mod. lia.
  - apply Z.mod_pos_bound. lia.
  - split; [apply Z.div_pos; lia|apply Z.div_lt_upper_bound; lia].
Qed.

Lemma replace_nth_ok (n : nat) (buf : Buffer) (v : Z) :
  0 <= v < 256 -> Buffer_ok buf -> Buffer_ok (replace_nth n buf v).
Proof.
  intros Hv H. revert n.
  induction H as [|b tl Hb Htl IH]; intros [|n]; simpl; constructor; auto.
  apply IH.
Qed.

Lemma Buffer_set_ok (buf : Buffer) (i v : Z) : Buffer_ok buf -> Buffer_ok (Buffer_set buf i v).
Proof.
  intros H. unfold Buffer_set. destruct (i <? 0); [assumption|].
  apply replace_nth_ok; [|assumption].
  unfold Js.ToUint8. apply Z.mod_pos_bound. lia.
Qed.

Lemma Buffer_alloc_ok (n : Z) : Buffer_ok (Buffer_alloc n).
Proof.
  unfold Buffer_ok, Buffer_alloc. apply Forall_forall. intros x Hx.
  apply repeat_spec in Hx. lia.
Qed.

Lemma add_loop_ok (hashes : list Z) (b : Bitfield.t) :
  Buffer_ok (Bitfield.buffer b) -> Buffer_ok (Bitfield.buffer (BloomFilter.add_loop b hashes)).
Proof.
  unfold BloomFilter.add_loop. revert b.
  induction hashes as [|h tl IH]; intros b Hb; cbn [fold_left]; [assumption|].
  apply IH. unfold Bitfield.set. cbn [Bitfield.buffer]. now apply Buffer_set_ok.
Qed.

Lemma BloomFilter_add_ok (f : BloomFilter.t) (key : Buffer) :
  Buffer_ok (BloomFilter_buffer f) -> Buffer_ok (BloomFilter_buffer (BloomFilter.add f key)).
Proof. apply add_loop_ok. Qed.

Lemma SafeBloomFilter_new_sized (capacity errorRate : R) (buffer : option Buffer) :
  SafeBloomFilter_sized (SafeBloomFilter.new (Some capacity) (Some errorRate) buffer).
Proof. split; reflexivity. Qed.

Lemma SafeBloomFilter_add_sized (f : SafeBloomFilter.t) (key : Buffer) :
  SafeBloomFilter_sized f -> SafeBloomFilter_sized (fst (SafeBloomFilter.add f key)).
Proof.
  intros H. destruct (SafeBloomFilter_add_cases f key) as [E|E]; rewrite E; [exact H|].
  exact H.
Qed.

Lemma BloomFilter_roundtrip (f : BloomFilter.t) :
  Buffer_ok (BloomFilter_buffer f) ->
  BloomFilter.destringify (BloomFilter.toJSON f) = f.
Proof.
  intros H. destruct f as [size slices [buf]].
  unfold BloomFilter.destringify, BloomFilter.toJSON. simpl in *.
  now rewrite Buffer_from_array_ok.
Qed.

Lemma SafeBloomFilter_roundtrip (f : SafeBloomFilter.t) :
  SafeBloomFilter_sized f ->
  Buffer_ok (BloomFilter_buffer (SafeBloomFilter.filter f)) ->
  SafeBloomFilter.destringify (SafeBloomFilter.toJSON f) = f.
Proof.
  intros [Hs Hk] H. destruct f as [capacity errorRate count [size slices [buf]]].
  unfold SafeBloomFilter.destringify, SafeBloomFilter.toJSON. simpl in *.
  rewrite Buffer_from_array_ok by assumption. now subst.
Qed.

Lemma destringify_filters (l acc : list SafeBloomFilter.t) :
  Forall (fun f => SafeBloomFilter_sized f /\
                   Buffer_ok (BloomFilter_buffer (SafeBloomFilter.filter f))) l ->
  fold_left (fun acc x => acc ++ [SafeBloomFilter.destringify x])
    (map SafeBloomFilter.toJSON l) acc = acc ++ l.
Proof.
  intros H. revert acc. induction H as [|f tl [Hs Hb] _ IH]; intros acc; simpl.
  - now rewrite app_nil_r.
  - rewrite IH, SafeBloomFilter_roundtrip by assumption.
    now rewrite <- app_assoc.
Qed.

Lemma ScalingBloomFilter_roundtrip (s : ScalingBloomFilter.t) :
  ScalingBloomFilter.ratio s <> 0%R ->
  ScalingBloomFilter.scaling s <> 0%R ->
  ScalingBloomFilter.initialCapacity s <> 0%R ->
  Forall (fun f => SafeBloomFilter_sized f /\
                   Buffer_ok (BloomFilter_buffer (SafeBloomFilter.filter f)))
         (ScalingBloomFilter.filters s) ->
  ScalingBloomFilter.destringify (ScalingBloomFilter.toJSON s) = s.
Proof.
  intros Hr Hs Hc Hall. destruct s as [errorRate ratio scaling initialCapacity filters].
  unfold ScalingBloomFilter.destringify, ScalingBloomFilter.toJSON,
    ScalingBloomFilter.new, ScalingBloomFilter.or_default. simpl in *.
  destruct (Req_dec_T ratio 0) as [?|_]; [contradiction|].
  destruct (Req_dec_T scaling 0) as [?|_]; [contradiction|].
  destruct (Req_dec_T initialCapacity 0) as [?|_]; [contradiction|].
  now rewrite destringify_filters.
Qed.

Lemma set_buffers_repeat (size : Z) (slices : R) (b0 : Bitfield.t) (ls : list BloomFilter.t) :
  Forall (fun f => BloomFilter.size f = size /\ BloomFilter.slices f = slices /\
                   Buffer_ok (BloomFilter_buffer f)) ls ->
  AttenuatedBloomFilter.set_buffers
    (repeat (BloomFilter.mk size slices b0) (List.length ls))
    (map (fun f => Buffer_toHex (Bitfield.toBuffer (BloomFilter.bitfield f))) ls)
  = ls.
Proof.
  induction 1 as [|f tl (Hs & Hk & Hb) _ IH]; [reflexivity|].
  cbn [List.length repeat map AttenuatedBloomFilter.set_buffers].
  rewrite IH. f_equal.
  destruct f as [size' slices' [buf]]. simpl in *.
  unfold Bitfield.toBuffer. simpl.
  rewrite Buffer_fromHex_toHex by assumption. now subst.
Qed.

Lemma Buffer_toHex_length_roundtrip (buf : Buffer) :
  Buffer_ok buf -> List.length (Buffer_fromHex (Buffer_toHex buf)) = List.length buf.
Proof. intros H. now rewrite Buffer_fromHex_toHex. Qed.

Lemma AttenuatedBloomFilter_roundtrip (a : AttenuatedBloomFilter.t) :
  AttenuatedBloomFilter_built a ->
  AttenuatedBloomFilter.levels a <> [] ->
  1 <= AttenuatedBloomFilter.bitfieldSize a ->
  AttenuatedBloomFilter.bitfieldSize a mod 8 = 0 ->
  AttenuatedBloomFilter.from (AttenuatedBloomFilter.toHexArray a) = Some a.
Proof.
  intros [Hd Hall] Hne Hs H8.
  destruct a as [bitfieldSize filterDepth levels]. simpl in *.
  unfold AttenuatedBloomFilter.from, AttenuatedBloomFilter.toHexArray.
  cbn [AttenuatedBloomFilter.levels].
  destruct levels as [|f tl]; [contradiction|].
  set (ls := f :: tl) in *.
  change (map _ ls) with
    (Buffer_toHex (Bitfield.toBuffer (BloomFilter.bitfield f))
     :: map (fun g => Buffer_toHex (Bitfield.toBuffer (BloomFilter.bitfield g))) tl).
  cbv beta iota.
  change (Buffer_toHex (Bitfield.toBuffer (BloomFilter.bitfield f))
     :: map (fun g => Buffer_toHex (Bitfield.toBuffer (BloomFilter.bitfield g))) tl)
    with (map (fun g => Buffer_toHex (Bitfield.toBuffer (BloomFilter.bitfield g))) ls).
  assert (Hf : Z.of_nat (List.length (Buffer_fromHex
                 (Buffer_toHex (Bitfield.toBuffer (BloomFilter.bitfield f))))) * 8
               = bitfieldSize).
  { inversion Hall as [|? ? (_ & _ & Hl & Hb) _]; subst.
    unfold Bitfield.toBuffer. rewrite Buffer_fromHex_toHex by exact Hb.
    unfold BloomFilter_buffer in Hl. rewrite Hl, byteLength_ceil.
    Z.div_mod_to_equations. lia. }
  rewrite Hf, length_map.
  unfold AttenuatedBloomFilter.new, AttenuatedBloomFilter.or_default.
  cbn [AttenuatedBloomFilter.opt_bitfieldSize AttenuatedBloomFilter.opt_filterDepth
       AttenuatedBloomFilter.bitfieldSize AttenuatedBloomFilter.filterDepth
       AttenuatedBloomFilter.levels].
  destruct (Z.eqb_spec bitfieldSize 0) as [?|_]; [lia|].
  destruct (Z.eqb_spec (Z.of_nat (List.length ls)) 0) as [E|_]; [simpl in E; lia|].
  rewrite Nat2Z.id. unfold BloomFilter.new.
  rewrite set_buffers_repeat.
  - now rewrite Hd.
  - eapply Forall_impl; [|exact Hall]. simpl. tauto.
Qed.

End RoundTripFacts.

Section BuiltFacts.

Lemma or_bytes_length (foreignFilterBytes : list Z) (localFilterBuffer : Buffer) (bytePos : Z) :
  List.length (AttenuatedBloomFilter.or_bytes localFilterBuffer bytePos foreignFilterBytes)
  = List.length localFilterBuffer.
Proof.
  revert localFilterBuffer bytePos.
  induction foreignFilterBytes as [|b tl IH]; intros buf pos; simpl; [reflexivity|].
  now rewrite IH, Buffer_set_length.
Qed.

Lemma or_bytes_ok (foreignFilterBytes : list Z) (localFilterBuffer : Buffer) (bytePos : Z) :
  Buffer_ok localFilterBuffer ->
  Buffer_ok (AttenuatedBloomFilter.or_bytes localFilterBuffer bytePos foreignFilterBytes).
Proof.
  revert localFilterBuffer bytePos.
  induction foreignFilterBytes as [|b tl IH]; intros buf pos H; simpl; [assumption|].
  apply IH. now apply Buffer_set_ok.
Qed.

Lemma byteLength_nonneg (size : Z) : 0 <= size -> 0 <= Bitfield.byteLength size.
Proof. intros H. rewrite byteLength_ceil. apply Z.div_pos; lia. Qed.

Lemma AttenuatedBloomFilter_new_built (opts : option AttenuatedBloomFilter.options) :
  0 <= AttenuatedBloomFilter.bitfieldSize (AttenuatedBloomFilter.new opts) ->
  0 <= AttenuatedBloomFilter.filterDepth (AttenuatedBloomFilter.new opts) ->
  AttenuatedBloomFilter_built (AttenuatedBloomFilter.new opts).
Proof.
  unfold AttenuatedBloomFilter.new.
  cbn [AttenuatedBloomFilter.bitfieldSize AttenuatedBloomFilter.filterDepth].
  intros Hs Hd. split; cbn [AttenuatedBloomFilter.levels AttenuatedBloomFilter.filterDepth
                            AttenuatedBloomFilter.bitfieldSize].
  - rewrite repeat_length. lia.
  - apply Forall_forall. intros f Hf. apply repeat_spec in Hf. subst f.
    unfold BloomFilter_buffer, BloomFilter.new, Bitfield.new.
    cbn [BloomFilter.size BloomFilter.slices BloomFilter.bitfield Bitfield.buffer].
    repeat split; try apply Buffer_alloc_ok.
    unfold Buffer_alloc. rewrite repeat_length.
    apply Z2Nat.id. now apply byteLength_nonneg.
Qed.

Lemma AttenuatedBloomFilter_level_add_built (a : AttenuatedBloomFilter.t) (i : nat)
    (key : Buffer) :
  AttenuatedBloomFilter_built a ->
  AttenuatedBloomFilter_built (AttenuatedBloomFilter.level_add a i key).
Proof.
  intros [Hd Hall]. unfold AttenuatedBloomFilter_built, AttenuatedBloomFilter.level_add.
  cbn [AttenuatedBloomFilter.levels AttenuatedBloomFilter.filterDepth
       AttenuatedBloomFilter.bitfieldSize].
  revert Hd. generalize (AttenuatedBloomFilter.filterDepth a). intros d Hd.
  revert d Hd i.
  induction Hall as [|f tl (Hs & Hk & Hl & Hb) Htl IH]; intros d Hd i.
  - destruct i; simpl; auto.
  - destruct i; cbn [AttenuatedBloomFilter.add_at].
    + split; [exact Hd|]. constructor; [|assumption].
      repeat split; try assumption.
      * unfold BloomFilter_buffer, BloomFilter.add. cbn [BloomFilter.bitfield].
        now rewrite add_loop_length.
      * now apply BloomFilter_add_ok.
    + destruct (IH (Z.of_nat (List.length tl)) eq_refl i) as [Hlen Hall'].
      split.
      * rewrite Hd. cbn [List.length]. do 2 f_equal. lia.
      * constructor; [|assumption]. auto.
Qed.

End BuiltFacts.

(** ** AttenuatedBloomFilter: what merge leaves in a level *)

Section MergeLevels.

Lemma lor_byte (a b : Z) : 0 <= a < 256 -> 0 <= b < 256 -> 0 <= Z.lor a b < 256.
Proof.
  intros Ha Hb. split; [apply Z.lor_nonneg; lia|].
  destruct (Z.eq_dec (Z.lor a b) 0) as [->|Hne]; [lia|].
  assert (0 < Z.lor a b) by (pose proof (proj2 (Z.lor_nonneg a b) ltac:(lia)); lia).
  change 256 with (2 ^ 8). apply Z.log2_lt_pow2; [assumption|].
  rewrite Z.log2_lor by lia.
  destruct (Z.eq_dec a 0) as [->|Ha0]; destruct (Z.eq_dec b 0) as [->|Hb0];
    try (simpl in Hne; lia).
  - rewrite Z.max_r by (apply Z.log2_nonneg). apply Z.log2_lt_pow2; lia.
  - rewrite Z.max_l by (apply Z.log2_nonneg). apply Z.log2_lt_pow2; lia.
  - apply Z.max_lub_lt; apply Z.log2_lt_pow2; lia.
Qed.

Lemma Js_or_byte (a b : Z) :
  0 <= a < 256 -> 0 <= b < 256 -> Js.ToUint8 (Js.or a b) = Z.lor a b.
Proof.
  intros Ha Hb. unfold Js.ToUint8, Js.or.
  rewrite !ToInt32_small by lia.
  apply Z.mod_small. now apply lor_byte.
Qed.

Lemma Buffer_get_ok (buf : Buffer) (i : Z) : Buffer_ok buf -> 0 <= Buffer_get buf i < 256.
Proof.
  intros H. unfold Buffer_get. destruct (i <? 0); [lia|].
  destruct (nth_in_or_default (Z.to_nat i) buf 0) as [Hin| ->]; [|lia].
  unfold Buffer_ok in H. rewrite Forall_forall in H. now apply H.
Qed.

Lemma Buffer_get_cons (b : Z) (tl : Buffer) (i : Z) :
  0 < i -> Buffer_get (b :: tl) i = Buffer_get tl (i - 1).
Proof.
  intros Hi. unfold Buffer_get.
  destruct (i <? 0) eqn:E1; [apply Z.ltb_lt in E1; lia|].
  destruct (i - 1 <? 0) eqn:E2; [apply Z.ltb_lt in E2; lia|].
  replace (Z.to_nat i) with (S (Z.to_nat (i - 1))) by lia. reflexivity.
Qed.

(** The bytes [merge] leaves in a local buffer: the bitwise OR with the
    foreign bytes, position by position. *)
Lemma or_bytes_get (foreignFilterBytes : list Z) :
  Buffer_ok foreignFilterBytes ->
  forall (localFilterBuffer : Buffer) (bytePos p : Z),
    Buffer_ok localFilterBuffer -> 0 <= bytePos ->
    0 <= p < Z.of_nat (List.length localFilterBuffer) ->
    Buffer_get (AttenuatedBloomFilter.or_bytes localFilterBuffer bytePos foreignFilterBytes) p
    = Z.lor (Buffer_get localFilterBuffer p) (Buffer_get foreignFilterBytes (p - bytePos)).
Proof.
  induction 1 as [|b tl Hb Htl IH]; intros buf pos p Hbuf Hpos Hp.
  - simpl. replace (Buffer_get [] (p - pos)) with 0.
    + now rewrite Z.lor_0_r.
    + unfold Buffer_get. destruct (p - pos <? 0); [reflexivity|].
      now destruct (Z.to_nat (p - pos)).
  - cbn [AttenuatedBloomFilter.or_bytes].
    rewrite IH; [|now apply Buffer_set_ok|lia|now rewrite Buffer_set_length].
    destruct (Z.eq_dec p pos) as [->|Hne].
    + rewrite Buffer_get_set_same by lia.
      rewrite Js_or_byte by (try apply Buffer_get_ok; assumption).
      replace (pos - (pos + 1)) with (-1) by lia.
      replace (pos - pos) with 0 by lia.
      change (Buffer_get tl (-1)) with 0. change (Buffer_get (b :: tl) 0) with b.
      now rewrite Z.lor_0_r.
    + rewrite Buffer_get_set_other by lia. f_equal.
      destruct (Z_lt_le_dec p pos) as [Hlt|Hge].
      * unfold Buffer_get.
        destruct (p - (pos + 1) <? 0) eqn:E1; [|apply Z.ltb_ge in E1; lia].
        destruct (p - pos <? 0) eqn:E2; [reflexivity|apply Z.ltb_ge in E2; lia].
      * rewrite (Buffer_get_cons b tl (p - pos)) by lia. f_equal. lia.
Qed.

(** A bit of the merged level is set when it is set in the local level or
    in the foreign one. *)
Lemma merged_get (localFilter foreignFilter : BloomFilter.t) (j : Z) :
  Buffer_ok (BloomFilter_buffer localFilter) ->
  Buffer_ok (BloomFilter_buffer foreignFilter) ->
  0 <= j ->
  Js.ushr j 3 < Z.of_nat (List.length (BloomFilter_buffer localFilter)) ->
  Bitfield.get (BloomFilter.bitfield (merged localFilter foreignFilter)) j
  = Bitfield.get (BloomFilter.bitfield localFilter) j
    || Bitfield.get (BloomFilter.bitfield foreignFilter) j.
Proof.
  intros Hl Hf Hj Hlen.
  rewrite !Bitfield_get_testbit by assumption.
  unfold merged. cbn [BloomFilter.bitfield Bitfield.buffer].
  pose proof (ushr_3_bounds j Hj).
  rewrite or_bytes_get by (try assumption; lia).
  rewrite Z.lor_spec, Z.sub_0_r. reflexivity.
Qed.

(** The merged level has every key of the local level and, when the two
    levels have the same size and slice count, every key of the foreign
    level. *)
Lemma merged_has (localFilter foreignFilter : BloomFilter.t) (key : Buffer) :
  BloomFilter_wf localFilter ->
  Buffer_ok (BloomFilter_buffer localFilter) ->
  Buffer_ok (BloomFilter_buffer foreignFilter) ->
  (BloomFilter.has localFilter key = true \/
   (BloomFilter.size foreignFilter = BloomFilter.size localFilter /\
    BloomFilter.slices foreignFilter = BloomFilter.slices localFilter /\
    BloomFilter.has foreignFilter key = true)) ->
  BloomFilter.has (merged localFilter foreignFilter) key = true.
Proof.
  intros [Hs Hlen] Hl Hf Hhas.
  unfold BloomFilter.has in *.
  change (BloomFilter.size (merged localFilter foreignFilter))
    with (BloomFilter.size localFilter).
  change (BloomFilter.slices (merged localFilter foreignFilter))
    with (BloomFilter.slices localFilter).
  apply has_loop_Forall.
  pose proof (calulateHashes_range key _ (BloomFilter.slices localFilter) Hs) as Hr.
  rewrite Forall_forall in *. intros h Hin. specialize (Hr h Hin). simpl in Hr.
  rewrite merged_get; try assumption; try lia.
  - destruct Hhas as [H|(E1 & E2 & H)].
    + apply has_loop_Forall in H. rewrite Forall_forall in H.
      rewrite (H h Hin). reflexivity.
    + rewrite E1, E2 in H. apply has_loop_Forall in H. rewrite Forall_forall in H.
      rewrite (H h Hin). apply orb_true_r.
  - unfold BloomFilter_buffer. rewrite Hlen. now apply index_in_buffer.
Qed.

(** When [merge] returns, each local level from 1 on has become the merge
    of itself with the foreign level before it. *)
Lemma merge_loop_nth (foreignFilters : list BloomFilter.t) :
  forall (locals ls : list BloomFilter.t) (localIndex n : nat)
         (localFilter foreignFilter : BloomFilter.t),
    AttenuatedBloomFilter.merge_loop localIndex locals foreignFilters = (ls, None) ->
    nth_error locals n = Some localFilter ->
    nth_error foreignFilters (localIndex + n - 1) = Some foreignFilter ->
    (0 < localIndex + n)%nat ->
    nth_error ls n = Some (merged localFilter foreignFilter).
Proof.
  induction locals as [|f tl IH]; intros ls i n l g Hm Hl Hg Hpos.
  - destruct n; discriminate.
  - cbn [AttenuatedBloomFilter.merge_loop] in Hm. destruct i as [|j].
    + destruct (AttenuatedBloomFilter.merge_loop 1 tl foreignFilters) as [rest e] eqn:E.
      injection Hm as <- ->.
      destruct n as [|n]; [lia|]. simpl in Hl |- *.
      apply (IH rest 1%nat n l g E Hl); [|lia].
      replace (1 + n - 1)%nat with (0 + S n - 1)%nat by lia. exact Hg.
    + destruct (nth_error foreignFilters j) as [g0|] eqn:Ej; [|discriminate].
      destruct (AttenuatedBloomFilter.merge_loop (S (S j)) tl foreignFilters)
        as [rest e] eqn:E.
      injection Hm as <- ->.
      destruct n as [|n].
      * simpl in Hl. injection Hl as ->.
        replace (S j + 0 - 1)%nat with j in Hg by lia.
        rewrite Ej in Hg. injection Hg as ->. reflexivity.
      * simpl in Hl |- *.
        apply (IH rest (S (S j)) n l g E Hl); [|lia].
        replace (S (S j) + n - 1)%nat with (S j + S n - 1)%nat by lia. exact Hg.
Qed.

Lemma merge_level (a peer s : AttenuatedBloomFilter.t) (i : nat)
    (localFilter foreignFilter : BloomFilter.t) :
  AttenuatedBloomFilter.merge a peer = Return s tt ->
  nth_error (AttenuatedBloomFilter.levels a) (S i) = Some localFilter ->
  nth_error (AttenuatedBloomFilter.levels peer) i = Some foreignFilter ->
  nth_error (AttenuatedBloomFilter.levels s) (S i) = Some (merged localFilter foreignFilter).
Proof.
  unfold AttenuatedBloomFilter.merge. intros Hm Hl Hf.
  destruct (AttenuatedBloomFilter.merge_loop 0 _ _) as [ls [e|]] eqn:E; [discriminate|].
  injection Hm as <-. cbn [AttenuatedBloomFilter.levels].
  apply (merge_loop_nth _ _ _ _ _ _ _ E Hl); [|lia].
  replace (0 + S i - 1)%nat with i by lia. exact Hf.
Qed.

End MergeLevels.

(** ** AttenuatedBloomFilter: merge with a shorter peer *)

Section MergeRaises.

(** [merge] returns exactly when every local level from 1 on finds the
    foreign level before it. *)
Lemma merge_loop_returns_iff (foreignFilters locals : list BloomFilter.t) (localIndex : nat) :
  snd (AttenuatedBloomFilter.merge_loop localIndex locals foreignFilters) = None
  <-> locals = [] \/
      (localIndex + List.length locals <= List.length foreignFilters + 1)%nat.
Proof.
  revert localIndex. induction locals as [|f tl IH]; intros i.
  - simpl. tauto.
  - cbn [AttenuatedBloomFilter.merge_loop List.length]. destruct i as [|j].
    + specialize (IH 1%nat).
      destruct (AttenuatedBloomFilter.merge_loop 1 tl foreignFilters) as [rest e].
      simpl in *. rewrite IH. split.
      * intros [->|H]; right; simpl; lia.
      * intros [H|H]; [discriminate|]. destruct tl; [now left|right]. simpl in *. lia.
    + destruct (nth_error foreignFilters j) as [g|] eqn:E.
      * specialize (IH (S (S j))).
        destruct (AttenuatedBloomFilter.merge_loop (S (S j)) tl foreignFilters) as [rest e].
        simpl in *. rewrite IH.
        assert (j < List.length foreignFilters)%nat by (apply nth_error_Some; congruence).
        split.
        -- intros [->|H']; right; simpl; lia.
        -- intros [H'|H']; [discriminate|]. destruct tl; [now left|right]. simpl in *. lia.
      * simpl. apply nth_error_None in E. split; [discriminate|].
        intros [H|H]; [discriminate|lia].
Qed.

(** A peer with two or more levels fewer than the local filter makes
    [merge] raise. *)
Lemma merge_raises (a peer : AttenuatedBloomFilter.t) :
  (List.length (AttenuatedBloomFilter.levels peer) + 1
   < List.length (AttenuatedBloomFilter.levels a))%nat ->
  exists s, AttenuatedBloomFilter.merge a peer = Throw s TypeError.
Proof.
  intros H. unfold AttenuatedBloomFilter.merge.
  pose proof (merge_loop_returns_iff (AttenuatedBloomFilter.levels peer)
                (AttenuatedBloomFilter.levels a) 0) as Hiff.
  destruct (AttenuatedBloomFilter.merge_loop 0 _ _) as [ls [[]|]]; simpl in Hiff.
  - eexists. reflexivity.
  - exfalso. destruct Hiff as [Hiff _]. destruct (Hiff eq_refl) as [E|E].
    + rewrite E in H. simpl in H. lia.
    + lia.
Qed.

(** A peer with at most one level fewer lets [merge] return. *)
Lemma merge_returns (a peer : AttenuatedBloomFilter.t) :
  (List.length (AttenuatedBloomFilter.levels a)
   <= List.length (AttenuatedBloomFilter.levels peer) + 1)%nat ->
  exists s, AttenuatedBloomFilter.merge a peer = Return s tt.
Proof.
  intros H. unfold AttenuatedBloomFilter.merge.
  pose proof (merge_loop_returns_iff (AttenuatedBloomFilter.levels peer)
                (AttenuatedBloomFilter.levels a) 0) as Hiff.
  destruct (AttenuatedBloomFilter.merge_loop 0 _ _) as [ls [e|]]; simpl in Hiff.
  - destruct Hiff as [_ Hiff]. discriminate Hiff. right. simpl. lia.
  - eexists. reflexivity.
Qed.

(** [merge] never changes level 0. *)
Lemma merge_level0_unchanged (a peer : AttenuatedBloomFilter.t) :
  nth_error (AttenuatedBloomFilter.levels
               (state_of (AttenuatedBloomFilter.merge a peer))) 0
  = nth_error (AttenuatedBloomFilter.levels a) 0.
Proof.
  unfold AttenuatedBloomFilter.merge.
  destruct (AttenuatedBloomFilter.levels a) as [|f tl]; [reflexivity|].
  cbn [AttenuatedBloomFilter.merge_loop].
  destruct (AttenuatedBloomFilter.merge_loop 1 tl _) as [rest [e|]]; reflexivity.
Qed.

End MergeRaises.

Section SnapshotInvariants.

Lemma or_default_nonzero (x : option R) (d : R) :
  d <> 0%R -> ScalingBloomFilter.or_default x d <> 0%R.
Proof.
  intros Hd. unfold ScalingBloomFilter.or_default.
  destruct x as [v|]; [|assumption].
  destruct (Req_dec_T v 0); assumption.
Qed.

(** The factors of a constructed scaling filter are never 0. *)
Lemma ScalingBloomFilter_new_nonzero (errorRate : option R)
    (opts : option ScalingBloomFilter.options) :
  let s := ScalingBloomFilter.new errorRate opts in
  ScalingBloomFilter.ratio s <> 0%R /\
  ScalingBloomFilter.scaling s <> 0%R /\
  ScalingBloomFilter.initialCapacity s <> 0%R.
Proof.
  unfold ScalingBloomFilter.new. cbn.
  repeat split; apply or_default_nonzero; lra.
Qed.

Lemma SafeBloomFilter_add_buffer_ok (f : SafeBloomFilter.t) (key : Buffer) :
  Buffer_ok (BloomFilter_buffer (SafeBloomFilter.filter f)) ->
  Buffer_ok (BloomFilter_buffer (SafeBloomFilter.filter (fst (SafeBloomFilter.add f key)))).
Proof.
  intros H. destruct (SafeBloomFilter_add_cases f key) as [E|E]; rewrite E; [exact H|].
  now apply BloomFilter_add_ok.
Qed.

Lemma SafeBloomFilter_new_buffer_ok (capacity errorRate : option R) :
  Buffer_ok (BloomFilter_buffer (SafeBloomFilter.filter
                                   (SafeBloomFilter.new capacity errorRate None))).
Proof. apply Buffer_alloc_ok. Qed.

End SnapshotInvariants.

(** C5, as the code has it: a filter rebuilt from its snapshot is the
    filter itself, so [has] agrees on every key, for [BloomFilter],
    [SafeBloomFilter] and [ScalingBloomFilter] with [destringify]; and for
    [AttenuatedBloomFilter.from] on the output of [toHexArray] when the
    filter has a level and its [bitfieldSize] is a multiple of 8.  The
    filters are as their constructors build them: buffers of bytes, the
    bounded filters sized from capacity and error rate, the factors of the
    scaling filter other than 0. *)
Theorem snapshot_roundtrip :
  (forall f : BloomFilter.t,
     Buffer_ok (BloomFilter_buffer f) ->
     BloomFilter.destringify (BloomFilter.toJSON f) = f /\
     (forall k, BloomFilter.has (BloomFilter.destringify (BloomFilter.toJSON f)) k
                = BloomFilter.has f k)) /\
  (forall f : SafeBloomFilter.t,
     SafeBloomFilter_sized f ->
     Buffer_ok (BloomFilter_buffer (SafeBloomFilter.filter f)) ->
     SafeBloomFilter.destringify (SafeBloomFilter.toJSON f) = f /\
     (forall k, SafeBloomFilter.has (SafeBloomFilter.destringify (SafeBloomFilter.toJSON f)) k
                = SafeBloomFilter.has f k)) /\
  (forall s : ScalingBloomFilter.t,
     ScalingBloomFilter.ratio s <> 0%R ->
     ScalingBloomFilter.scaling s <> 0%R ->
     ScalingBloomFilter.initialCapacity s <> 0%R ->
     Forall (fun f => SafeBloomFilter_sized f /\
                      Buffer_ok (BloomFilter_buffer (SafeBloomFilter.filter f)))
            (ScalingBloomFilter.filters s) ->
     ScalingBloomFilter.destringify (ScalingBloomFilter.toJSON s) = s /\
     (forall k, ScalingBloomFilter.has
                  (ScalingBloomFilter.destringify (ScalingBloomFilter.toJSON s)) k
                = ScalingBloomFilter.has s k)) /\
  (forall a : AttenuatedBloomFilter.t,
     AttenuatedBloomFilter_built a ->
     AttenuatedBloomFilter.levels a <> [] ->
     1 <= AttenuatedBloomFilter.bitfieldSize a ->
     AttenuatedBloomFilter.bitfieldSize a mod 8 = 0 ->
     AttenuatedBloomFilter.from (AttenuatedBloomFilter.toHexArray a) = Some a).
Proof.
  split; [|split; [|split]].
  - intros f H. rewrite BloomFilter_roundtrip by assumption. auto.
  - intros f Hs H. rewrite SafeBloomFilter_roundtrip by assumption. auto.
  - intros s Hr Hs Hc H. rewrite ScalingBloomFilter_roundtrip by assumption. auto.
  - apply AttenuatedBloomFilter_roundtrip.
Qed.

Lemma snapshot_roundtrip_witness :
  let a := AttenuatedBloomFilter.new None in
  AttenuatedBloomFilter_built a /\
  AttenuatedBloomFilter.levels a <> [] /\
  1 <= AttenuatedBloomFilter.bitfieldSize a /\
  AttenuatedBloomFilter.bitfieldSize a mod 8 = 0 /\
  AttenuatedBloomFilter.from (AttenuatedBloomFilter.toHexArray a) = Some a.
Proof.
  intros a.
  assert (Hb : AttenuatedBloomFilter_built a)
    by (apply AttenuatedBloomFilter_new_built; simpl; lia).
  assert (Hne : AttenuatedBloomFilter.levels a <> []) by (simpl; discriminate).
  assert (Hs : 1 <= AttenuatedBloomFilter.bitfieldSize a) by (simpl; lia).
  assert (H8 : AttenuatedBloomFilter.bitfieldSize a mod 8 = 0) by reflexivity.
  split; [exact Hb|]. split; [exact Hne|]. split; [exact Hs|]. split; [exact H8|].
  destruct snapshot_roundtrip as (_ & _ & _ & H).
  apply H; assumption.
Defined.

(** C5 as stated fails for an attenuated filter whose [bitfieldSize] is not
    a multiple of 8: [from] takes eight times the byte length as the size.
    With 100 bits and 'foo' added at level 0, the rebuilt filter has 104
    bits, and its level 0 does not have 'foo'. *)
Lemma from_toHexArray_changes_size :
  let foo := Buffer_from "foo" in
  let a := AttenuatedBloomFilter.level_add
             (AttenuatedBloomFilter.new
                (Some (AttenuatedBloomFilter.mkOptions (Some 100) None))) 0 foo in
  exists a',
    AttenuatedBloomFilter.from (AttenuatedBloomFilter.toHexArray a) = Some a' /\
    AttenuatedBloomFilter.bitfieldSize a = 100 /\
    AttenuatedBloomFilter.bitfieldSize a' = 104 /\
    AttenuatedBloomFilter.level_has a 0 foo = true /\
    AttenuatedBloomFilter.level_has a' 0 foo = false.
Proof.
  intros foo a.
  assert (Ea : a = AttenuatedBloomFilter.mk 100 3
                 [ BloomFilter.mk 100 2
                     (BloomFilter.add_loop (Bitfield.new 100 None) (hash_indices foo 100 2));
                   BloomFilter.new (Some 100) (Some 2%R) None;
                   BloomFilter.new (Some 100) (Some 2%R) None ]).
  { subst a. unfold AttenuatedBloomFilter.level_add, AttenuatedBloomFilter.new.
    cbn [AttenuatedBloomFilter.or_default AttenuatedBloomFilter.opt_bitfieldSize
         AttenuatedBloomFilter.opt_filterDepth AttenuatedBloomFilter.levels
         AttenuatedBloomFilter.bitfieldSize AttenuatedBloomFilter.filterDepth
         Z.eqb].
    change (Z.to_nat 3) with 3%nat.
    cbn [repeat AttenuatedBloomFilter.add_at].
    rewrite (BloomFilter_add_whole _ 2) by reflexivity.
    reflexivity. }
  rewrite Ea. clear Ea a.
  eexists. split; [vm_compute; reflexivity|].
  split; [reflexivity|]. split; [reflexivity|].
  unfold AttenuatedBloomFilter.level_has. cbn [AttenuatedBloomFilter.levels nth_error].
  rewrite !(BloomFilter_has_whole _ 2) by reflexivity.
  split; vm_compute; reflexivity.
Qed.

(** ** Return values and errors *)

Section ReturnValues.

Lemma ScalingBloomFilter_add_return_value (s : ScalingBloomFilter.t) (f : SafeBloomFilter.t)
    (key : Buffer) :
  ScalingBloomFilter.tail (ScalingBloomFilter.filters s) = Some f ->
  ((IZR (SafeBloomFilter.count f) < SafeBloomFilter.capacity f)%R ->
     exists s', ScalingBloomFilter.add s key = Return s' ScalingBloomFilter.undefined) /\
  ((IZR (SafeBloomFilter.count f) >= SafeBloomFilter.capacity f)%R ->
     exists s', ScalingBloomFilter.add s key = Return s' ScalingBloomFilter.this).
Proof.
  intros Ht. unfold ScalingBloomFilter.add. rewrite Ht. split; intros H.
  - rewrite SafeBloomFilter_add_room by assumption. eexists. reflexivity.
  - rewrite SafeBloomFilter_add_full by assumption. eexists. reflexivity.
Qed.

End ReturnValues.

(** C9 fails on the code: on a fresh scaling filter the tail accepts the
    key and [add] returns [undefined], not the filter. *)
Theorem ScalingBloomFilter_add_returns_undefined :
  exists s',
    ScalingBloomFilter.add (ScalingBloomFilter.new None None) (Buffer_from "foo")
    = Return s' ScalingBloomFilter.undefined.
Proof.
  eapply ScalingBloomFilter_add_return_value.
  - reflexivity.
  - simpl. lra.
Qed.

(** C7 fails on the code: a fresh filter of depth 3 merged with a peer of
    depth 1 raises a TypeError at level 2, and leaves the local filter as it
    was. *)
Theorem merge_short_peer_raises :
  let local := AttenuatedBloomFilter.new None in
  let peer :=
    AttenuatedBloomFilter.new (Some (AttenuatedBloomFilter.mkOptions None (Some 1))) in
  List.length (AttenuatedBloomFilter.levels local) = 3%nat /\
  List.length (AttenuatedBloomFilter.levels peer) = 1%nat /\
  AttenuatedBloomFilter.merge local peer = Throw local TypeError.
Proof. repeat split. Qed.

(** ** The test vectors of the repository *)

Ltac run_filters :=
  repeat rewrite (BloomFilter_add_whole _ 2) by reflexivity;
  repeat rewrite (BloomFilter_has_whole _ 2) by reflexivity;
  vm_compute; reflexivity.

Example FNV_foobar_zero :
  FNV.digest_hex (FNV.update FNV.new (Buffer_from "foobar" ++ [0])) = "0c1c9eb8"%string.
Proof. vm_compute. reflexivity. Qed.

Example BloomFilter_empty_and_add :
  let f := BloomFilter.new (Some 8) (Some 2%R) None in
  BloomFilter.has f (Buffer_from "foo") = false /\
  BloomFilter.has (BloomFilter.add f (Buffer_from "foo")) (Buffer_from "foo") = true /\
  BloomFilter.has (BloomFilter.add f (Buffer_from "foo")) (Buffer_from "bar") = false.
Proof. cbv zeta. repeat split; run_filters. Qed.

Example toHexArray_vectors :
  let a := AttenuatedBloomFilter.new None in
  let a := AttenuatedBloomFilter.level_add a 0 (Buffer_from "test one") in
  let a := AttenuatedBloomFilter.level_add a 1 (Buffer_from "test two") in
  let a := AttenuatedBloomFilter.level_add a 2 (Buffer_from "test three") in
  AttenuatedBloomFilter.toHexArray a
  = [ "0000000000000100000000000040000000000000";
      "0010000000001000000000000000000000000000";
      "0000000040000000000000000100000000000000" ]%string.
Proof.
  cbv zeta.
  unfold AttenuatedBloomFilter.toHexArray, AttenuatedBloomFilter.level_add,
    AttenuatedBloomFilter.new.
  cbn [AttenuatedBloomFilter.or_default AttenuatedBloomFilter.opt_bitfieldSize
       AttenuatedBloomFilter.opt_filterDepth AttenuatedBloomFilter.levels
       AttenuatedBloomFilter.bitfieldSize AttenuatedBloomFilter.filterDepth].
  change (Z.to_nat 3) with 3%nat.
  cbn [repeat AttenuatedBloomFilter.add_at map].
  run_filters.
Qed.

Example from_vectors :
  exists a,
    AttenuatedBloomFilter.from
      [ "0000000000000100000000000040000000000000";
        "0010000000001000000000000000000000000000";
        "0000000040000000000000000100000000000000" ]%string = Some a /\
    AttenuatedBloomFilter.filterDepth a = 3 /\
    AttenuatedBloomFilter.bitfieldSize a = 160 /\
    AttenuatedBloomFilter.level_has a 0 (Buffer_from "test one") = true /\
    AttenuatedBloomFilter.level_has a 1 (Buffer_from "test two") = true /\
    AttenuatedBloomFilter.level_has a 2 (Buffer_from "test three") = true.
Proof.
  eexists. split; [vm_compute; reflexivity|].
  split; [reflexivity|]. split; [reflexivity|].
  unfold AttenuatedBloomFilter.level_has. cbn [AttenuatedBloomFilter.levels nth_error].
  repeat split; run_filters.
Qed.

(** * Further properties of the code *)

(** ** The bit field: set, get and toggle *)

Section BitfieldOps.

Lemma bit_position (index : Z) : 0 <= index -> 0 <= index mod 8 < 8.
Proof. intros _. apply Z.mod_pos_bound. lia. Qed.

(** The byte [set(index, false)] stores has the bits of the old byte but
    bit [index mod 8]. *)
Lemma clear_byte_testbit (old index b : Z) :
  0 <= index -> 0 <= b < 8 ->
  Z.testbit (Js.ToUint8 (Js.and old (Js.not (Js.shl 1 (Z.rem index 8))))) b
  = Z.testbit old b && negb (b =? index mod 8).
Proof.
  intros Hi Hb. unfold Js.ToUint8, Js.and, Js.not.
  rewrite Z.rem_mod_nonneg by lia.
  pose proof (bit_position index Hi) as Hm.
  rewrite shl_1 by lia.
  assert (H8 : 2 ^ (index mod 8) <= 2 ^ 7) by (apply Z.pow_le_mono_r; lia).
  assert (H0 : 0 < 2 ^ (index mod 8)) by (apply Z.pow_pos_nonneg; lia).
  rewrite (ToInt32_small (2 ^ (index mod 8))) by lia.
  rewrite (ToInt32_small (Z.lnot _)) by (unfold Z.lnot; lia).
  change 256 with (2 ^ 8).
  rewrite Z.mod_pow2_bits_low by lia.
  rewrite Z.land_spec, ToInt32_testbit, Z.lnot_spec by lia.
  f_equal. f_equal.
  destruct (Z.eqb_spec b (index mod 8)) as [->|Hne].
  - apply Z.pow2_bits_true. lia.
  - apply Z.pow2_bits_false. lia.
Qed.

(** The byte [toggle(index)] stores has bit [index mod 8] of the old byte
    flipped. *)
Lemma toggle_byte_testbit (old index b : Z) :
  0 <= index -> 0 <= b < 8 ->
  Z.testbit (Js.ToUint8 (Js.xor old (Js.shl 1 (Z.rem index 8)))) b
  = xorb (Z.testbit old b) (b =? index mod 8).
Proof.
  intros Hi Hb. unfold Js.ToUint8, Js.xor.
  rewrite Z.rem_mod_nonneg by lia.
  pose proof (bit_position index Hi) as Hm.
  rewrite shl_1 by lia.
  assert (H8 : 2 ^ (index mod 8) <= 2 ^ 7) by (apply Z.pow_le_mono_r; lia).
  assert (H0 : 0 < 2 ^ (index mod 8)) by (apply Z.pow_pos_nonneg; lia).
  rewrite (ToInt32_small (2 ^ (index mod 8))) by lia.
  change 256 with (2 ^ 8).
  rewrite Z.mod_pow2_bits_low by lia.
  rewrite Z.lxor_spec, ToInt32_testbit by lia.
  f_equal.
  destruct (Z.eqb_spec b (index mod 8)) as [->|Hne].
  - apply Z.pow2_bits_true. lia.
  - apply Z.pow2_bits_false. lia.
Qed.

(** Every operation stores into byte [index >>> 3] only. *)
Lemma Bitfield_set_buffer (bf : Bitfield.t) (index : Z) (v : bool) :
  exists byte, Bitfield.buffer (Bitfield.set bf index v)
               = Buffer_set (Bitfield.buffer bf) (Js.ushr index 3) byte /\
    (0 <= index -> forall b, 0 <= b < 8 ->
       Z.testbit (Js.ToUint8 byte) b
       = if b =? index mod 8 then v
         else Z.testbit (Buffer_get (Bitfield.buffer bf) (Js.ushr index 3)) b).
Proof.
  unfold Bitfield.set. destruct v; eexists; (split; [reflexivity|]); intros Hi b Hb.
  - rewrite set_byte_testbit by lia.
    destruct (b =? index mod 8); [apply orb_true_r|apply orb_false_r].
  - rewrite clear_byte_testbit by lia.
    destruct (b =? index mod 8); [apply andb_false_r|apply andb_true_r].
Qed.

End BitfieldOps.

(** X1: [set] then [get].  For an index whose byte is inside the buffer,
    [get] after [set(index, v)] returns [v]; and [set] changes no other bit:
    every index at another byte or another bit position reads as before. *)
Theorem Bitfield_set_get (bf : Bitfield.t) (index : Z) (v : bool) :
  0 <= index ->
  (Js.ushr index 3 < Z.of_nat (List.length (Bitfield.buffer bf)) ->
   Bitfield.get (Bitfield.set bf index v) index = v) /\
  (forall j, 0 <= j ->
     Js.ushr j 3 <> Js.ushr index 3 \/ j mod 8 <> index mod 8 ->
     Bitfield.get (Bitfield.set bf index v) j = Bitfield.get bf j) /\
  List.length (Bitfield.buffer (Bitfield.set bf index v))
  = List.length (Bitfield.buffer bf).
Proof.
  intros Hi.
  destruct (Bitfield_set_buffer bf index v) as (byte & Ebuf & Hbits).
  specialize (Hbits Hi).
  pose proof (ushr_3_bounds index Hi) as Hp.
  split; [|split].
  - intros Hlen. rewrite Bitfield_get_testbit, Ebuf by assumption.
    rewrite Buffer_get_set_same by lia.
    rewrite Hbits by (apply bit_position; assumption).
    now rewrite Z.eqb_refl.
  - intros j Hj Hdiff.
    rewrite !Bitfield_get_testbit, Ebuf by assumption.
    destruct (Z.eq_dec (Js.ushr index 3) (Js.ushr j 3)) as [E|E].
    + destruct (Z_lt_le_dec (Js.ushr index 3) (Z.of_nat (List.length (Bitfield.buffer bf))))
        as [Hin|Hout].
      * rewrite <- E, Buffer_get_set_same by lia.
        rewrite Hbits by (apply bit_position; assumption).
        destruct (Z.eqb_spec (j mod 8) (index mod 8)) as [E8|_]; [|reflexivity].
        destruct Hdiff; congruence.
      * now rewrite Buffer_set_beyond by lia.
    + now rewrite Buffer_get_set_other by assumption.
  - apply Bitfield_set_length.
Qed.

Lemma Bitfield_set_get_witness :
  let bf := Bitfield.new 32 None in
  0 <= 14 /\ Js.ushr 14 3 < Z.of_nat (List.length (Bitfield.buffer bf)) /\
  Bitfield.get (Bitfield.set bf 14 true) 14 = true /\
  Bitfield.get (Bitfield.set bf 14 true) 13 = Bitfield.get bf 13.
Proof.
  intros bf. split; [lia|]. split; [vm_compute; reflexivity|].
  destruct (Bitfield_set_get bf 14 true ltac:(lia)) as (H1 & H2 & _).
  split.
  - apply H1. vm_compute. reflexivity.
  - apply H2; [lia|]. right. vm_compute. discriminate.
Defined.

Section BitfieldToggle.

Lemma replace_nth_twice (n : nat) (buf : Buffer) (v w : Z) :
  replace_nth n (replace_nth n buf v) w = replace_nth n buf w.
Proof.
  revert n. induction buf as [|x tl IH]; intros [|n]; simpl; auto.
  now rewrite IH.
Qed.

Lemma replace_nth_id (n : nat) (buf : Buffer) :
  replace_nth n buf (nth n buf 0) = buf.
Proof.
  revert n. induction buf as [|x tl IH]; intros [|n]; simpl; auto.
  now rewrite IH.
Qed.

Lemma Buffer_set_twice (buf : Buffer) (i v w : Z) :
  Buffer_set (Buffer_set buf i v) i w = Buffer_set buf i w.
Proof.
  unfold Buffer_set. destruct (i <? 0); [reflexivity|apply replace_nth_twice].
Qed.

Lemma Buffer_set_id (buf : Buffer) (i v : Z) :
  Js.ToUint8 v = Buffer_get buf i -> Buffer_set buf i v = buf.
Proof.
  unfold Buffer_set, Buffer_get. destruct (i <? 0); [reflexivity|].
  intros ->. apply replace_nth_id.
Qed.

Lemma byte_eq_bits (x y : Z) :
  0 <= x < 256 -> 0 <= y < 256 ->
  (forall b, 0 <= b < 8 -> Z.testbit x b = Z.testbit y b) -> x = y.
Proof.
  intros Hx Hy H. apply Z.bits_inj'. intros b Hb.
  destruct (Z_lt_le_dec b 8) as [Hlt|Hge]; [apply H; lia|].
  rewrite !(Z.bits_above_log2) ; try lia; try reflexivity.
  - destruct (Z.eq_dec y 0) as [->|]; [simpl; lia|].
    assert (Z.log2 y < 8) by (apply Z.log2_lt_pow2; lia). lia.
  - destruct (Z.eq_dec x 0) as [->|]; [simpl; lia|].
    assert (Z.log2 x < 8) by (apply Z.log2_lt_pow2; lia). lia.
Qed.

Lemma ToUint8_range (v : Z) : 0 <= Js.ToUint8 v < 256.
Proof. unfold Js.ToUint8. apply Z.mod_pos_bound. lia. Qed.

Lemma ToUint8_testbit (v b : Z) :
  0 <= b < 8 -> Z.testbit (Js.ToUint8 v) b = Z.testbit v b.
Proof.
  intros Hb. unfold Js.ToUint8. change 256 with (2 ^ 8).
  apply Z.mod_pow2_bits_low. lia.
Qed.

End BitfieldToggle.

(** X2: [toggle] flips the bit at an index whose byte is inside the buffer
    and changes no other bit; toggling the same index twice gives the
    buffer back. *)
Theorem Bitfield_toggle_flips (bf : Bitfield.t) (index : Z) :
  0 <= index -> Buffer_ok (Bitfield.buffer bf) ->
  (Js.ushr index 3 < Z.of_nat (List.length (Bitfield.buffer bf)) ->
   Bitfield.get (Bitfield.toggle bf index) index = negb (Bitfield.get bf index)) /\
  (forall j, 0 <= j ->
     Js.ushr j 3 <> Js.ushr index 3 \/ j mod 8 <> index mod 8 ->
     Bitfield.get (Bitfield.toggle bf index) j = Bitfield.get bf j) /\
  Bitfield.toggle (Bitfield.toggle bf index) index = bf.
Proof.
  intros Hi Hok.
  pose proof (ushr_3_bounds index Hi) as Hp.
  pose proof (bit_position index Hi) as Hm.
  split; [|split].
  - intros Hlen. rewrite !Bitfield_get_testbit by assumption.
    unfold Bitfield.toggle. cbn [Bitfield.buffer].
    rewrite Buffer_get_set_same by lia.
    rewrite toggle_byte_testbit, Z.eqb_refl by lia.
    now destruct (Z.testbit _ _).
  - intros j Hj Hdiff. rewrite !Bitfield_get_testbit by assumption.
    unfold Bitfield.toggle. cbn [Bitfield.buffer].
    destruct (Z.eq_dec (Js.ushr index 3) (Js.ushr j 3)) as [E|E].
    + destruct (Z_lt_le_dec (Js.ushr index 3) (Z.of_nat (List.length (Bitfield.buffer bf))))
        as [Hin|Hout].
      * rewrite <- E, Buffer_get_set_same by lia.
        rewrite toggle_byte_testbit by (try apply bit_position; lia).
        destruct (Z.eqb_spec (j mod 8) (index mod 8)) as [E8|_].
        -- destruct Hdiff; congruence.
        -- apply xorb_false_r.
      * now rewrite Buffer_set_beyond by lia.
    + now rewrite Buffer_get_set_other by assumption.
  - destruct bf as [buf]. unfold Bitfield.toggle. cbn [Bitfield.buffer] in *. f_equal.
    destruct (Z_lt_le_dec (Js.ushr index 3) (Z.of_nat (List.length buf))) as [Hin|Hout].
    + rewrite Buffer_get_set_same by lia. rewrite Buffer_set_twice.
      apply Buffer_set_id. apply byte_eq_bits.
      * apply ToUint8_range.
      * now apply Buffer_get_ok.
      * intros b Hb. rewrite toggle_byte_testbit by lia.
        rewrite toggle_byte_testbit by lia.
        now destruct (Z.testbit _ _), (b =? index mod 8).
    + rewrite (Buffer_set_beyond buf) by lia. now rewrite Buffer_set_beyond by lia.
Qed.

Lemma Bitfield_toggle_flips_witness :
  let bf := Bitfield.new 8 None in
  0 <= 0 /\ Buffer_ok (Bitfield.buffer bf) /\
  Bitfield.toggle (Bitfield.toggle bf 0) 0 = bf.
Proof.
  intros bf. split; [lia|].
  assert (Hok : Buffer_ok (Bitfield.buffer bf)) by apply Buffer_alloc_ok.
  split; [exact Hok|].
  apply (Bitfield_toggle_flips bf 0); [lia|exact Hok].
Defined.

(** X3: an index whose byte lies beyond the buffer touches nothing: [set]
    and [toggle] leave the bit field as it is, and [get] returns false.
    This is so for every index from eight times the buffer length up to
    2^32. *)
Theorem Bitfield_out_of_range (bf : Bitfield.t) (index : Z) (v : bool) :
  8 * Z.of_nat (List.length (Bitfield.buffer bf)) <= index < 2 ^ 32 ->
  Bitfield.set bf index v = bf /\
  Bitfield.toggle bf index = bf /\
  Bitfield.get bf index = false.
Proof.
  intros [Hlo Hhi].
  assert (Hpos : Z.of_nat (List.length (Bitfield.buffer bf)) <= Js.ushr index 3).
  { rewrite ushr_3, Z.mod_small by lia. apply Z.div_le_lower_bound; lia. }
  destruct bf as [buf]. cbn [Bitfield.buffer] in *.
  split; [|split].
  - unfold Bitfield.set. cbn [Bitfield.buffer].
    destruct v; now rewrite Buffer_set_beyond by assumption.
  - unfold Bitfield.toggle. cbn [Bitfield.buffer].
    now rewrite Buffer_set_beyond by assumption.
  - unfold Bitfield.get. cbn [Bitfield.buffer].
    replace (Buffer_get buf (Js.ushr index 3)) with 0; [reflexivity|].
    unfold Buffer_get. destruct (Js.ushr index 3 <? 0); [reflexivity|].
    symmetry. apply nth_overflow. lia.
Qed.

Lemma Bitfield_out_of_range_witness :
  let bf := Bitfield.new 10 None in
  8 * Z.of_nat (List.length (Bitfield.buffer bf)) <= 16 < 2 ^ 32 /\
  Bitfield.set bf 16 true = bf /\ Bitfield.get bf 16 = false.
Proof.
  intros bf.
  assert (H : 8 * Z.of_nat (List.length (Bitfield.buffer bf)) <= 16 < 2 ^ 32)
    by (vm_compute; split; [discriminate|reflexivity]).
  split; [exact H|].
  destruct (Bitfield_out_of_range bf 16 true H) as (H1 & _ & H3). auto.
Defined.

Section Allocation.

(** The constructor returns when a buffer of the right length is supplied
    or the allocation is within the limit; it then returns the bit field
    of [Bitfield.new]. *)
Lemma Bitfield_constructor_returns (kMaxLength number : Z) (buffer : option Buffer) :
  Bitfield_allocates kMaxLength number ->
  Bitfield_constructor kMaxLength number buffer = Allocated (Bitfield.new number buffer).
Proof.
  intros [H0 H1]. unfold Bitfield_constructor, Bitfield.new, Buffer_alloc_checked.
  replace (0 <=? Bitfield.byteLength number) with true by (symmetry; now apply Z.leb_le).
  replace (Bitfield.byteLength number <=? kMaxLength) with true
    by (symmetry; now apply Z.leb_le).
  cbn [andb]. destruct buffer as [b|]; [|reflexivity].
  destruct (Z.of_nat (List.length b) =? Bitfield.byteLength number); reflexivity.
Qed.

Lemma Bitfield_constructor_raises (kMaxLength number : Z) (buffer : option Buffer) :
  ~ Bitfield_allocates kMaxLength number ->
  (forall b, buffer = Some b -> Z.of_nat (List.length b) <> Bitfield.byteLength number) ->
  Bitfield_constructor kMaxLength number buffer = RangeError.
Proof.
  intros Hn Hb. unfold Bitfield_constructor, Buffer_alloc_checked.
  assert (E : (0 <=? Bitfield.byteLength number)
              && (Bitfield.byteLength number <=? kMaxLength) = false).
  { apply andb_false_iff. unfold Bitfield_allocates in Hn.
    destruct (Z.leb_spec 0 (Bitfield.byteLength number)); [|now left].
    right. apply Z.leb_gt. lia. }
  rewrite E. destruct buffer as [b|]; [|reflexivity].
  specialize (Hb b eq_refl). apply Z.eqb_neq in Hb. now rewrite Hb.
Qed.

End Allocation.

(** X4: the constructor.  Let [kMaxLength] be the largest length of a
    buffer.  For a bit count [number >= 0] whose byte length
    [ceil(number / 8)] is at most [kMaxLength] the constructor returns; the
    buffer has [ceil(number / 8)] bytes; a supplied buffer of exactly that
    length is kept, any other is replaced by a zero-filled one; and on a
    bit field constructed without a buffer every [get] returns false.  For
    a byte length above [kMaxLength] the constructor raises a RangeError,
    unless a buffer of that length is supplied; so it does for 2^39 bits
    when [kMaxLength] is below 2^36. *)
Theorem Bitfield_new_buffer (kMaxLength number : Z) (buffer : option Buffer) :
  0 <= number ->
  ((number + 7) / 8 <= kMaxLength ->
   Bitfield_constructor kMaxLength number buffer = Allocated (Bitfield.new number buffer) /\
   Z.of_nat (List.length (Bitfield.buffer (Bitfield.new number buffer))) = (number + 7) / 8 /\
   (forall b, buffer = Some b -> Z.of_nat (List.length b) = (number + 7) / 8 ->
      Bitfield.buffer (Bitfield.new number buffer) = b) /\
   (forall b, buffer = Some b -> Z.of_nat (List.length b) <> (number + 7) / 8 ->
      Bitfield.buffer (Bitfield.new number buffer)
      = repeat 0 (Z.to_nat ((number + 7) / 8))) /\
   (forall index, Bitfield.get (Bitfield.new number None) index = false)) /\
  (kMaxLength < (number + 7) / 8 ->
   (forall b, buffer = Some b -> Z.of_nat (List.length b) <> (number + 7) / 8) ->
   Bitfield_constructor kMaxLength number buffer = RangeError) /\
  (kMaxLength < 2 ^ 36 -> Bitfield_constructor kMaxLength (2 ^ 39) None = RangeError).
Proof.
  intros Hn.
  assert (Hlen : 0 <= (number + 7) / 8) by (apply Z.div_pos; lia).
  split; [|split].
  - intros Hmax. split.
    { apply Bitfield_constructor_returns. unfold Bitfield_allocates.
      rewrite byteLength_ceil. lia. }
    unfold Bitfield.new. rewrite byteLength_ceil.
    assert (Halloc : Z.of_nat (List.length (Buffer_alloc ((number + 7) / 8)))
                     = (number + 7) / 8).
    { unfold Buffer_alloc. rewrite repeat_length. lia. }
    split; [|split; [|split]].
    + destruct buffer as [b|]; [|exact Halloc].
      destruct (Z.eqb_spec (Z.of_nat (List.length b)) ((number + 7) / 8)); simpl; assumption.
    + intros b -> Hb. apply Z.eqb_eq in Hb. now rewrite Hb.
    + intros b -> Hb. apply Z.eqb_neq in Hb. now rewrite Hb.
    + intros index. unfold Bitfield.get. cbn [Bitfield.buffer].
      replace (Buffer_get (Buffer_alloc ((number + 7) / 8)) (Js.ushr index 3)) with 0;
        [reflexivity|].
      unfold Buffer_get, Buffer_alloc. destruct (Js.ushr index 3 <? 0); [reflexivity|].
      destruct (nth_in_or_default (Z.to_nat (Js.ushr index 3))
                  (repeat 0 (Z.to_nat ((number + 7) / 8))) 0) as [Hin| ->]; [|reflexivity].
      apply repeat_spec in Hin. now rewrite Hin.
  - intros Hmax Hb. apply Bitfield_constructor_raises.
    + unfold Bitfield_allocates. rewrite byteLength_ceil. lia.
    + intros b E. rewrite byteLength_ceil. now apply Hb.
  - intros Hmax. apply Bitfield_constructor_raises; [|discriminate].
    unfold Bitfield_allocates. rewrite byteLength_ceil.
    replace ((2 ^ 39 + 7) / 8) with (2 ^ 36) by reflexivity. lia.
Qed.

Lemma Bitfield_new_buffer_witness :
  0 <= 10 /\
  Bitfield_constructor (2 ^ 32) 10 (Some [1; 2; 3])
  = Allocated (Bitfield.new 10 (Some [1; 2; 3])) /\
  Z.of_nat (List.length (Bitfield.buffer (Bitfield.new 10 (Some [1; 2; 3])))) = (10 + 7) / 8.
Proof.
  split; [lia|].
  destruct (Bitfield_new_buffer (2 ^ 32) 10 (Some [1; 2; 3]) ltac:(lia)) as [H _].
  destruct (H ltac:(vm_compute; discriminate)) as (H1 & H2 & _).
  split; [exact H1 | exact H2].
Defined.

(** The repository's tests of large bit fields: with buffers of up to 2^32
    bytes, the bit fields of 2852448541, 2^31 + 1 and 2^32 bits are
    allocated, and the one of 2^39 bits is not. *)
Example Bitfield_bigone :
  Bitfield_allocates (2 ^ 32) 2852448541 /\
  Bitfield_allocates (2 ^ 32) (2 ^ 31 + 1) /\
  Bitfield_allocates (2 ^ 32) (2 ^ 32) /\
  Bitfield_constructor (2 ^ 32) (2 ^ 39) None = RangeError.
Proof.
  unfold Bitfield_allocates.
  split; [vm_compute; split; discriminate|].
  split; [vm_compute; split; discriminate|].
  split; [vm_compute; split; discriminate|].
  reflexivity.
Qed.

(** X5: the byte position is taken from the index as an unsigned 32-bit
    number, so an index and the index plus 2^32 address the same bit. *)
Theorem Bitfield_index_wraps (bf : Bitfield.t) (index : Z) (v : bool) :
  0 <= index ->
  Bitfield.get bf (index + 2 ^ 32) = Bitfield.get bf index /\
  Bitfield.set bf (index + 2 ^ 32) v = Bitfield.set bf index v /\
  Bitfield.toggle bf (index + 2 ^ 32) = Bitfield.toggle bf index.
Proof.
  intros Hi.
  assert (Hpos : Js.ushr (index + 2 ^ 32) 3 = Js.ushr index 3).
  { rewrite !ushr_3. f_equal.
    rewrite <- (Z.mul_1_l (2 ^ 32)) at 1. apply Z.mod_add. lia. }
  assert (Hbit : Z.rem (index + 2 ^ 32) 8 = Z.rem index 8).
  { rewrite !Z.rem_mod_nonneg by lia.
    replace (2 ^ 32) with (536870912 * 8) by reflexivity. apply Z.mod_add. lia. }
  unfold Bitfield.get, Bitfield.set, Bitfield.toggle.
  rewrite Hpos, Hbit. auto.
Qed.

Lemma Bitfield_index_wraps_witness :
  0 <= 3 /\
  Bitfield.get (Bitfield.set (Bitfield.new 8 None) 3 true) (3 + 2 ^ 32)
  = Bitfield.get (Bitfield.set (Bitfield.new 8 None) 3 true) 3.
Proof.
  split; [lia|]. apply (Bitfield_index_wraps _ 3 true). lia.
Defined.

(** ** The hash object: composition, value and digest *)

Section FNVFacts.

Lemma FNV_updates_concat (chunks : list Buffer) (h : FNV.t) :
  fold_left FNV.update chunks h = FNV.update h (List.concat chunks).
Proof.
  revert h. induction chunks as [|c tl IH]; intros h; simpl; [reflexivity|].
  now rewrite IH, FNV_update_app.
Qed.

Lemma shl_range (x n : Z) : - 2 ^ 31 <= Js.shl x n < 2 ^ 31.
Proof. unfold Js.shl. apply ToInt32_range. Qed.

Lemma int32_high_bits (z i : Z) :
  - 2 ^ 31 <= z < 2 ^ 31 -> 31 <= i -> Z.testbit z i = Z.testbit z 31.
Proof.
  intros Hz Hi. destruct (Z_lt_le_dec z 0) as [Hneg|Hpos].
  - assert (Hl : 0 <= Z.lnot z < 2 ^ 31) by (unfold Z.lnot; lia).
    assert (E : z = Z.lnot (Z.lnot z)) by (symmetry; apply Z.lnot_involutive).
    set (w := Z.lnot z) in *. rewrite E, !Z.lnot_spec by lia. f_equal.
    destruct (Z.eq_dec w 0) as [E0|Hne]; [now rewrite E0, !Z.bits_0|].
    assert (Z.log2 w < 31) by (apply Z.log2_lt_pow2; lia).
    rewrite !Z.bits_above_log2 by lia. reflexivity.
  - destruct (Z.eq_dec z 0) as [->|Hne]; [now rewrite !Z.bits_0|].
    assert (Z.log2 z < 31) by (apply Z.log2_lt_pow2; lia).
    rewrite !Z.bits_above_log2 by lia. reflexivity.
Qed.

Lemma high_bits_int32 (z : Z) :
  (forall i, 31 <= i -> Z.testbit z i = Z.testbit z 31) -> Js.ToInt32 z = z.
Proof.
  intros H. apply Z.bits_inj'. intros i Hi.
  destruct (Z_lt_le_dec i 32) as [Hlt|Hge].
  - apply ToInt32_testbit. lia.
  - rewrite (int32_high_bits (Js.ToInt32 z) i (ToInt32_range z)) by lia.
    rewrite ToInt32_testbit by lia. symmetry. apply H. lia.
Qed.

(** The result of [^] on 32-bit integers is a 32-bit integer. *)
Lemma xor_range (a b : Z) : - 2 ^ 31 <= Js.xor a b < 2 ^ 31.
Proof.
  unfold Js.xor.
  rewrite <- (high_bits_int32 (Z.lxor (Js.ToInt32 a) (Js.ToInt32 b))).
  - apply ToInt32_range.
  - intros i Hi. rewrite !Z.lxor_spec.
    now rewrite !(int32_high_bits _ i (ToInt32_range _) Hi).
Qed.

Lemma FNV_step_range (h b : Z) : - 2 ^ 34 < FNV.step h b < 2 ^ 34.
Proof.
  unfold FNV.step.
  pose proof (xor_range h b) as Hx.
  set (x := Js.xor h b) in *.
  pose proof (shl_range x 24). pose proof (shl_range x 8). pose proof (shl_range x 7).
  pose proof (shl_range x 4). pose proof (shl_range x 1).
  lia.
Qed.

End FNVFacts.

(** X6: updates compose.  Feeding a hash object any number of buffers one
    after the other leaves it in the state of one update with their
    concatenation, so value and digest are those of the concatenation. *)
Theorem FNV_incremental (chunks : list Buffer) (h : FNV.t) :
  fold_left FNV.update chunks h = FNV.update h (List.concat chunks) /\
  FNV.value (fold_left FNV.update chunks h) = FNV.value (FNV.update h (List.concat chunks)) /\
  FNV.digest_hex (fold_left FNV.update chunks h)
  = FNV.digest_hex (FNV.update h (List.concat chunks)).
Proof. now rewrite FNV_updates_concat. Qed.

Section FNVValueFacts.

Lemma ToInt32_congr (a b : Z) : a mod 2 ^ 32 = b mod 2 ^ 32 -> Js.ToInt32 a = Js.ToInt32 b.
Proof.
  intros H. unfold Js.ToInt32. f_equal.
  rewrite (Zplus_mod a), (Zplus_mod b), H. reflexivity.
Qed.

Lemma FNV_value_ToInt32 (h : FNV.t) : FNV.value h = Js.ToInt32 h.
Proof.
  unfold FNV.value, Js.and. change (Js.ToInt32 4294967295) with (-1).
  apply Z.land_m1_r.
Qed.

Lemma FNV1a_32_range (bytes : list Z) : 0 <= FNV1a_32 bytes < 2 ^ 32.
Proof.
  unfold FNV1a_32.
  assert (G : forall h, 0 <= h < 2 ^ 32 ->
            0 <= fold_left (fun h b => (Z.lxor h b * FNV_prime) mod 2 ^ 32) bytes h < 2 ^ 32).
  { induction bytes as [|b tl IH]; intros h Hh; simpl; [exact Hh|].
    apply IH. apply Z.mod_pos_bound. lia. }
  apply G. lia.
Qed.

End FNVValueFacts.

(** X7: the hash is FNV-1a with the 32-bit FNV prime 2^24 + 2^8 + 0x93.
    For every buffer of bytes, [value()] is the FNV-1a hash of the bytes as
    a signed 32-bit number, and the unsigned value is the hash itself. *)
Theorem FNV_value_is_FNV1a (bytes : Buffer) :
  Buffer_ok bytes ->
  FNV_prime = 2 ^ 24 + 2 ^ 8 + 0x93 /\
  FNV.value (FNV.update FNV.new bytes) = Js.ToInt32 (FNV1a_32 bytes) /\
  Js.ToUint32 (FNV.value (FNV.update FNV.new bytes)) = FNV1a_32 bytes /\
  0 <= FNV1a_32 bytes < 2 ^ 32.
Proof.
  intros Hok.
  pose proof (FNV_uint32_FNV1a bytes Hok) as H. unfold FNV_uint32 in H.
  split; [reflexivity|]. split; [|split; [exact H|apply FNV1a_32_range]].
  rewrite FNV_value_ToInt32. apply ToInt32_congr.
  unfold Js.ToUint32 in H. rewrite FNV_value_ToInt32, ToInt32_mod in H.
  rewrite H. symmetry. apply Z.mod_small. apply FNV1a_32_range.
Qed.

Lemma FNV_value_is_FNV1a_witness :
  Buffer_ok (Buffer_from "foobar") /\
  Js.ToUint32 (FNV.value (FNV.update FNV.new (Buffer_from "foobar")))
  = FNV1a_32 (Buffer_from "foobar").
Proof.
  assert (Hok : Buffer_ok (Buffer_from "foobar"))
    by (repeat constructor; simpl; lia).
  split; [exact Hok|]. apply (FNV_value_is_FNV1a _ Hok).
Defined.

(** X8: [digest()] is four bytes, the unsigned 32-bit hash in big-endian
    order, and [digest('hex')] has eight characters. *)
Theorem FNV_digest_big_endian (h : FNV.t) :
  exists b3 b2 b1 b0,
    FNV.digest h = [b3; b2; b1; b0] /\
    Buffer_ok (FNV.digest h) /\
    b3 * 2 ^ 24 + b2 * 2 ^ 16 + b1 * 2 ^ 8 + b0 = Js.ToUint32 (FNV.value h) /\
    String.length (FNV.digest_hex h) = 8%nat.
Proof.
  unfold FNV.digest_hex, FNV.digest, FNV.writeInt32BE.
  fold (FNV.value h). set (v := FNV.value h).
  eexists _, _, _, _. split; [reflexivity|]. split; [|split; [|reflexivity]].
  - repeat constructor; try (apply Z.mod_pos_bound; lia).
  - unfold Js.ToUint32. rewrite !Z.shiftr_div_pow2 by lia.
    change (2 ^ 24) with 16777216. change (2 ^ 16) with 65536.
    change (2 ^ 8) with 256. change (2 ^ 32) with 4294967296.
    Z.div_mod_to_equations. lia.
Qed.

(** X9: the running hash stays an exactly representable integer: after any
    update from the offset basis it lies strictly between -2^34 and 2^34,
    far inside the range where the additions of [update] are exact. *)
Theorem FNV_hash_stays_exact (data : Buffer) :
  - 2 ^ 34 < FNV.update FNV.new data < 2 ^ 34 /\
  (forall h b, - 2 ^ 34 < FNV.step h b < 2 ^ 34).
Proof.
  split; [|apply FNV_step_range].
  unfold FNV.update.
  assert (G : forall h, - 2 ^ 34 < h < 2 ^ 34 -> - 2 ^ 34 < fold_left FNV.step data h < 2 ^ 34).
  { induction data as [|b tl IH]; intros h Hh; simpl; [exact Hh|].
    apply IH. apply FNV_step_range. }
  apply G. unfold FNV.new. lia.
Qed.

Section FNVStreamFacts.

Lemma FNV_transform_bytes (h : FNV.t) (chunk : JsValue * ChunkEncoding) (bytes : Buffer) :
  chunk_bytes chunk = Some bytes ->
  FNV_transform h (fst chunk) (snd chunk) = (FNV.update h bytes, None).
Proof.
  destruct chunk as [[s|b|] [|e]]; simpl; intros E; inversion E; subst; reflexivity.
Qed.

End FNVStreamFacts.

(** X10: the stream methods.  When every chunk written is a string or a
    [Buffer], every [_transform] calls back with [null] and [_flush] hands
    over the digest of the bytes of all chunks in order; a chunk of another
    type makes [_transform] call back with the TypeError of [update] and
    leaves the hash as it was; and [update] with a hexadecimal string hashes
    the decoded bytes. *)
Theorem FNV_stream_digest :
  (forall (chunks : list (JsValue * ChunkEncoding)) (bytes : list Buffer) (h : FNV.t),
     map chunk_bytes chunks = map Some bytes ->
     FNV_transforms h chunks
     = (FNV.update h (List.concat bytes), repeat None (List.length chunks)) /\
     FNV_flush (fst (FNV_transforms h chunks))
     = FNV.digest (FNV.update h (List.concat bytes))) /\
  (forall (h : FNV.t) (encoding : ChunkEncoding),
     FNV_transform h JsOther encoding = (h, Some TypeError)) /\
  (forall (h : FNV.t) (b : Buffer),
     Buffer_ok b ->
     FNV_update h (JsString (Buffer_toHex b)) (Some hex) = Return (FNV.update h b) tt).
Proof.
  split; [|split].
  - intros chunks bytes h E.
    assert (G : FNV_transforms h chunks
                = (FNV.update h (List.concat bytes), repeat None (List.length chunks))).
    { revert bytes h E. induction chunks as [|[data enc] tl IH]; intros bytes h E.
      - destruct bytes; [reflexivity|discriminate].
      - destruct bytes as [|b bs]; [discriminate|].
        simpl in E. injection E as Eb Etl.
        cbn [FNV_transforms].
        pose proof (FNV_transform_bytes h (data, enc) b Eb) as Ht.
        cbn [fst snd] in Ht. rewrite Ht.
        rewrite (IH bs _ Etl). simpl. now rewrite FNV_update_app. }
    split; [exact G|]. now rewrite G.
  - intros h encoding. reflexivity.
  - intros h b Hok. simpl. now rewrite Buffer_fromHex_toHex.
Qed.

Lemma FNV_stream_digest_witness :
  let chunks := [(JsString "foo", string_chunk utf8); (JsBuffer (Buffer_from "bar"), buffer_chunk)] in
  let bytes := [Buffer_from "foo"; Buffer_from "bar"] in
  map chunk_bytes chunks = map Some bytes /\
  FNV_flush (fst (FNV_transforms FNV.new chunks))
  = FNV.digest (FNV.update FNV.new (List.concat bytes)).
Proof.
  intros chunks bytes. split; [reflexivity|].
  destruct FNV_stream_digest as (H & _).
  apply (H chunks bytes FNV.new). reflexivity.
Defined.

(** ** BloomFilter: what add does to the buffer *)

Section AddBytes.

Lemma Bitfield_get_alloc (n index : Z) :
  Bitfield.get (Bitfield.mk (Buffer_alloc n)) index = false.
Proof.
  unfold Bitfield.get. cbn [Bitfield.buffer].
  replace (Buffer_get (Buffer_alloc n) (Js.ushr index 3)) with 0; [reflexivity|].
  unfold Buffer_get, Buffer_alloc. destruct (Js.ushr index 3 <? 0); [reflexivity|].
  destruct (nth_in_or_default (Z.to_nat (Js.ushr index 3)) (repeat 0 (Z.to_nat n)) 0)
    as [Hin| ->]; [|reflexivity].
  apply repeat_spec in Hin. now rewrite Hin.
Qed.

Lemma Bitfield_get_nil (index : Z) : Bitfield.get (Bitfield.mk []) index = false.
Proof.
  unfold Bitfield.get. cbn [Bitfield.buffer].
  replace (Buffer_get [] (Js.ushr index 3)) with 0; [reflexivity|].
  unfold Buffer_get. destruct (Js.ushr index 3 <? 0); [reflexivity|].
  now destruct (Z.to_nat (Js.ushr index 3)).
Qed.

Lemma index_bit_range (h p : Z) : 0 <= h -> 0 <= index_bit h p < 256.
Proof.
  intros Hh. unfold index_bit. destruct (Js.ushr h 3 =? p); [|lia].
  pose proof (Z.mod_pos_bound h 8 ltac:(lia)).
  assert (2 ^ (h mod 8) <= 2 ^ 7) by (apply Z.pow_le_mono_r; lia).
  assert (0 < 2 ^ (h mod 8)) by (apply Z.pow_pos_nonneg; lia). lia.
Qed.

Lemma index_mask_range (hashes : list Z) (p : Z) :
  Forall (fun h => 0 <= h) hashes -> 0 <= index_mask hashes p < 256.
Proof.
  induction 1 as [|h tl Hh _ IH]; simpl; [lia|].
  apply lor_byte; [now apply index_bit_range|exact IH].
Qed.

Lemma Buffer_get_beyond (buf : Buffer) (p : Z) :
  Z.of_nat (List.length buf) <= p -> Buffer_get buf p = 0.
Proof.
  intros H. unfold Buffer_get. destruct (p <? 0); [reflexivity|].
  apply nth_overflow. lia.
Qed.

(** The byte [set(h, true)] leaves at position [p]. *)
Lemma set_true_byte (bf : Bitfield.t) (h p : Z) :
  Buffer_ok (Bitfield.buffer bf) -> 0 <= h ->
  Buffer_get (Bitfield.buffer (Bitfield.set bf h true)) p
  = if p <? Z.of_nat (List.length (Bitfield.buffer bf))
    then Z.lor (Buffer_get (Bitfield.buffer bf) p) (index_bit h p)
    else 0.
Proof.
  intros Hok Hh. unfold Bitfield.set. cbn [Bitfield.buffer].
  pose proof (ushr_3_bounds h Hh) as Hp.
  pose proof (Z.mod_pos_bound h 8 ltac:(lia)) as Hm.
  destruct (Z.ltb_spec p (Z.of_nat (List.length (Bitfield.buffer bf)))) as [Hin|Hout].
  - unfold index_bit. destruct (Z.eqb_spec (Js.ushr h 3) p) as [E|E].
    + subst p. rewrite Buffer_get_set_same by lia.
      rewrite Z.rem_mod_nonneg, shl_1 by lia.
      apply Js_or_byte; [now apply Buffer_get_ok|].
      assert (2 ^ (h mod 8) <= 2 ^ 7) by (apply Z.pow_le_mono_r; lia).
      assert (0 < 2 ^ (h mod 8)) by (apply Z.pow_pos_nonneg; lia). lia.
    + rewrite Buffer_get_set_other by assumption. now rewrite Z.lor_0_r.
  - apply Buffer_get_beyond. now rewrite Buffer_set_length.
Qed.

(** The bytes [add] leaves: the old byte with the bits of the indices that
    fall into it. *)
Lemma add_loop_byte (hashes : list Z) :
  Forall (fun h => 0 <= h) hashes ->
  forall (bf : Bitfield.t) (p : Z),
    Buffer_ok (Bitfield.buffer bf) ->
    p < Z.of_nat (List.length (Bitfield.buffer bf)) ->
    Buffer_get (Bitfield.buffer (BloomFilter.add_loop bf hashes)) p
    = Z.lor (Buffer_get (Bitfield.buffer bf) p) (index_mask hashes p).
Proof.
  unfold BloomFilter.add_loop.
  induction 1 as [|h tl Hh _ IH]; intros bf p Hok Hp; cbn [fold_left index_mask].
  - now rewrite Z.lor_0_r.
  - rewrite IH.
    + rewrite set_true_byte by assumption.
      destruct (Z.ltb_spec p (Z.of_nat (List.length (Bitfield.buffer bf)))); [|lia].
      now rewrite Z.lor_assoc.
    + unfold Bitfield.set. cbn [Bitfield.buffer]. now apply Buffer_set_ok.
    + now rewrite Bitfield_set_length.
Qed.

Lemma Buffer_ext (a b : Buffer) :
  List.length a = List.length b ->
  (forall p, 0 <= p < Z.of_nat (List.length a) -> Buffer_get a p = Buffer_get b p) ->
  a = b.
Proof.
  intros Hlen H. apply (nth_ext a b 0 0 Hlen). intros n Hn.
  specialize (H (Z.of_nat n) ltac:(lia)). unfold Buffer_get in H.
  destruct (Z.of_nat n <? 0) eqn:E; [apply Z.ltb_lt in E; lia|].
  now rewrite Nat2Z.id in H.
Qed.

Lemma add_loop_ext (bf1 bf2 : Bitfield.t) (hs1 hs2 : list Z) :
  Forall (fun h => 0 <= h) hs1 -> Forall (fun h => 0 <= h) hs2 ->
  Buffer_ok (Bitfield.buffer bf1) -> Buffer_ok (Bitfield.buffer bf2) ->
  List.length (Bitfield.buffer bf1) = List.length (Bitfield.buffer bf2) ->
  (forall p, 0 <= p < Z.of_nat (List.length (Bitfield.buffer bf1)) ->
     Z.lor (Buffer_get (Bitfield.buffer bf1) p) (index_mask hs1 p)
     = Z.lor (Buffer_get (Bitfield.buffer bf2) p) (index_mask hs2 p)) ->
  BloomFilter.add_loop bf1 hs1 = BloomFilter.add_loop bf2 hs2.
Proof.
  intros H1 H2 Hok1 Hok2 Hlen H.
  assert (E : Bitfield.buffer (BloomFilter.add_loop bf1 hs1)
              = Bitfield.buffer (BloomFilter.add_loop bf2 hs2)).
  { apply Buffer_ext.
    - now rewrite !add_loop_length.
    - intros p Hp. rewrite add_loop_length in Hp.
      rewrite !add_loop_byte by (try assumption; lia). now apply H. }
  destruct (BloomFilter.add_loop bf1 hs1), (BloomFilter.add_loop bf2 hs2).
  simpl in E. now subst.
Qed.

Lemma calulateHashes_nonneg (key : Buffer) (size : Z) (slices : R) :
  1 <= size -> Forall (fun h => 0 <= h) (calulateHashes key size slices).
Proof.
  intros Hs. eapply Forall_impl; [|apply calulateHashes_range; exact Hs].
  simpl. lia.
Qed.

Lemma calulateHashes_nil (key : Buffer) (size : Z) (slices : R) :
  (slices <= 0)%R -> calulateHashes key size slices = [].
Proof.
  intros H. rewrite calulateHashes_eq.
  assert (Math_ceil slices <= 0) by (apply Math_ceil_le; exact H).
  now replace (Z.to_nat (Math_ceil slices)) with 0%nat by lia.
Qed.

Lemma calulateHashes_cons (key : Buffer) (size : Z) (slices : R) :
  (0 < slices)%R ->
  exists h tl, calulateHashes key size slices = h :: tl.
Proof.
  intros H. rewrite calulateHashes_eq.
  assert (0 < Math_ceil slices) by (apply lt_Math_ceil; exact H).
  destruct (Z.to_nat (Math_ceil slices)) as [|n] eqn:E; [lia|].
  unfold hash_indices. simpl. eauto.
Qed.

Lemma fresh_filter_has_nothing (size : Z) (slices : R) (key : Buffer) :
  (0 < slices)%R ->
  BloomFilter.has (BloomFilter.new (Some size) (Some slices) None) key = false.
Proof.
  intros Hk. unfold BloomFilter.has, BloomFilter.new, Bitfield.new.
  cbn [BloomFilter.size BloomFilter.slices BloomFilter.bitfield].
  destruct (calulateHashes_cons key size slices Hk) as (h & tl & ->).
  cbn [BloomFilter.has_loop]. now rewrite Bitfield_get_alloc.
Qed.

End AddBytes.

(** X11: a filter the constructor has just built, with at least one bit
    and a positive slice count, has no key. *)
Theorem BloomFilter_fresh_has_nothing (size : Z) (slices : R) (key : Buffer) :
  1 <= size -> (0 < slices)%R ->
  BloomFilter.has (BloomFilter.new (Some size) (Some slices) None) key = false.
Proof.
  intros _ Hk. now apply fresh_filter_has_nothing.
Qed.

Lemma BloomFilter_fresh_has_nothing_witness :
  1 <= 8 /\ (0 < 2)%R /\
  BloomFilter.has (BloomFilter.new (Some 8) (Some 2%R) None) (Buffer_from "foo") = false.
Proof.
  split; [lia|]. split; [lra|].
  apply BloomFilter_fresh_has_nothing; [lia|lra].
Defined.

(** X12: with a slice count of 0 or below no index is derived: [has] is
    true for every key, whatever the buffer holds, and [add] changes
    nothing. *)
Theorem BloomFilter_no_slices (f : BloomFilter.t) (key : Buffer) :
  (BloomFilter.slices f <= 0)%R ->
  BloomFilter.has f key = true /\ BloomFilter.add f key = f.
Proof.
  intros H. unfold BloomFilter.has, BloomFilter.add.
  rewrite calulateHashes_nil by exact H.
  split; [reflexivity|]. now destruct f.
Qed.

Lemma BloomFilter_no_slices_witness :
  let f := BloomFilter.new (Some 8) (Some 0%R) None in
  (BloomFilter.slices f <= 0)%R /\ BloomFilter.has f (Buffer_from "foo") = true.
Proof.
  intros f. assert (H : (BloomFilter.slices f <= 0)%R) by (simpl; lra).
  split; [exact H|]. apply (BloomFilter_no_slices f _ H).
Defined.

(** X13: [add] only sets bits.  On a filter of at least one bit it keeps
    size, slice count and buffer length, every bit that reads as set before
    reads as set after, and every byte afterwards is the old byte with the
    bits of the derived indices that fall into it. *)
Theorem BloomFilter_add_only_sets (f : BloomFilter.t) (key : Buffer) :
  1 <= BloomFilter.size f ->
  BloomFilter.size (BloomFilter.add f key) = BloomFilter.size f /\
  BloomFilter.slices (BloomFilter.add f key) = BloomFilter.slices f /\
  List.length (BloomFilter_buffer (BloomFilter.add f key))
  = List.length (BloomFilter_buffer f) /\
  (forall j, 0 <= j ->
     Bitfield.get (BloomFilter.bitfield f) j = true ->
     Bitfield.get (BloomFilter.bitfield (BloomFilter.add f key)) j = true) /\
  (Buffer_ok (BloomFilter_buffer f) ->
   forall p, 0 <= p < Z.of_nat (List.length (BloomFilter_buffer f)) ->
     Buffer_get (BloomFilter_buffer (BloomFilter.add f key)) p
     = Z.lor (Buffer_get (BloomFilter_buffer f) p)
         (index_mask (calulateHashes key (BloomFilter.size f) (BloomFilter.slices f)) p)).
Proof.
  intros Hs. unfold BloomFilter_buffer, BloomFilter.add.
  cbn [BloomFilter.size BloomFilter.slices BloomFilter.bitfield].
  split; [reflexivity|]. split; [reflexivity|]. split; [apply add_loop_length|].
  split.
  - intros j Hj Hget. apply add_loop_mono; try assumption.
    now apply calulateHashes_nonneg.
  - intros Hok p Hp. apply add_loop_byte; try assumption; try lia.
    now apply calulateHashes_nonneg.
Qed.

Lemma BloomFilter_add_only_sets_witness :
  let f := BloomFilter.new (Some 8) (Some 2%R) None in
  1 <= BloomFilter.size f /\
  List.length (BloomFilter_buffer (BloomFilter.add f (Buffer_from "foo")))
  = List.length (BloomFilter_buffer f).
Proof.
  intros f. assert (H : 1 <= BloomFilter.size f) by (simpl; lia).
  split; [exact H|]. apply (BloomFilter_add_only_sets f _ H).
Defined.

(** X14: adding the same key twice is adding it once, and the order of two
    [add] calls does not matter: the filters are equal, buffer included. *)
Theorem BloomFilter_add_idempotent_commutes (f : BloomFilter.t) (k1 k2 : Buffer) :
  1 <= BloomFilter.size f -> Buffer_ok (BloomFilter_buffer f) ->
  BloomFilter.add (BloomFilter.add f k1) k1 = BloomFilter.add f k1 /\
  BloomFilter.add (BloomFilter.add f k1) k2 = BloomFilter.add (BloomFilter.add f k2) k1.
Proof.
  intros Hs Hok. unfold BloomFilter_buffer in Hok.
  pose proof (calulateHashes_nonneg k1 _ (BloomFilter.slices f) Hs) as H1.
  pose proof (calulateHashes_nonneg k2 _ (BloomFilter.slices f) Hs) as H2.
  set (hs1 := calulateHashes k1 (BloomFilter.size f) (BloomFilter.slices f)) in *.
  set (hs2 := calulateHashes k2 (BloomFilter.size f) (BloomFilter.slices f)) in *.
  unfold BloomFilter.add. cbn [BloomFilter.size BloomFilter.slices BloomFilter.bitfield].
  fold hs1 hs2.
  set (b := BloomFilter.bitfield f) in *.
  assert (Hok1 : Buffer_ok (Bitfield.buffer (BloomFilter.add_loop b hs1)))
    by (now apply add_loop_ok).
  assert (Hok2 : Buffer_ok (Bitfield.buffer (BloomFilter.add_loop b hs2)))
    by (now apply add_loop_ok).
  split; f_equal.
  - transitivity (BloomFilter.add_loop (BloomFilter.add_loop b hs1) []); [|reflexivity].
    apply add_loop_ext; try assumption.
    + constructor.
    + reflexivity.
    + intros p Hp. rewrite add_loop_length in Hp.
      rewrite add_loop_byte by (try assumption; lia).
      cbn [index_mask]. rewrite Z.lor_0_r, <- Z.lor_assoc. f_equal.
      apply Z.lor_diag.
  - apply add_loop_ext; try assumption.
    + now rewrite !add_loop_length.
    + intros p Hp. rewrite add_loop_length in Hp.
      rewrite !add_loop_byte by (try assumption; lia).
      rewrite <- !Z.lor_assoc. f_equal. apply Z.lor_comm.
Qed.

Lemma BloomFilter_add_idempotent_commutes_witness :
  let f := BloomFilter.new (Some 8) (Some 2%R) None in
  1 <= BloomFilter.size f /\ Buffer_ok (BloomFilter_buffer f) /\
  BloomFilter.add (BloomFilter.add f (Buffer_from "foo")) (Buffer_from "bar")
  = BloomFilter.add (BloomFilter.add f (Buffer_from "bar")) (Buffer_from "foo").
Proof.
  intros f. assert (H : 1 <= BloomFilter.size f) by (simpl; lia).
  assert (Hok : Buffer_ok (BloomFilter_buffer f)) by apply Buffer_alloc_ok.
  split; [exact H|]. split; [exact Hok|].
  apply (BloomFilter_add_idempotent_commutes f _ _ H Hok).
Defined.

(** X15: [destringify] takes the buffer of the data as it is, whatever its
    length.  Rebuilt from data with an empty buffer, a filter of at least
    one bit and a positive slice count keeps an empty buffer: every [add]
    is lost and [has] is false for every key, the added one included. *)
Theorem BloomFilter_destringify_unchecked (d : BloomFilter.data) (key k : Buffer) :
  1 <= BloomFilter.data_size d -> (0 < BloomFilter.data_slices d)%R ->
  List.length (BloomFilter_buffer (BloomFilter.destringify d))
  = List.length (BloomFilter.data_bitfield_buffer d) /\
  (BloomFilter.data_bitfield_buffer d = [] ->
   BloomFilter.add (BloomFilter.destringify d) key = BloomFilter.destringify d /\
   BloomFilter.has (BloomFilter.add (BloomFilter.destringify d) key) k = false).
Proof.
  intros Hs Hk. unfold BloomFilter_buffer, BloomFilter.destringify.
  cbn [BloomFilter.new BloomFilter.size BloomFilter.slices BloomFilter.bitfield
       Bitfield.buffer].
  split; [unfold BloomFilter.Buffer_from_array; apply length_map|].
  intros E. rewrite E. cbn [BloomFilter.Buffer_from_array map].
  assert (Hadd : forall hs, BloomFilter.add_loop (Bitfield.mk []) hs = Bitfield.mk []).
  { unfold BloomFilter.add_loop. induction hs as [|h tl IH]; [reflexivity|].
    cbn [fold_left].
    replace (Bitfield.set (Bitfield.mk []) h true) with (Bitfield.mk []); [exact IH|].
    unfold Bitfield.set, Buffer_set. cbn [Bitfield.buffer].
    destruct (Js.ushr h 3 <? 0); [reflexivity|].
    now destruct (Z.to_nat (Js.ushr h 3)). }
  unfold BloomFilter.add, BloomFilter.has.
  cbn [BloomFilter.size BloomFilter.slices BloomFilter.bitfield].
  rewrite Hadd. split; [reflexivity|].
  destruct (calulateHashes_cons k (BloomFilter.data_size d) (BloomFilter.data_slices d) Hk)
    as (h & tl & ->).
  cbn [BloomFilter.has_loop]. now rewrite Bitfield_get_nil.
Qed.

Lemma BloomFilter_destringify_unchecked_witness :
  let d := BloomFilter.mkData 16 2 [] in
  1 <= BloomFilter.data_size d /\ (0 < BloomFilter.data_slices d)%R /\
  BloomFilter.has (BloomFilter.add (BloomFilter.destringify d) (Buffer_from "foo"))
    (Buffer_from "foo") = false.
Proof.
  intros d. split; [simpl; lia|]. split; [simpl; lra|].
  apply (BloomFilter_destringify_unchecked d); [simpl; lia|simpl; lra|reflexivity].
Defined.

(** ** SafeBloomFilter: the count *)

Section SafeRunFacts.

Lemma SafeBloomFilter_run_state (keys : list Buffer) (f : SafeBloomFilter.t) :
  fst (SafeBloomFilter_run f keys) = SafeBloomFilter_adds f keys.
Proof.
  unfold SafeBloomFilter_adds. revert f.
  induction keys as [|k tl IH]; intros f; simpl; [reflexivity|].
  destruct (SafeBloomFilter.add f k) as [f' r] eqn:E.
  specialize (IH f'). destruct (SafeBloomFilter_run f' tl) as [f'' rs].
  simpl in *. exact IH.
Qed.

Lemma SafeBloomFilter_run_spec (C : Z) (keys : list Buffer) :
  forall f : SafeBloomFilter.t,
    SafeBloomFilter.capacity f = IZR C ->
    SafeBloomFilter.count f <= C ->
    let n := Z.of_nat (List.length keys) in
    let room := C - SafeBloomFilter.count f in
    SafeBloomFilter.count (fst (SafeBloomFilter_run f keys))
    = Z.min (SafeBloomFilter.count f + n) C /\
    snd (SafeBloomFilter_run f keys)
    = repeat true (Z.to_nat (Z.min n room)) ++ repeat false (Z.to_nat (n - Z.min n room)).
Proof.
  induction keys as [|k tl IH]; intros f Hcap Hcount n room.
  - subst n room. cbn [SafeBloomFilter_run fst snd List.length].
    split; [lia|].
    replace (Z.to_nat (Z.min (Z.of_nat 0) (C - SafeBloomFilter.count f))) with 0%nat by lia.
    replace (Z.to_nat (Z.of_nat 0 - Z.min (Z.of_nat 0) (C - SafeBloomFilter.count f)))
      with 0%nat by lia.
    reflexivity.
  - cbn [SafeBloomFilter_run].
    destruct (Z_lt_le_dec (SafeBloomFilter.count f) C) as [Hroom|Hfull].
    + rewrite SafeBloomFilter_add_room by (rewrite Hcap; now apply IZR_lt).
      set (f' := SafeBloomFilter.mk _ _ _ _).
      destruct (IH f') as [Hc Hr]; [exact Hcap|simpl; lia|].
      destruct (SafeBloomFilter_run f' tl) as [f'' rs]. cbn [fst snd] in *.
      subst n room. cbn [List.length]. simpl SafeBloomFilter.count in Hc, Hr.
      split; [rewrite Hc; lia|].
      rewrite Hr.
      replace (Z.to_nat (Z.min (Z.of_nat (S (List.length tl))) (C - SafeBloomFilter.count f)))
        with (S (Z.to_nat (Z.min (Z.of_nat (List.length tl))
                             (C - (SafeBloomFilter.count f + 1))))) by lia.
      cbn [repeat app]. do 3 f_equal. lia.
    + rewrite SafeBloomFilter_add_full by (rewrite Hcap; apply Rle_ge; now apply IZR_le).
      destruct (IH f) as [Hc Hr]; [exact Hcap|exact Hcount|].
      destruct (SafeBloomFilter_run f tl) as [f'' rs]. cbn [fst snd] in *.
      subst n room. cbn [List.length].
      split; [rewrite Hc; lia|].
      rewrite Hr.
      replace (Z.to_nat (Z.min (Z.of_nat (S (List.length tl))) (C - SafeBloomFilter.count f)))
        with 0%nat by lia.
      replace (Z.to_nat (Z.min (Z.of_nat (List.length tl)) (C - SafeBloomFilter.count f)))
        with 0%nat by lia.
      cbn [repeat app].
      replace (Z.to_nat (Z.of_nat (S (List.length tl)) - Z.min (Z.of_nat (S (List.length tl)))
                                                      (C - SafeBloomFilter.count f)))
        with (S (Z.to_nat (Z.of_nat (List.length tl)
                           - Z.min (Z.of_nat (List.length tl)) (C - SafeBloomFilter.count f))))
        by lia.
      reflexivity.
Qed.

End SafeRunFacts.

(** X16: the count of a bounded filter.  On a filter with a whole capacity
    [C] and a count [c <= C], of any [n] calls of [add] the first
    [min n (C - c)] return true and all later ones false, and the count
    afterwards is [min (c + n) C]: it never passes the capacity. *)
Theorem SafeBloomFilter_count_saturates (C : Z) (f : SafeBloomFilter.t) (keys : list Buffer) :
  SafeBloomFilter.capacity f = IZR C ->
  SafeBloomFilter.count f <= C ->
  let n := Z.of_nat (List.length keys) in
  let accepted := Z.min n (C - SafeBloomFilter.count f) in
  SafeBloomFilter.count (SafeBloomFilter_adds f keys) = Z.min (SafeBloomFilter.count f + n) C /\
  SafeBloomFilter.count (SafeBloomFilter_adds f keys) <= C /\
  snd (SafeBloomFilter_run f keys)
  = repeat true (Z.to_nat accepted) ++ repeat false (Z.to_nat (n - accepted)).
Proof.
  intros Hcap Hcount n accepted.
  destruct (SafeBloomFilter_run_spec C keys f Hcap Hcount) as [Hc Hr].
  rewrite SafeBloomFilter_run_state in Hc.
  split; [exact Hc|]. split; [rewrite Hc; lia|exact Hr].
Qed.

Lemma SafeBloomFilter_count_saturates_witness :
  let f := SafeBloomFilter.new (Some 2%R) None None in
  let keys := [Buffer_from "a"; Buffer_from "b"; Buffer_from "c"] in
  SafeBloomFilter.capacity f = IZR 2 /\ SafeBloomFilter.count f <= 2 /\
  SafeBloomFilter.count (SafeBloomFilter_adds f keys) = 2 /\
  snd (SafeBloomFilter_run f keys) = [true; true; false].
Proof.
  intros f keys.
  assert (H1 : SafeBloomFilter.capacity f = IZR 2) by reflexivity.
  assert (H2 : SafeBloomFilter.count f <= 2) by (simpl; lia).
  split; [exact H1|]. split; [exact H2|].
  destruct (SafeBloomFilter_count_saturates 2 f keys H1 H2) as (Hc & _ & Hr).
  split; [exact Hc|exact Hr].
Defined.

(** ** The sizing helpers: monotonicity and the number of slices *)

Section SizingBounds.

Lemma Math_log_le (x y : R) : (0 < x)%R -> (x <= y)%R -> (Math_log x <= Math_log y)%R.
Proof. intros Hx Hxy. apply round_le. now apply ln_monotone. Qed.

(** The double of [calculateSize] grows with the product
    [capacity * Math.log(errorRate)] becoming more negative. *)
Lemma calculateSize_value_le (p p' : R) :
  (p' <= p)%R ->
  (Double.div (Double.round p) (- log2sq) <= Double.div (Double.round p') (- log2sq))%R.
Proof.
  intros H. pose proof log2sq_pos as Hk. apply round_le.
  pose proof (round_le p' p H) as Hr.
  replace (Double.round p / - log2sq)%R with (- Double.round p * / log2sq)%R
    by (field; lra).
  replace (Double.round p' / - log2sq)%R with (- Double.round p' * / log2sq)%R
    by (field; lra).
  apply Rmult_le_compat_r; [|lra]. left. now apply Rinv_0_lt_compat.
Qed.

Lemma calculateSize_le_capacity (c c' e : R) :
  (0 < c <= c')%R -> (0 < e < 1)%R -> calculateSize c e <= calculateSize c' e.
Proof.
  intros [Hc Hcc'] He. unfold calculateSize. apply Math_ceil_mono.
  apply calculateSize_value_le. pose proof (Math_log_neg e He). nra.
Qed.

Lemma calculateSize_le_errorRate (c e e' : R) :
  (0 < c)%R -> (0 < e' <= e)%R -> calculateSize c e <= calculateSize c e'.
Proof.
  intros Hc [He' Hee']. unfold calculateSize. apply Math_ceil_mono.
  apply calculateSize_value_le. pose proof (Math_log_le e' e He' Hee').
  apply Rmult_le_compat_l; lra.
Qed.

(** The slice count of a filter sized by [calculateSize] is at least the
    binary logarithm of [1 / errorRate]. *)
Lemma calculateSlices_lower (capacity errorRate : R) :
  (0 < capacity)%R -> (0 < errorRate < 1)%R ->
  (- ln errorRate / ln 2
   <= calculateSlices (IZR (calculateSize capacity errorRate)) capacity)%R.
Proof.
  intros Hc He.
  pose proof (calculateSize_near capacity errorRate Hc He) as [Hn _]. cbv zeta in Hn.
  pose proof (calculateSize_pos capacity errorRate Hc He) as Hpos.
  apply IZR_le in Hpos.
  set (size := IZR (calculateSize capacity errorRate)) in *.
  pose proof (calculateSlices_near size capacity ltac:(lra) Hc) as [Hs _].
  eapply Rle_trans; [|exact Hs].
  pose proof (ln_below_1 errorRate He) as Hln.
  pose proof ln_2_lower as HL. pose proof ln_2_pos as H2.
  set (a := (- ln errorRate)%R) in *. assert (Ha : (0 < a)%R) by (unfold a; lra).
  set (d := Double.slack) in *.
  assert (Hd : (0 < d < / 1000000000000)%R) by (unfold d, Double.slack; lra).
  assert (Hsize : (a * (1000000 / 480453 * (1 - d)) <= size / capacity)%R).
  { apply Rmult_le_reg_r with capacity; [exact Hc|].
    replace (size / capacity * capacity)%R with size by (field; lra).
    replace (capacity * ln errorRate / - (480453 / 1000000) * (1 - d))%R
      with (a * (1000000 / 480453 * (1 - d)) * capacity)%R in Hn
      by (unfold a; field; lra).
    exact Hn. }
  apply Rle_trans with (a * (1000000 / 480453 * (1 - d)) * ln 2 * (1 - d))%R.
  - replace (a * (1000000 / 480453 * (1 - d)) * ln 2 * (1 - d))%R
      with (a * (ln 2 * (1000000 / 480453 * ((1 - d) * (1 - d)))))%R by ring.
    unfold Rdiv at 1. apply Rmult_le_compat_l; [lra|].
    apply Rmult_le_reg_r with (ln 2); [exact H2|].
    rewrite Rinv_l by lra.
    assert (Hsq : (48045301 / 100000000 <= ln 2 * ln 2)%R) by nra.
    assert (Hc0 : (1 <= 48045301 / 100000000 * (1000000 / 480453 * ((1 - d) * (1 - d))))%R).
    { assert (Hdd : (1 - 2 * d <= (1 - d) * (1 - d))%R) by nra. 
      apply Rle_trans with (48045301 / 100000000 * (1000000 / 480453 * (1 - 2 * d)))%R;
        [lra|].
      apply Rmult_le_compat_l; [lra|]. apply Rmult_le_compat_l; lra. }
    replace (ln 2 * (1000000 / 480453 * ((1 - d) * (1 - d))) * ln 2)%R
      with (ln 2 * ln 2 * (1000000 / 480453 * ((1 - d) * (1 - d))))%R by ring.
    eapply Rle_trans; [exact Hc0|].
    apply Rmult_le_compat_r; [|exact Hsq].
    apply Rmult_le_pos; [lra|]. nra.
  - apply Rmult_le_compat_r; [lra|]. apply Rmult_le_compat_r; lra.
Qed.

End SizingBounds.

(** X17: for a capacity from 1 to 2^53 and an error rate strictly between
    0 and 1, the size is at least one bit, it does not shrink when the
    capacity grows or the error rate shrinks, and the slice count that
    [calculateSlices] computes from it is at least
    [-ln(errorRate) / ln 2], the binary logarithm of [1 / errorRate]. *)
Theorem calculateSize_bounds (capacity errorRate : R) :
  (1 <= capacity <= 9007199254740992)%R -> (0 < errorRate < 1)%R ->
  let size := calculateSize capacity errorRate in
  1 <= size /\
  (forall c', (capacity <= c' <= 9007199254740992)%R -> size <= calculateSize c' errorRate) /\
  (forall e', (0 < e' <= errorRate)%R -> size <= calculateSize capacity e') /\
  (- ln errorRate / ln 2 <= calculateSlices (IZR size) capacity)%R.
Proof.
  intros [Hc _] He size. assert (Hc0 : (0 < capacity)%R) by lra.
  split; [now apply calculateSize_pos|].
  split; [intros c' [Hc' _]; apply calculateSize_le_capacity; [lra | exact He]|].
  split; [intros e' He'; now apply calculateSize_le_errorRate|].
  now apply calculateSlices_lower.
Qed.

Lemma calculateSize_bounds_witness :
  (1 <= 20 <= 9007199254740992)%R /\ (0 < 1 / 10 < 1)%R /\
  (- ln (1 / 10) / ln 2 <= calculateSlices (IZR (calculateSize 20 (1 / 10))) 20)%R.
Proof.
  split; [lra|]. split; [lra|].
  apply (calculateSize_bounds 20 (1 / 10)); lra.
Defined.

(** ** ScalingBloomFilter: generations *)

Section GenerationFacts.



Lemma has_loop_existsb (l : list SafeBloomFilter.t) (key : Buffer) :
  ScalingBloomFilter.has_loop l key = existsb (fun f => SafeBloomFilter.has f key) l.
Proof.
  induction l as [|f tl IH]; simpl; [reflexivity|].
  rewrite IH. now destruct (SafeBloomFilter.has f key).
Qed.

Lemma existsb_reverse {A : Type} (p : A -> bool) (l : list A) :
  existsb p (rev l) = existsb p l.
Proof.
  induction l as [|x tl IH]; simpl; [reflexivity|].
  rewrite existsb_app, IH. simpl. rewrite orb_false_r. apply orb_comm.
Qed.


End GenerationFacts.



(** X19: lookup is a union.  [has] is true exactly when some generation
    has the key; the order in which the generations are scanned does not
    change the result. *)
Theorem ScalingBloomFilter_has_union (s : ScalingBloomFilter.t) (key : Buffer) :
  ScalingBloomFilter.has s key
  = existsb (fun f => SafeBloomFilter.has f key) (ScalingBloomFilter.filters s) /\
  ScalingBloomFilter.has s key
  = ScalingBloomFilter.has_loop (ScalingBloomFilter.filters s) key.
Proof.
  unfold ScalingBloomFilter.has. rewrite !has_loop_existsb.
  split; apply existsb_reverse.
Qed.

Section SizeLimit.


End SizeLimit.





(** ** AttenuatedBloomFilter: merge in general *)

Section MergeGeneral.

Lemma merged_same_shape (l f : BloomFilter.t) : same_shape l (merged l f).
Proof.
  unfold same_shape, merged, BloomFilter_buffer. cbn.
  repeat split. apply or_bytes_length.
Qed.

Lemma merge_loop_shape (foreignFilters : list BloomFilter.t) :
  forall (locals : list BloomFilter.t) (localIndex : nat),
    Forall2 same_shape locals
      (fst (AttenuatedBloomFilter.merge_loop localIndex locals foreignFilters)).
Proof.
  assert (Hrefl : forall l, Forall2 same_shape l l).
  { induction l; constructor; [repeat split|assumption]. }
  induction locals as [|f tl IH]; intros i; [constructor|].
  cbn [AttenuatedBloomFilter.merge_loop]. destruct i as [|j].
  - specialize (IH 1%nat).
    destruct (AttenuatedBloomFilter.merge_loop 1 tl foreignFilters) as [rest e].
    cbn [fst] in *. constructor; [repeat split|exact IH].
  - destruct (nth_error foreignFilters j) as [g|]; [|apply Hrefl].
    specialize (IH (S (S j))).
    destruct (AttenuatedBloomFilter.merge_loop (S (S j)) tl foreignFilters) as [rest e].
    cbn [fst] in *. constructor; [apply (merged_same_shape f g)|exact IH].
Qed.

Lemma merge_levels (a peer : AttenuatedBloomFilter.t) :
  AttenuatedBloomFilter.levels (state_of (AttenuatedBloomFilter.merge a peer))
  = fst (AttenuatedBloomFilter.merge_loop 0 (AttenuatedBloomFilter.levels a)
           (AttenuatedBloomFilter.levels peer)).
Proof.
  unfold AttenuatedBloomFilter.merge.
  destruct (AttenuatedBloomFilter.merge_loop 0 _ _) as [ls [e|]]; reflexivity.
Qed.

Lemma merged_idempotent (l f : BloomFilter.t) :
  Buffer_ok (BloomFilter_buffer l) -> Buffer_ok (BloomFilter_buffer f) ->
  merged (merged l f) f = merged l f.
Proof.
  intros Hl Hf. unfold merged at 1 3. cbn [BloomFilter.size BloomFilter.slices].
  do 2 f_equal. unfold merged, BloomFilter_buffer.
  cbn [BloomFilter.bitfield Bitfield.buffer].
  apply Buffer_ext.
  - now rewrite !or_bytes_length.
  - intros p Hp. rewrite !or_bytes_length in Hp.
    rewrite or_bytes_get; try assumption; try lia.
    + rewrite or_bytes_get by (try assumption; lia).
      rewrite <- Z.lor_assoc. f_equal. apply Z.lor_diag.
    + now apply or_bytes_ok.
    + now rewrite or_bytes_length.
Qed.

Lemma merge_loop_idempotent (foreignFilters : list BloomFilter.t) :
  Forall (fun f => Buffer_ok (BloomFilter_buffer f)) foreignFilters ->
  forall (locals ls : list BloomFilter.t) (localIndex : nat),
    Forall (fun f => Buffer_ok (BloomFilter_buffer f)) locals ->
    AttenuatedBloomFilter.merge_loop localIndex locals foreignFilters = (ls, None) ->
    AttenuatedBloomFilter.merge_loop localIndex ls foreignFilters = (ls, None).
Proof.
  intros Hf. induction locals as [|f tl IH]; intros ls i Hl Hm.
  - simpl in Hm. injection Hm as <-. reflexivity.
  - inversion Hl as [|? ? Hfok Htl]; subst.
    cbn [AttenuatedBloomFilter.merge_loop] in Hm. destruct i as [|j].
    + destruct (AttenuatedBloomFilter.merge_loop 1 tl foreignFilters) as [rest e] eqn:E.
      injection Hm as <- ->.
      cbn [AttenuatedBloomFilter.merge_loop]. now rewrite (IH rest 1%nat Htl E).
    + destruct (nth_error foreignFilters j) as [g|] eqn:Ej; [|discriminate].
      destruct (AttenuatedBloomFilter.merge_loop (S (S j)) tl foreignFilters)
        as [rest e] eqn:E.
      injection Hm as <- ->.
      cbn [AttenuatedBloomFilter.merge_loop]. rewrite Ej.
      rewrite (IH rest (S (S j)) Htl E).
      assert (Hg : Buffer_ok (BloomFilter_buffer g)).
      { rewrite Forall_forall in Hf. apply Hf. eapply nth_error_In. exact Ej. }
      do 2 f_equal. exact (merged_idempotent f g Hfok Hg).
Qed.

End MergeGeneral.

(** X22: what a merge hands on.  When both filters are as built, with the
    same bit field size, and [merge] returns, level 0 is as it was and every
    level [i + 1] has each key its own level [i + 1] had and each key level
    [i] of the peer has. *)
Theorem merge_inherits (a peer s : AttenuatedBloomFilter.t) :
  AttenuatedBloomFilter_built a -> AttenuatedBloomFilter_built peer ->
  AttenuatedBloomFilter.bitfieldSize peer = AttenuatedBloomFilter.bitfieldSize a ->
  1 <= AttenuatedBloomFilter.bitfieldSize a ->
  AttenuatedBloomFilter.merge a peer = Return s tt ->
  nth_error (AttenuatedBloomFilter.levels s) 0 = nth_error (AttenuatedBloomFilter.levels a) 0 /\
  (forall (i : nat) (key : Buffer),
     (S i < List.length (AttenuatedBloomFilter.levels a))%nat ->
     AttenuatedBloomFilter.level_has a (S i) key = true \/
     AttenuatedBloomFilter.level_has peer i key = true ->
     AttenuatedBloomFilter.level_has s (S i) key = true).
Proof.
  intros [_ Ha] [_ Hp] Hsize Hs Hm. split.
  - pose proof (merge_level0_unchanged a peer) as H0. now rewrite Hm in H0.
  - intros i key Hi Hhas.
    destruct (nth_error (AttenuatedBloomFilter.levels a) (S i)) as [l|] eqn:El.
    2:{ apply nth_error_None in El. lia. }
    assert (Hlen : (List.length (AttenuatedBloomFilter.levels a)
                    <= List.length (AttenuatedBloomFilter.levels peer) + 1)%nat).
    { pose proof (merge_loop_returns_iff (AttenuatedBloomFilter.levels peer)
                    (AttenuatedBloomFilter.levels a) 0) as Hiff.
      unfold AttenuatedBloomFilter.merge in Hm.
      destruct (AttenuatedBloomFilter.merge_loop 0 _ _) as [ls [e|]]; [discriminate|].
      destruct Hiff as [Hiff _]. destruct (Hiff eq_refl) as [E|E].
      - rewrite E in Hi. simpl in Hi. lia.
      - simpl in E. lia. }
    destruct (nth_error (AttenuatedBloomFilter.levels peer) i) as [f|] eqn:Ef.
    2:{ apply nth_error_None in Ef. lia. }
    unfold AttenuatedBloomFilter.level_has in *.
    rewrite (merge_level a peer s i l f Hm El Ef). rewrite El, Ef in Hhas.
    rewrite Forall_forall in Ha, Hp.
    destruct (Ha l (nth_error_In _ _ El)) as (Hls & Hlk & Hll & Hlok).
    destruct (Hp f (nth_error_In _ _ Ef)) as (Hfs & Hfk & Hfl & Hfok).
    apply merged_has; try assumption.
    + split; [lia|]. unfold BloomFilter_buffer in Hll. now rewrite Hll, Hls.
    + destruct Hhas as [H|H]; [now left|right].
      split; [congruence|]. split; [congruence|exact H].
Qed.

Lemma merge_inherits_witness :
  let a := AttenuatedBloomFilter.new None in
  let peer := AttenuatedBloomFilter.level_add (AttenuatedBloomFilter.new None) 0
                (Buffer_from "foo") in
  exists s,
    AttenuatedBloomFilter.merge a peer = Return s tt /\
    AttenuatedBloomFilter.level_has s 1 (Buffer_from "foo") = true.
Proof.
  intros a peer.
  assert (Ha : AttenuatedBloomFilter_built a)
    by (apply AttenuatedBloomFilter_new_built; simpl; lia).
  assert (Hp : AttenuatedBloomFilter_built peer).
  { apply AttenuatedBloomFilter_level_add_built.
    apply AttenuatedBloomFilter_new_built; simpl; lia. }
  destruct (merge_returns a peer) as [s Hs]; [simpl; lia|].
  exists s. split; [exact Hs|].
  destruct (merge_inherits a peer s Ha Hp eq_refl ltac:(simpl; lia) Hs) as [_ H].
  apply H; [simpl; lia|]. right.
  assert (Hwf : AttenuatedBloomFilter_wf (AttenuatedBloomFilter.new None))
    by exact AttenuatedBloomFilter_new_default_wf.
  unfold peer, AttenuatedBloomFilter.level_has, AttenuatedBloomFilter.level_add.
  cbn [AttenuatedBloomFilter.levels].
  destruct (add_at_has_same _ 0 (Buffer_from "foo") Hwf ltac:(simpl; lia)) as (f & -> & Hf).
  exact Hf.
Defined.

(** X23: when [merge] returns and when it raises.  It returns exactly
    when the local filter has at most one level more than the peer, and
    raises a TypeError otherwise; either way level 0 is as it was. *)
Theorem merge_completion (a peer : AttenuatedBloomFilter.t) :
  ((List.length (AttenuatedBloomFilter.levels a)
    <= List.length (AttenuatedBloomFilter.levels peer) + 1)%nat ->
   exists s, AttenuatedBloomFilter.merge a peer = Return s tt) /\
  ((List.length (AttenuatedBloomFilter.levels peer) + 1
    < List.length (AttenuatedBloomFilter.levels a))%nat ->
   exists s, AttenuatedBloomFilter.merge a peer = Throw s TypeError) /\
  nth_error (AttenuatedBloomFilter.levels
               (state_of (AttenuatedBloomFilter.merge a peer))) 0
  = nth_error (AttenuatedBloomFilter.levels a) 0.
Proof.
  split; [apply merge_returns|]. split; [apply merge_raises|].
  apply merge_level0_unchanged.
Qed.

Lemma merge_completion_witness :
  let a := AttenuatedBloomFilter.new None in
  let peer := AttenuatedBloomFilter.new None in
  (List.length (AttenuatedBloomFilter.levels a)
   <= List.length (AttenuatedBloomFilter.levels peer) + 1)%nat /\
  exists s, AttenuatedBloomFilter.merge a peer = Return s tt.
Proof.
  intros a peer. split; [simpl; lia|].
  apply (merge_completion a peer). simpl. lia.
Defined.

(** X24: merging is idempotent.  When the buffers hold bytes and [merge]
    returns, merging the same peer once more returns the same filter. *)
Theorem merge_idempotent (a peer s : AttenuatedBloomFilter.t) :
  Forall (fun f => Buffer_ok (BloomFilter_buffer f)) (AttenuatedBloomFilter.levels a) ->
  Forall (fun f => Buffer_ok (BloomFilter_buffer f)) (AttenuatedBloomFilter.levels peer) ->
  AttenuatedBloomFilter.merge a peer = Return s tt ->
  AttenuatedBloomFilter.merge s peer = Return s tt.
Proof.
  intros Ha Hp Hm. unfold AttenuatedBloomFilter.merge in *.
  destruct (AttenuatedBloomFilter.merge_loop 0 (AttenuatedBloomFilter.levels a) _)
    as [ls [e|]] eqn:E; [discriminate|].
  injection Hm as <-. cbn [AttenuatedBloomFilter.levels AttenuatedBloomFilter.bitfieldSize
                           AttenuatedBloomFilter.filterDepth].
  now rewrite (merge_loop_idempotent _ Hp _ _ _ Ha E).
Qed.

Lemma merge_idempotent_witness :
  let a := AttenuatedBloomFilter.new None in
  let peer := AttenuatedBloomFilter.new None in
  exists s, AttenuatedBloomFilter.merge a peer = Return s tt /\
            AttenuatedBloomFilter.merge s peer = Return s tt.
Proof.
  intros a peer.
  assert (Hok : Forall (fun f => Buffer_ok (BloomFilter_buffer f))
                  (AttenuatedBloomFilter.levels a)).
  { assert (Hb : AttenuatedBloomFilter_built a)
      by (apply AttenuatedBloomFilter_new_built; simpl; lia).
    destruct Hb as [_ Hb]. eapply Forall_impl; [|exact Hb].
    intros f Hf. apply Hf. }
  destruct (merge_returns a peer) as [s Hs]; [simpl; lia|].
  exists s. split; [exact Hs|]. exact (merge_idempotent a peer s Hok Hok Hs).
Defined.

(** X25: [merge] keeps the shape of the local filter, whatever the peer is
    and whether it returns or raises: the two fields, the number of levels,
    and the size, slice count and buffer length of every level.  Peer bytes
    beyond the length of a local buffer are dropped. *)
Theorem merge_keeps_shape (a peer : AttenuatedBloomFilter.t) :
  let s := state_of (AttenuatedBloomFilter.merge a peer) in
  AttenuatedBloomFilter.bitfieldSize s = AttenuatedBloomFilter.bitfieldSize a /\
  AttenuatedBloomFilter.filterDepth s = AttenuatedBloomFilter.filterDepth a /\
  List.length (AttenuatedBloomFilter.levels s) = List.length (AttenuatedBloomFilter.levels a) /\
  Forall2 same_shape (AttenuatedBloomFilter.levels a) (AttenuatedBloomFilter.levels s).
Proof.
  intros s. subst s.
  assert (H : Forall2 same_shape (AttenuatedBloomFilter.levels a)
                (AttenuatedBloomFilter.levels
                   (state_of (AttenuatedBloomFilter.merge a peer)))).
  { rewrite merge_levels. apply merge_loop_shape. }
  split; [|split; [|split; [|exact H]]].
  - unfold AttenuatedBloomFilter.merge.
    destruct (AttenuatedBloomFilter.merge_loop 0 _ _) as [ls [e|]]; reflexivity.
  - unfold AttenuatedBloomFilter.merge.
    destruct (AttenuatedBloomFilter.merge_loop 0 _ _) as [ls [e|]]; reflexivity.
  - symmetry. eapply Forall2_length. exact H.
Qed.

(** ** AttenuatedBloomFilter: the hexadecimal form *)

Section HexFacts.

Lemma Buffer_toHex_length (buf : Buffer) :
  String.length (Buffer_toHex buf) = (2 * List.length buf)%nat.
Proof.
  induction buf as [|b tl IH]; [reflexivity|].
  cbn [Buffer_toHex String.length List.length]. rewrite IH. lia.
Qed.

Lemma hex_digit_is_hex (d : Z) : 0 <= d < 16 -> is_hex_digit (hex_digit d) = true.
Proof.
  intros H.
  assert (C : d = 0 \/ d = 1 \/ d = 2 \/ d = 3 \/ d = 4 \/ d = 5 \/ d = 6 \/ d = 7 \/
              d = 8 \/ d = 9 \/ d = 10 \/ d = 11 \/ d = 12 \/ d = 13 \/ d = 14 \/ d = 15)
    by lia.
  repeat (destruct C as [->|C]; [reflexivity|]). subst d. reflexivity.
Qed.

Lemma Buffer_toHex_is_hex (buf : Buffer) :
  Buffer_ok buf -> is_hex_string (Buffer_toHex buf) = true.
Proof.
  induction 1 as [|b tl Hb _ IH]; [reflexivity|].
  cbn [Buffer_toHex is_hex_string].
  rewrite !hex_digit_is_hex, IH; [reflexivity| |].
  - apply Z.mod_pos_bound. lia.
  - split; [apply Z.div_pos; lia|apply Z.div_lt_upper_bound; lia].
Qed.

(** A lower-case hexadecimal digit is the digit of its value. *)
Lemma hex_digit_value (c : ascii) :
  is_hex_digit c = true ->
  exists v, hex_value c = Some v /\ 0 <= v < 16 /\ hex_digit v = c.
Proof.
  destruct c as [[] [] [] [] [] [] [] []]; intros H;
    try (vm_compute in H; discriminate H);
    (eexists; split; [reflexivity|];
     split; [vm_compute; split; [discriminate|reflexivity]|reflexivity]).
Qed.

(** Encoding the bytes decoded from a string of lower-case hexadecimal pairs
    gives the string back. *)
Lemma Buffer_toHex_fromHex (s : string) :
  is_hex_string s = true -> Buffer_toHex (Buffer_fromHex s) = s.
Proof.
  revert s. fix IH 1. intros s.
  destruct s as [|c1 [|c2 tl]]; [reflexivity|discriminate|].
  cbn [is_hex_string]. intros H.
  apply andb_prop in H as [H Htl]. apply andb_prop in H as [H1 H2].
  destruct (hex_digit_value c1 H1) as (h & Eh & Hh & Dh).
  destruct (hex_digit_value c2 H2) as (l & El & Hl & Dl).
  cbn [Buffer_fromHex]. rewrite Eh, El. cbn [Buffer_toHex].
  rewrite (IH tl Htl).
  replace ((h * 16 + l) / 16) with h by (Z.div_mod_to_equations; lia).
  replace ((h * 16 + l) mod 16) with l by (Z.div_mod_to_equations; lia).
  now rewrite Dh, Dl.
Qed.

Lemma set_buffers_toHex (filters : list BloomFilter.t) (hexFilters : list string) :
  List.length filters = List.length hexFilters ->
  Forall (fun s => is_hex_string s = true) hexFilters ->
  map (fun f => Buffer_toHex (Bitfield.toBuffer (BloomFilter.bitfield f)))
      (AttenuatedBloomFilter.set_buffers filters hexFilters)
  = hexFilters.
Proof.
  revert hexFilters. induction filters as [|f tl IH]; intros [|s ss] Hlen Hall;
    try discriminate; [reflexivity|].
  inversion Hall; subst. cbn [AttenuatedBloomFilter.set_buffers map].
  unfold Bitfield.toBuffer at 1. cbn [BloomFilter.bitfield Bitfield.buffer].
  rewrite Buffer_toHex_fromHex by assumption.
  f_equal. apply IH; [simpl in Hlen; lia|assumption].
Qed.

Lemma hex_array_shape (a : AttenuatedBloomFilter.t) :
  AttenuatedBloomFilter_built a ->
  Z.of_nat (List.length (AttenuatedBloomFilter.toHexArray a))
  = AttenuatedBloomFilter.filterDepth a /\
  Forall (fun s =>
            is_hex_string s = true /\
            Z.of_nat (String.length s)
            = 2 * Bitfield.byteLength (AttenuatedBloomFilter.bitfieldSize a))
         (AttenuatedBloomFilter.toHexArray a).
Proof.
  intros [Hd Hall]. unfold AttenuatedBloomFilter.toHexArray. split.
  - rewrite length_map. now rewrite Hd.
  - apply Forall_map. eapply Forall_impl; [|exact Hall].
    intros f (_ & _ & Hlen & Hok). unfold Bitfield.toBuffer, BloomFilter_buffer in *.
    split; [now apply Buffer_toHex_is_hex|].
    rewrite Buffer_toHex_length. lia.
Qed.

End HexFacts.

(** X26: the hexadecimal form of a filter as built has one string for each
    level, every string is in lower-case hexadecimal digits and has two
    characters for each of the [ceil(bitfieldSize / 8)] bytes. *)
Theorem toHexArray_shape (a : AttenuatedBloomFilter.t) :
  AttenuatedBloomFilter_built a ->
  Z.of_nat (List.length (AttenuatedBloomFilter.toHexArray a))
  = AttenuatedBloomFilter.filterDepth a /\
  Forall (fun s =>
            is_hex_string s = true /\
            Z.of_nat (String.length s)
            = 2 * Bitfield.byteLength (AttenuatedBloomFilter.bitfieldSize a))
         (AttenuatedBloomFilter.toHexArray a).
Proof. apply hex_array_shape. Qed.

Lemma toHexArray_shape_witness :
  let a := AttenuatedBloomFilter.new None in
  AttenuatedBloomFilter_built a /\
  Z.of_nat (List.length (AttenuatedBloomFilter.toHexArray a)) = 3.
Proof.
  intros a.
  assert (Hb : AttenuatedBloomFilter_built a)
    by (apply AttenuatedBloomFilter_new_built; simpl; lia).
  split; [exact Hb|]. apply (toHexArray_shape a Hb).
Defined.

(** X27: [from] on well-formed strings.  For a non-empty array of strings
    of lower-case hexadecimal pairs, [from] builds a filter with one level
    for each string whose [toHexArray] is the array again; on an empty array
    it raises. *)
Theorem from_hex_round_trip (hexFilters : list string) :
  AttenuatedBloomFilter.from [] = None /\
  (hexFilters <> [] ->
   Forall (fun s => is_hex_string s = true) hexFilters ->
   exists a,
     AttenuatedBloomFilter.from hexFilters = Some a /\
     AttenuatedBloomFilter.filterDepth a = Z.of_nat (List.length hexFilters) /\
     List.length (AttenuatedBloomFilter.levels a) = List.length hexFilters /\
     AttenuatedBloomFilter.toHexArray a = hexFilters).
Proof.
  split; [reflexivity|]. intros Hne Hall.
  destruct hexFilters as [|first rest]; [contradiction|].
  unfold AttenuatedBloomFilter.from. eexists. split; [reflexivity|].
  set (hs := first :: rest) in *.
  unfold AttenuatedBloomFilter.new, AttenuatedBloomFilter.or_default.
  cbn [AttenuatedBloomFilter.opt_bitfieldSize AttenuatedBloomFilter.opt_filterDepth
       AttenuatedBloomFilter.bitfieldSize AttenuatedBloomFilter.filterDepth
       AttenuatedBloomFilter.levels].
  destruct (Z.eqb_spec (Z.of_nat (List.length hs)) 0) as [E|_]; [simpl in E; lia|].
  rewrite Nat2Z.id.
  set (f0 := BloomFilter.new _ _ None).
  assert (Hlen : List.length
                   (AttenuatedBloomFilter.set_buffers (repeat f0 (List.length hs)) hs)
                 = List.length hs).
  { assert (G : forall (l : list BloomFilter.t) (ss : list string),
              List.length l = List.length ss ->
              List.length (AttenuatedBloomFilter.set_buffers l ss) = List.length ss).
    { induction l as [|x l IH]; intros [|s ss] H; try discriminate; [reflexivity|].
      cbn [AttenuatedBloomFilter.set_buffers List.length]. f_equal. apply IH.
      simpl in H. lia. }
    apply G. apply repeat_length. }
  split; [reflexivity|]. split; [exact Hlen|].
  unfold AttenuatedBloomFilter.toHexArray. cbn [AttenuatedBloomFilter.levels].
  apply set_buffers_toHex; [apply repeat_length|exact Hall].
Qed.

Lemma from_hex_round_trip_witness :
  let hs := ["00ff"; "a1b2"]%string in
  hs <> [] /\ Forall (fun s => is_hex_string s = true) hs /\
  exists a, AttenuatedBloomFilter.from hs = Some a /\
            AttenuatedBloomFilter.toHexArray a = hs.
Proof.
  intros hs.
  assert (H1 : hs <> []) by discriminate.
  assert (H2 : Forall (fun s => is_hex_string s = true) hs) by (repeat constructor).
  split; [exact H1|]. split; [exact H2|].
  destruct (from_hex_round_trip hs) as [_ H].
  destruct (H H1 H2) as (a & Ea & _ & _ & Eh).
  exists a. split; [exact Ea|exact Eh].
Defined.

(** X28: the constructor.  A missing option or an option of 0 gives the
    default (160 bits, depth 3).  For a depth that is not negative and a
    bit field size whose buffer can be allocated, every level is allocated,
    the filter has [filterDepth] levels of [bitfieldSize] bits and two
    slices each, every buffer has [ceil(bitfieldSize / 8)] bytes, all of
    them 0, and when the size is at least 1 no level has any key. *)
Theorem AttenuatedBloomFilter_new_empty (kMaxLength : Z)
    (opts : option AttenuatedBloomFilter.options) :
  let a := AttenuatedBloomFilter.new opts in
  AttenuatedBloomFilter.bitfieldSize a <> 0 /\
  AttenuatedBloomFilter.filterDepth a <> 0 /\
  AttenuatedBloomFilter.new (Some (AttenuatedBloomFilter.mkOptions (Some 0) (Some 0)))
  = AttenuatedBloomFilter.new None /\
  (0 <= AttenuatedBloomFilter.filterDepth a ->
   Bitfield_allocates kMaxLength (AttenuatedBloomFilter.bitfieldSize a) ->
   Forall (fun f => Bitfield_constructor kMaxLength (BloomFilter.size f) None
                    = Allocated (BloomFilter.bitfield f))
          (AttenuatedBloomFilter.levels a) /\
   AttenuatedBloomFilter_built a /\
   Forall (fun f => BloomFilter_buffer f
                    = repeat 0 (Z.to_nat (Bitfield.byteLength
                                            (AttenuatedBloomFilter.bitfieldSize a))))
          (AttenuatedBloomFilter.levels a) /\
   (1 <= AttenuatedBloomFilter.bitfieldSize a ->
    forall (i : nat) (key : Buffer), AttenuatedBloomFilter.level_has a i key = false)).
Proof.
  intros a.
  assert (Hdef : forall x d, d <> 0 -> AttenuatedBloomFilter.or_default x d <> 0).
  { intros x d Hd. unfold AttenuatedBloomFilter.or_default.
    destruct x as [v|]; [|exact Hd]. destruct (Z.eqb_spec v 0); assumption. }
  split; [apply Hdef; lia|]. split; [apply Hdef; lia|]. split; [reflexivity|].
  intros Hd Halloc.
  assert (Hlevels : forall f, In f (AttenuatedBloomFilter.levels a) ->
            f = BloomFilter.new (Some (AttenuatedBloomFilter.bitfieldSize a)) (Some 2%R) None).
  { intros f Hf. subst a. unfold AttenuatedBloomFilter.new in *.
    cbn [AttenuatedBloomFilter.levels AttenuatedBloomFilter.bitfieldSize] in *.
    now apply repeat_spec in Hf. }
  split; [|split; [|split]].
  - apply Forall_forall. intros f Hf. rewrite (Hlevels f Hf).
    cbn [BloomFilter.new BloomFilter.size BloomFilter.bitfield].
    now apply Bitfield_constructor_returns.
  - split.
    + subst a. unfold AttenuatedBloomFilter.new in *.
      cbn [AttenuatedBloomFilter.levels AttenuatedBloomFilter.filterDepth] in *.
      rewrite repeat_length. lia.
    + apply Forall_forall. intros f Hf. rewrite (Hlevels f Hf).
      unfold BloomFilter_buffer, BloomFilter.new, Bitfield.new.
      cbn [BloomFilter.size BloomFilter.slices BloomFilter.bitfield Bitfield.buffer].
      repeat split; try apply Buffer_alloc_ok.
      unfold Buffer_alloc. rewrite repeat_length.
      apply Z2Nat.id. apply Halloc.
  - apply Forall_forall. intros f Hf. rewrite (Hlevels f Hf). reflexivity.
  - intros Hs i key. unfold AttenuatedBloomFilter.level_has.
    destruct (nth_error (AttenuatedBloomFilter.levels a) i) as [f|] eqn:E; [|reflexivity].
    apply nth_error_In in E. rewrite (Hlevels f E).
    apply fresh_filter_has_nothing. lra.
Qed.

Lemma AttenuatedBloomFilter_new_empty_witness :
  let a := AttenuatedBloomFilter.new None in
  0 <= AttenuatedBloomFilter.filterDepth a /\
  Bitfield_allocates (2 ^ 32) (AttenuatedBloomFilter.bitfieldSize a) /\
  1 <= AttenuatedBloomFilter.bitfieldSize a /\
  AttenuatedBloomFilter.level_has a 0 (Buffer_from "foo") = false.
Proof.
  intros a.
  assert (Hd : 0 <= AttenuatedBloomFilter.filterDepth a) by (simpl; lia).
  assert (Ha : Bitfield_allocates (2 ^ 32) (AttenuatedBloomFilter.bitfieldSize a))
    by (unfold Bitfield_allocates; vm_compute; split; discriminate).
  assert (H : 1 <= AttenuatedBloomFilter.bitfieldSize a) by (simpl; lia).
  split; [exact Hd|]. split; [exact Ha|]. split; [exact H|].
  destruct (AttenuatedBloomFilter_new_empty (2 ^ 32) None) as (_ & _ & _ & Hn).
  destruct (Hn Hd Ha) as (_ & _ & _ & Hhas). now apply Hhas.
Defined.

Section ToStringFacts.

Lemma string_length_append (s1 s2 : string) :
  String.length (s1 ++ s2) = (String.length s1 + String.length s2)%nat.
Proof. induction s1 as [|c s1 IH]; simpl; [reflexivity|now rewrite IH]. Qed.

Lemma concat_comma_length (L : nat) (l : list string) :
  Forall (fun s => String.length s = L) l ->
  String.length (String.concat "," l) = (List.length l * L + (List.length l - 1))%nat.
Proof.
  induction 1 as [|s tl Hs Htl IH]; [reflexivity|].
  destruct tl as [|s' tl'].
  - simpl. rewrite Hs. lia.
  - change (String.concat "," (s :: s' :: tl'))
      with (s ++ "," ++ String.concat "," (s' :: tl'))%string.
    rewrite !string_length_append, IH, Hs. simpl. lia.
Qed.

End ToStringFacts.

(** X29: [toString()] joins the strings of [toHexArray()] with commas:
    for a filter as built, with [d] levels of [n] bytes, it has
    [d * 2n + (d - 1)] characters. *)
Theorem toString_length (a : AttenuatedBloomFilter.t) :
  AttenuatedBloomFilter_built a ->
  0 <= AttenuatedBloomFilter.bitfieldSize a ->
  let d := List.length (AttenuatedBloomFilter.levels a) in
  let n := Z.to_nat (Bitfield.byteLength (AttenuatedBloomFilter.bitfieldSize a)) in
  String.length (AttenuatedBloomFilter_toString a) = (d * (2 * n) + (d - 1))%nat.
Proof.
  intros Hb Hs d n.
  destruct (hex_array_shape a Hb) as [Hd Hall].
  unfold AttenuatedBloomFilter_toString.
  rewrite (concat_comma_length (2 * n)).
  - unfold AttenuatedBloomFilter.toHexArray. now rewrite length_map.
  - eapply Forall_impl; [|exact Hall]. intros s [_ Hlen]. subst n.
    pose proof (byteLength_nonneg _ Hs). lia.
Qed.

Lemma toString_length_witness :
  let a := AttenuatedBloomFilter.new None in
  AttenuatedBloomFilter_built a /\ 0 <= AttenuatedBloomFilter.bitfieldSize a /\
  String.length (AttenuatedBloomFilter_toString a) = 122%nat.
Proof.
  intros a.
  assert (Hb : AttenuatedBloomFilter_built a)
    by (apply AttenuatedBloomFilter_new_built; simpl; lia).
  assert (Hs : 0 <= AttenuatedBloomFilter.bitfieldSize a) by (simpl; lia).
  split; [exact Hb|]. split; [exact Hs|].
  exact (toString_length a Hb Hs).
Defined.
